(** * Snake game agents: grid model, search agents and Q-learning agents

    A shallow embedding of the decision core of the snake game
    (ai.py, allagents.py, learning.py, simplereflex.py, reflexagent.py)
    and the proofs of its specified properties.

    Python integers are unbounded, so coordinates are [Z]; list indices, the
    snake length and search depths are [nat]; the direction strings ['left'],
    ['right'], ['up'], ['down'] form an enumeration.  Python sets of cells are
    [gset (Z * Z)].  Code that can raise returns a [result]. *)

From Stdlib Require Import ZArith QArith Lia Lqa List.
From stdpp Require Import gmap strings list fin_sets.
From Bignums Require Import BigZ.

Local Open Scope Z_scope.

(** * Part I: the embedding *)

(** ** Outcomes of Python code *)

Inductive exn := IndexError | KeyError | NameError.

(** [OutOfFuel] is not a Python outcome: it marks a [while] loop of the model
    that was given too little fuel to finish. *)
Inductive result (A : Type) :=
| Ok (a : A)
| Raise (e : exn)
| OutOfFuel.
Arguments Ok {A} a.
Arguments Raise {A} e.
Arguments OutOfFuel {A}.

#[global] Instance result_ret : MRet result := @Ok.
#[global] Instance result_bind : MBind result := λ A B f m,
  match m with
  | Ok a => f a
  | Raise e => Raise e
  | OutOfFuel => OutOfFuel
  end.

(** [l[i]] for a non-negative index. *)
Definition getitem {A} (l : list A) (i : nat) : result A :=
  match l !! i with
  | Some v => Ok v
  | None => Raise IndexError
  end.

(** [l[i] = v] for a non-negative index. *)
Definition setitem {A} (l : list A) (i : nat) (v : A) : result (list A) :=
  if decide (i < length l)%nat then Ok (<[i:=v]> l) else Raise IndexError.

(** ** Game configuration constants *)

Definition SIZE : Z := 40.

(** The display surface; every [Game.__init__] creates it with
    [pygame.display.set_mode((1000, 800))]. *)
Record Surface := mkSurface { get_width : Z; get_height : Z }.

Definition display : Surface := mkSurface 1000 800.

(** ** Directions *)

Inductive Direction := left | right | up | down.

#[global] Instance Direction_eq_dec : EqDecision Direction.
Proof. solve_decision. Defined.

Definition opposite (d : Direction) : Direction :=
  match d with
  | left => right
  | right => left
  | up => down
  | down => up
  end.

(** The dictionary [direction_moves] of ai.py. *)
Definition direction_moves (d : Direction) : Z * Z :=
  match d with
  | left => (- SIZE, 0)
  | right => (SIZE, 0)
  | up => (0, - SIZE)
  | down => (0, SIZE)
  end.

Definition cell : Type := Z * Z.

Definition step (c : cell) (d : Direction) : cell :=
  (c.1 + (direction_moves d).1, c.2 + (direction_moves d).2).

(** ** The snake (class [Snake], the same in every file) *)

Module Snake.

Record t := mk {
  direction : Direction;
  length : nat;
  x : list Z;
  y : list Z
}.

(** [Snake.__init__] *)
Definition init : t := mk down 1 [40] [40].

Definition move_left (s : t) : t :=
  if decide (direction s ≠ right) then mk left (length s) (x s) (y s) else s.

Definition move_right (s : t) : t :=
  if decide (direction s ≠ left) then mk right (length s) (x s) (y s) else s.

Definition move_up (s : t) : t :=
  if decide (direction s ≠ down) then mk up (length s) (x s) (y s) else s.

Definition move_down (s : t) : t :=
  if decide (direction s ≠ up) then mk down (length s) (x s) (y s) else s.

(** The loop [for i in range(length - 1, 0, -1): x[i] = x[i-1]; y[i] = y[i-1]],
    entered at index [i]; it runs down to index 1. *)
Fixpoint shift (i : nat) (xs ys : list Z) : result (list Z * list Z) :=
  match i with
  | O => Ok (xs, ys)
  | S j =>
      xv ← getitem xs j;
      xs' ← setitem xs (S j) xv;
      yv ← getitem ys j;
      ys' ← setitem ys (S j) yv;
      shift j xs' ys'
  end.

(** [Snake.walk] (the drawing left out). *)
Definition walk (s : t) : result t :=
  '(xs, ys) ← shift (length s - 1) (x s) (y s);
  match direction s with
  | left =>
      x0 ← getitem xs 0; xs' ← setitem xs 0 (x0 - SIZE);
      Ok (mk (direction s) (length s) xs' ys)
  | right =>
      x0 ← getitem xs 0; xs' ← setitem xs 0 (x0 + SIZE);
      Ok (mk (direction s) (length s) xs' ys)
  | up =>
      y0 ← getitem ys 0; ys' ← setitem ys 0 (y0 - SIZE);
      Ok (mk (direction s) (length s) xs ys')
  | down =>
      y0 ← getitem ys 0; ys' ← setitem ys 0 (y0 + SIZE);
      Ok (mk (direction s) (length s) xs ys')
  end.

Definition increase_length (s : t) : t :=
  mk (direction s) (length s + 1) (x s ++ [-1]) (y s ++ [-1]).

(** The coordinate lists and the length field agree. *)
Definition consistent (s : t) : Prop :=
  Datatypes.length (x s) = length s ∧ Datatypes.length (y s) = length s.

(** Segment [i] as a cell. *)
Definition segment (s : t) (i : nat) : option cell :=
  xi ← x s !! i; yi ← y s !! i; Some (xi, yi).

End Snake.

(** ** The game state read by the agents *)

Record Game := mkGame {
  snake : Snake.t;
  apple_x : Z;
  apple_y : Z;
  surface : Surface
}.

(** [Game.is_collision], the same in every file. *)
Definition is_collision (x1 y1 x2 y2 : Z) : bool :=
  if bool_decide (x1 >= x2 ∧ x1 < x2 + SIZE) then
    if bool_decide (y1 >= y2 ∧ y1 < y2 + SIZE) then true else false
  else false.

(** The loop [for i in idx: if is_collision(px, py, x[i], y[i]): return True]
    followed by [return False]. *)
Fixpoint hits_body (s : Snake.t) (px py : Z) (idx : list nat) : result bool :=
  match idx with
  | [] => Ok false
  | i :: rest =>
      xi ← getitem (Snake.x s) i;
      yi ← getitem (Snake.y s) i;
      if is_collision px py xi yi then Ok true else hits_body s px py rest
  end.

(** The loop [for i in idx: if px == x[i] and py == y[i]: found], the exact
    test of the flood fills of allagents.py and reflexagent.py; [and] reads
    [y[i]] only when the first comparison holds. *)
Fixpoint occupies (s : Snake.t) (px py : Z) (idx : list nat) : result bool :=
  match idx with
  | [] => Ok false
  | i :: rest =>
      xi ← getitem (Snake.x s) i;
      if decide (px = xi) then
        yi ← getitem (Snake.y s) i;
        if decide (py = yi) then Ok true else occupies s px py rest
      else occupies s px py rest
  end.

(** [range(a, b)] *)
Definition range (a b : nat) : list nat := seq a (b - a).

(** The test [0 <= px < screen_width and 0 <= py < screen_height]. *)
Definition on_screen (g : Game) (px py : Z) : bool :=
  bool_decide (0 ≤ px < get_width (surface g) ∧ 0 ≤ py < get_height (surface g)).

(** [Game._get_potential_head], the same in every file. *)
Definition _get_potential_head (g : Game) (d : Direction) : result (Z * Z) :=
  head_x ← getitem (Snake.x (snake g)) 0;
  head_y ← getitem (Snake.y (snake g)) 0;
  Ok (step (head_x, head_y) d).

(** [Game._is_potential_move_colliding] of ai.py, allagents.py,
    simplereflex.py and reflexagent.py. *)
Definition _is_potential_move_colliding (g : Game) (next_x next_y : Z) : result bool :=
  if negb (on_screen g next_x next_y) then Ok true
  else hits_body (snake g) next_x next_y (range 1 (Snake.length (snake g))).

(** [Game.self_collision] of ai.py and allagents.py: the scan starts at
    index 3.  [self_collision_from k] is the same scan started at index [k]. *)
Fixpoint head_hits (s : Snake.t) (idx : list nat) : result bool :=
  match idx with
  | [] => Ok false
  | i :: rest =>
      x0 ← getitem (Snake.x s) 0;
      y0 ← getitem (Snake.y s) 0;
      xi ← getitem (Snake.x s) i;
      yi ← getitem (Snake.y s) i;
      if is_collision x0 y0 xi yi then Ok true else head_hits s rest
  end.

Definition self_collision_from (k : nat) (s : Snake.t) : result bool :=
  head_hits s (range k (Snake.length s)).

Definition self_collision (s : Snake.t) : result bool :=
  self_collision_from 3 s.

(** ** Schedules of snake operations *)

(** The operations a caller can invoke on a snake. *)
Inductive request := MoveLeft | MoveRight | MoveUp | MoveDown | IncreaseLength | Walk.

Definition perform (r : request) (s : Snake.t) : result Snake.t :=
  match r with
  | MoveLeft => Ok (Snake.move_left s)
  | MoveRight => Ok (Snake.move_right s)
  | MoveUp => Ok (Snake.move_up s)
  | MoveDown => Ok (Snake.move_down s)
  | IncreaseLength => Ok (Snake.increase_length s)
  | Walk => Snake.walk s
  end.

Fixpoint run (rs : list request) (s : Snake.t) : result Snake.t :=
  match rs with
  | [] => Ok s
  | r :: rest => s' ← perform r s; run rest s'
  end.

(** One turn request, as an agent issues it. *)
Definition turn (d : Direction) (s : Snake.t) : Snake.t :=
  match d with
  | left => Snake.move_left s
  | right => Snake.move_right s
  | up => Snake.move_up s
  | down => Snake.move_down s
  end.

Definition turn_opt (d : option Direction) (s : Snake.t) : Snake.t :=
  match d with
  | Some d => turn d s
  | None => s
  end.

(** A paced tick, the shape of one round of an agent followed by
    [Game.play]: at most one turn request, then [walk], then
    [increase_length] when the apple was eaten. *)
Record tick := mkTick { request_of : option Direction; grows : bool }.

Definition do_tick (t : tick) (s : Snake.t) : result Snake.t :=
  s1 ← Snake.walk (turn_opt (request_of t) s);
  Ok (if grows t then Snake.increase_length s1 else s1).

Fixpoint run_ticks (ts : list tick) (s : Snake.t) : result Snake.t :=
  match ts with
  | [] => Ok s
  | t :: rest => s' ← do_tick t s; run_ticks rest s'
  end.

(** What every state reached by paced ticks satisfies: from length 3 on,
    segment 1 lies one step behind the head, against the heading. *)
Definition paced_inv (s : Snake.t) : Prop :=
  Snake.consistent s ∧ (1 ≤ Snake.length s)%nat
  ∧ ((3 ≤ Snake.length s)%nat →
       ∃ h, Snake.segment s 0 = Some h
          ∧ Snake.segment s 1 = Some (step h (opposite (Snake.direction s)))).

(** ** Numbers

    Python floats are read as rationals: the model keeps the operations and
    their order and leaves rounding out. *)

Definition Qltb (a b : Q) : bool := negb (Qle_bool b a).

(** Python's two-argument [max] and [min]: the first argument wins ties. *)
Definition pymax (a b : Q) : Q := if Qltb a b then b else a.
Definition pymin (a b : Q) : Q := if Qltb b a then b else a.

(** [max] of a non-empty list, [d] standing for the empty one (on which
    Python raises; no caller below passes it). *)
Definition pymax_list (d : Q) (l : list Q) : Q :=
  match l with
  | [] => d
  | v :: rest => foldl pymax v rest
  end.

(** ** ai.py: the search agent *)

Module ai.

(** A queue entry [(x, y, first_direction, depth)] of [_bfs_pathfind]. *)
Definition entry : Type := Z * Z * Direction * nat.

(** The local [max_depth = 15] of [_bfs_pathfind]. *)
Definition max_depth : nat := 15.

(** The local list [directions] of [_bfs_pathfind] and [smart_agent_bfs]. *)
Definition directions : list Direction := [left; right; up; down].

(** The seeding loop [for direction in valid_directions] of [_bfs_pathfind]. *)
Fixpoint seed (start : cell) (valid_directions : list Direction)
    (queue : list entry) (visited : gset cell) : list entry * gset cell :=
  match valid_directions with
  | [] => (queue, visited)
  | direction :: rest =>
      let nxt := step start direction in
      seed start rest (queue ++ [(nxt.1, nxt.2, direction, 1%nat)]) ({[nxt]} ∪ visited)
  end.

(** The loop [for direction in directions] that explores the neighbours of
    the dequeued cell. *)
Fixpoint explore (g : Game) (current : cell) (first_direction : Direction) (depth : nat)
    (ds : list Direction) (queue : list entry) (visited : gset cell)
    : result (list entry * gset cell) :=
  match ds with
  | [] => Ok (queue, visited)
  | direction :: rest =>
      let nxt := step current direction in
      if decide (nxt ∈ visited) then
        explore g current first_direction depth rest queue visited
      else if negb (on_screen g nxt.1 nxt.2) then
        explore g current first_direction depth rest queue visited
      else
        collision ← hits_body (snake g) nxt.1 nxt.2 (range 1 (Snake.length (snake g)));
        if collision : bool then
          explore g current first_direction depth rest queue visited
        else
          explore g current first_direction depth rest
            (queue ++ [(nxt.1, nxt.2, first_direction, S depth)]) ({[nxt]} ∪ visited)
  end.

(** The loop [while queue] of [_bfs_pathfind]; [None] is Python's [None]. *)
Fixpoint bfs_loop (fuel : nat) (g : Game) (target : cell)
    (queue : list entry) (visited : gset cell) : result (option Direction) :=
  match fuel with
  | O => OutOfFuel
  | S fuel' =>
      match queue with
      | [] => Ok None
      | (current_x, current_y, first_direction, depth) :: queue' =>
          if decide (current_x = target.1 ∧ current_y = target.2) then
            Ok (Some first_direction)
          else if decide (max_depth ≤ depth)%nat then
            bfs_loop fuel' g target queue' visited
          else
            '(queue2, visited2) ←
              explore g (current_x, current_y) first_direction depth directions
                queue' visited;
            bfs_loop fuel' g target queue2 visited2
      end
  end.

Definition _bfs_pathfind (fuel : nat) (g : Game) (start_x start_y target_x target_y : Z)
    (valid_directions : list Direction) : result (option Direction) :=
  let '(queue, visited) := seed (start_x, start_y) valid_directions [] ∅ in
  bfs_loop fuel g (target_x, target_y) queue visited.

(** The loop [for dx, dy in directions] of [_count_available_space]; the
    body is tested from index 0, the head included. *)
Fixpoint spread (g : Game) (x y : Z) (depth : nat) (deltas : list (Z * Z))
    (queue : list (Z * Z * nat)) (visited : gset cell)
    : result (list (Z * Z * nat) * gset cell) :=
  match deltas with
  | [] => Ok (queue, visited)
  | (dx, dy) :: rest =>
      let next_x := x + dx in
      let next_y := y + dy in
      if decide ((next_x, next_y) ∈ visited) then spread g x y depth rest queue visited
      else if negb (on_screen g next_x next_y) then spread g x y depth rest queue visited
      else
        collision ← hits_body (snake g) next_x next_y (range 0 (Snake.length (snake g)));
        if collision : bool then spread g x y depth rest queue visited
        else
          spread g x y depth rest (queue ++ [(next_x, next_y, S depth)])
            ({[(next_x, next_y)]} ∪ visited)
  end.

(** The loop [while queue] of [_count_available_space]. *)
Fixpoint count_loop (fuel : nat) (g : Game) (max_depth : nat)
    (queue : list (Z * Z * nat)) (visited : gset cell) (count : nat) : result nat :=
  match fuel with
  | O => OutOfFuel
  | S fuel' =>
      match queue with
      | [] => Ok count
      | (x, y, depth) :: queue' =>
          let count := S count in
          if decide (max_depth ≤ depth)%nat then
            count_loop fuel' g max_depth queue' visited count
          else
            '(queue2, visited2) ←
              spread g x y depth [(- SIZE, 0); (SIZE, 0); (0, - SIZE); (0, SIZE)]
                queue' visited;
            count_loop fuel' g max_depth queue2 visited2 count
      end
  end.

Definition _count_available_space (fuel : nat) (g : Game) (start_x start_y : Z)
    (max_depth : nat) : result nat :=
  count_loop fuel g max_depth [(start_x, start_y, 0%nat)] {[(start_x, start_y)]} 0.

(** The filter loop of [smart_agent_bfs] that builds [valid_directions]. *)
Fixpoint safe_directions (g : Game) (head : cell) (ds : list Direction)
    : result (list Direction) :=
  match ds with
  | [] => Ok []
  | direction :: rest =>
      if decide (direction = opposite (Snake.direction (snake g))) then
        safe_directions g head rest
      else
        let nxt := step head direction in
        colliding ← _is_potential_move_colliding g nxt.1 nxt.2;
        valid ← safe_directions g head rest;
        Ok (if colliding : bool then valid else direction :: valid)
  end.

Definition set_snake (g : Game) (s : Snake.t) : Game :=
  mkGame s (apple_x g) (apple_y g) (surface g).

Section scoring.

(** [math.sqrt] on the integer argument it receives; floating-point scores
    are read as rationals. *)
Variable math_sqrt : Z → Q.

Definition _calculate_distance (x1 y1 x2 y2 : Z) : Q :=
  math_sqrt ((x2 - x1) ^ 2 + (y2 - y1) ^ 2).

(** The loop over the body of [_utility_score]; [None] is [float('inf')]. *)
Fixpoint min_body_distance (s : Snake.t) (next_x next_y : Z) (idx : list nat)
    (acc : option Q) : result (option Q) :=
  match idx with
  | [] => Ok acc
  | i :: rest =>
      xi ← getitem (Snake.x s) i;
      yi ← getitem (Snake.y s) i;
      let body_distance := _calculate_distance next_x next_y xi yi in
      min_body_distance s next_x next_y rest
        (Some (match acc with
               | None => body_distance
               | Some m => pymin m body_distance
               end))
  end.

Definition _utility_score (fuel : nat) (g : Game) (next_x next_y apple_x apple_y : Z)
    : result Q :=
  let distance_to_apple := _calculate_distance next_x next_y apple_x apple_y in
  let score := pymax 0 (1000 - distance_to_apple) in
  let min_wall_distance :=
    Z.min (Z.min next_x (get_width (surface g) - next_x - SIZE))
          (Z.min next_y (get_height (surface g) - next_y - SIZE)) in
  let score := (score + inject_Z (min_wall_distance * 2))%Q in
  mbd ← min_body_distance (snake g) next_x next_y
           (range 1 (Snake.length (snake g))) None;
  let score := match mbd with
               | Some m => (score + m * 3)%Q
               | None => score
               end in
  available_space ← _count_available_space fuel g next_x next_y 8;
  Ok (score + inject_Z (Z.of_nat available_space * 5))%Q.

(** The scoring loop of [_safety_first_agent]. *)
Fixpoint best_scored (fuel : nat) (g : Game) (head : cell) (valid_directions : list Direction)
    (best_direction : option Direction) (best_score : Q) : result (option Direction) :=
  match valid_directions with
  | [] => Ok best_direction
  | direction :: rest =>
      let nxt := step head direction in
      score ← _utility_score fuel g nxt.1 nxt.2 (apple_x g) (apple_y g);
      if Qltb best_score score then best_scored fuel g head rest (Some direction) score
      else best_scored fuel g head rest best_direction best_score
  end.

Definition _safety_first_agent (fuel : nat) (g : Game) (valid_directions : list Direction)
    : result Game :=
  head_x ← getitem (Snake.x (snake g)) 0;
  head_y ← getitem (Snake.y (snake g)) 0;
  best_direction ← best_scored fuel g (head_x, head_y) valid_directions None (-1);
  Ok (set_snake g (turn_opt best_direction (snake g))).

Definition smart_agent_bfs (fuel : nat) (g : Game) : result Game :=
  head_x ← getitem (Snake.x (snake g)) 0;
  head_y ← getitem (Snake.y (snake g)) 0;
  valid_directions ← safe_directions g (head_x, head_y) directions;
  match valid_directions with
  | [] => Ok g
  | _ =>
      best_direction ←
        _bfs_pathfind fuel g head_x head_y (apple_x g) (apple_y g) valid_directions;
      match best_direction with
      | Some d => Ok (set_snake g (turn d (snake g)))
      | None => _safety_first_agent fuel g valid_directions
      end
  end.

End scoring.

End ai.

(** ** Grid paths and layered search: the notions the proofs use *)

(** The body test as a pure function: does the cell hit a segment with an
    index in [idx]? *)
Definition body_hit (s : Snake.t) (px py : Z) (idx : list nat) : bool :=
  existsb (λ i, match Snake.segment s i with
                | Some (xi, yi) => is_collision px py xi yi
                | None => false
                end) idx.

(** A cell the search may enter: on the screen and off the body scanned from
    index [from]. *)
Definition passable (from : nat) (g : Game) (c : cell) : bool :=
  on_screen g c.1 c.2
  && negb (body_hit (snake g) c.1 c.2 (range from (Snake.length (snake g)))).

(** [path g start d c n]: [n] steps lead from [start] to [c], the first one
    in direction [d], every cell entered being passable for [_bfs_pathfind]
    (on the screen and off the body segments 1 .. length - 1). *)
Inductive path (g : Game) (start : cell) : Direction → cell → nat → Prop :=
| path_first d :
    passable 1 g (step start d) = true → path g start d (step start d) 1
| path_next d c n d' :
    path g start d c n → passable 1 g (step c d') = true →
    path g start d (step c d') (S n).

(** A queue entry without its payload: a cell and its depth. *)
Definition node : Type := cell * nat.

Definition neighbours (c : cell) : list cell := step c <$> ai.directions.

Section layers.

Variable free : cell → bool.
Variable seeds : list cell.
Variable k0 : nat.
Variable cap : nat.

(** [reach c k]: [c] lies [k - k0] free steps from a seed. *)
Inductive reach : cell → nat → Prop :=
| reach_seed c : c ∈ seeds → reach c k0
| reach_step c k d : reach c k → free (step c d) = true → reach (step c d) (S k).

(** The neighbour loop on nodes. *)
Fixpoint expand (k : nat) (ns : list cell) (queue : list node) (visited : gset cell)
    : list node * gset cell :=
  match ns with
  | [] => (queue, visited)
  | n :: rest =>
      if decide (n ∈ visited) then expand k rest queue visited
      else if free n then expand k rest (queue ++ [(n, S k)]) ({[n]} ∪ visited)
      else expand k rest queue visited
  end.

(** The invariant of the [while queue] loops; [finished] lists the nodes
    already dequeued. *)
Record search_inv (finished queue : list node) (visited : gset cell) : Prop := {
  inv_visited : ∀ c, c ∈ visited ↔ c ∈ (finished ++ queue).*1;
  inv_nodup : NoDup (finished ++ queue).*1;
  inv_reach : ∀ c k, (c, k) ∈ finished ++ queue → reach c k ∧ (k ≤ cap)%nat;
  inv_layer : ∃ m, (∀ c k, (c, k) ∈ finished → (k ≤ m)%nat)
      ∧ ∃ A B, queue = A ++ B
          ∧ (∀ c k, (c, k) ∈ A → k = m) ∧ (∀ c k, (c, k) ∈ B → k = S m);
  inv_closed : ∀ c k d, (c, k) ∈ finished → (k < cap)%nat →
      free (step c d) = true →
      ∃ k', (k' ≤ S k)%nat ∧ (step c d, k') ∈ finished ++ queue;
  inv_seeds : ∀ c, c ∈ seeds → ∃ k', (k' ≤ k0)%nat ∧ (c, k') ∈ finished ++ queue
}.

End layers.

(** The cells within [r] grid steps of [o] along each axis. *)
Definition offsets (r : nat) : list Z := seqZ (- Z.of_nat r) (2 * Z.of_nat r + 1).

Definition square (o : cell) (r : nat) : list cell :=
  (λ ij : Z * Z, (o.1 + ij.1 * SIZE, o.2 + ij.2 * SIZE)) <$> list_prod (offsets r) (offsets r).

(** [c] lies at most [k] grid steps from [o]. *)
Definition within (o : cell) (k : nat) (c : cell) : Prop :=
  ∃ i j, c = (o.1 + i * SIZE, o.2 + j * SIZE) ∧ Z.abs i + Z.abs j ≤ Z.of_nat k.

(** A queue entry of [_bfs_pathfind] as a node. *)
Definition erase (e : ai.entry) : node := (e.1.1, e.2).

(** A queue entry of [_count_available_space] as a node. *)
Definition erase3 (e : Z * Z * nat) : node := (e.1, e.2).

(** The game with one more obstacle cell: an extra body segment at
    [(ox, oy)]. *)
Definition with_obstacle (g : Game) (ox oy : Z) : Game :=
  ai.set_snake g
    (Snake.mk (Snake.direction (snake g)) (Snake.length (snake g) + 1)
       (Snake.x (snake g) ++ [ox]) (Snake.y (snake g) ++ [oy])).

(** The exact body test as a pure function. *)
Definition body_at (s : Snake.t) (px py : Z) (idx : list nat) : bool :=
  existsb (λ i, match Snake.segment s i with
                | Some (xi, yi) => bool_decide (px = xi ∧ py = yi)
                | None => false
                end) idx.

(** A cell the count-capped flood fills may count: on the screen and on none
    of the segments with an index in [idx]. *)
Definition vacant (idx : list nat) (g : Game) (c : cell) : bool :=
  on_screen g c.1 c.2 && negb (body_at (snake g) c.1 c.2 idx).

Section components.

Variable free : cell → bool.
Variable seeds : list cell.

(** [c] is joined to a seed by free steps. *)
Definition connected (c : cell) : Prop := ∃ k, reach free seeds 0 c k.

(** The invariant of a breadth-first fill that marks a cell when it is
    queued; [counted] lists the cells already dequeued. *)
Record queue_inv (counted queue : list cell) (visited : gset cell) : Prop := {
  qinv_nodup : NoDup (counted ++ queue);
  qinv_visited : ∀ c, c ∈ visited ↔ c ∈ counted ++ queue;
  qinv_connected : ∀ c, c ∈ counted ++ queue → connected c;
  qinv_closed : ∀ c d, c ∈ counted → free (step c d) = true → step c d ∈ visited;
  qinv_seeds : ∀ c, c ∈ seeds → c ∈ visited
}.

(** The invariant of a depth-first fill that marks a cell when it is
    popped; the stack may hold cells that are marked or not free. *)
Record stack_inv (counted stack : list cell) (visited : gset cell) : Prop := {
  sinv_nodup : NoDup counted;
  sinv_visited : ∀ c, c ∈ visited ↔ c ∈ counted;
  sinv_connected : ∀ c, c ∈ counted → connected c;
  sinv_pending : ∀ c, c ∈ stack → free c = true → connected c;
  sinv_closed : ∀ c d, c ∈ counted → free (step c d) = true →
      step c d ∈ visited ∨ step c d ∈ stack;
  sinv_seeds : ∀ c, c ∈ seeds → c ∈ visited ∨ c ∈ stack
}.

End components.

(** ** learning.py: the tabular Q-learning agent *)

Module learning.

(** The state tuple [(apple_rel_x_disc, apple_rel_y_disc, dangers,
    current_direction)] built by [get_state]; [dangers] is the tuple
    [(danger_up, danger_down, danger_left, danger_right)]. *)
Definition State : Type := Z * Z * (Z * Z * Z * Z) * Z.

(** [self.actions = ['up', 'down', 'left', 'right']] *)
Definition actions : list Direction := [up; down; left; right].

Definition n_actions : nat := length actions.

Record QLearningAgent := mkAgent {
  learning_rate : Q;
  discount_factor : Q;
  epsilon : Q;
  epsilon_decay : Q;
  epsilon_min : Q;
  q_table : gmap State (list Q)
}.

Definition set_q_table (a : QLearningAgent) (t : gmap State (list Q)) : QLearningAgent :=
  mkAgent (learning_rate a) (discount_factor a) (epsilon a) (epsilon_decay a)
    (epsilon_min a) t.

Definition set_epsilon (a : QLearningAgent) (e : Q) : QLearningAgent :=
  mkAgent (learning_rate a) (discount_factor a) e (epsilon_decay a)
    (epsilon_min a) (q_table a).

(** [QLearningAgent.__init__] with its default arguments and no saved table. *)
Definition init : QLearningAgent :=
  mkAgent (1 # 10) (9 # 10) 1 (999 # 1000) (1 # 100) ∅.

(** [tuple[i]] on a 4-tuple. *)
Definition tuple4_item (t : Z * Z * Z * Z) (i : nat) : result Z :=
  let '(a, b, c, d) := t in
  match i with
  | 0%nat => Ok a
  | 1%nat => Ok b
  | 2%nat => Ok c
  | 3%nat => Ok d
  | _ => Raise IndexError
  end.

(** The dictionary [direction_map_rev]. *)
Definition direction_map_rev (n : Z) : result Direction :=
  if decide (n = 0) then Ok up
  else if decide (n = 1) then Ok down
  else if decide (n = 2) then Ok left
  else if decide (n = 3) then Ok right
  else Raise KeyError.

(** The loop [for i, action_name in enumerate(self.actions)] of
    [get_valid_actions_for_state], entered at index [i]. *)
Fixpoint valid_from (current : Direction) (dangers : Z * Z * Z * Z) (i : nat)
    (names : list Direction) : result (list nat) :=
  match names with
  | [] => Ok []
  | action_name :: rest =>
      if decide (action_name = opposite current) then
        valid_from current dangers (S i) rest
      else
        danger ← tuple4_item dangers i;
        valid ← valid_from current dangers (S i) rest;
        Ok (if decide (danger = 0) then i :: valid else valid)
  end.

Definition get_valid_actions_for_state (state_tuple : State) : result (list nat) :=
  let '(_, _, dangers_from_state, current_direction_int_from_state) := state_tuple in
  current_direction_from_state ← direction_map_rev current_direction_int_from_state;
  valid_from current_direction_from_state dangers_from_state 0 actions.

(** [if key not in table: table[key] = [0.0] * self.n_actions] *)
Definition ensure_row (table : gmap State (list Q)) (key : State) : gmap State (list Q) :=
  match table !! key with
  | Some _ => table
  | None => <[key := replicate n_actions 0%Q]> table
  end.

(** [table[key]] *)
Definition row_of (table : gmap State (list Q)) (key : State) : result (list Q) :=
  match table !! key with
  | Some row => Ok row
  | None => Raise KeyError
  end.

(** The comprehension [[row[i] for i in idx]]. *)
Fixpoint gather (row : list Q) (idx : list nat) : result (list Q) :=
  match idx with
  | [] => Ok []
  | i :: rest => v ← getitem row i; vs ← gather row rest; Ok (v :: vs)
  end.

Definition update_q_table (a : QLearningAgent) (state : State) (action : nat)
    (reward : Q) (next_state : State) (done : bool) : result QLearningAgent :=
  let table := ensure_row (q_table a) state in
  let table := ensure_row table next_state in
  row ← row_of table state;
  current_q ← getitem row action;
  target_q ←
    (if done then Ok reward
     else
       next_state_valid_actions ← get_valid_actions_for_state next_state;
       max_future_q ←
         match next_state_valid_actions with
         | [] => Ok 0%Q
         | _ =>
             next_row ← row_of table next_state;
             qs ← gather next_row next_state_valid_actions;
             Ok (pymax_list 0 qs)
         end;
       Ok (reward + discount_factor a * max_future_q)%Q);
  row' ← setitem row action (current_q + learning_rate a * (target_q - current_q))%Q;
  Ok (set_q_table a (<[state := row']> table)).

(** [get_reward]: [head] is the head after the move, read through
    [self.game.snake], and the apple is read through [self.game.apple]. *)
Definition get_reward (g : Game) (old_state : State) (action : nat) (new_state : State)
    (game_over ate_apple : bool) : result Z :=
  if game_over then Ok (-500)
  else if ate_apple then Ok 1000
  else
    head_x ← getitem (Snake.x (snake g)) 0;
    head_y ← getitem (Snake.y (snake g)) 0;
    let old_dist_sq := (head_x - apple_x g) ^ 2 + (head_y - apple_y g) ^ 2 in
    action_name ← getitem actions action;
    '(new_head_x, new_head_y) ← _get_potential_head g action_name;
    let new_dist_sq := (new_head_x - apple_x g) ^ 2 + (new_head_y - apple_y g) ^ 2 in
    if decide (new_dist_sq < old_dist_sq) then Ok (0 + 10)
    else if decide (new_dist_sq > old_dist_sq) then Ok (0 - 15)
    else Ok (0 - 5).

(** The statements under [# Decay epsilon] that close [train_episode]. *)
Definition decay_epsilon (a : QLearningAgent) : QLearningAgent :=
  if Qltb (epsilon_min a) (epsilon a) then set_epsilon a (epsilon a * epsilon_decay a)%Q
  else a.

End learning.

(** ** simplereflex.py: the basic Q-learning agent of [Game] *)

#[global] Instance Direction_countable : Countable Direction.
Proof.
  refine (inj_countable'
            (λ d, match d with left => 0 | right => 1 | up => 2 | down => 3 end)%nat
            (λ n, match n with
                  | 0 => left | 1 => right | 2 => up | _ => down
                  end)%nat _).
  intros []; reflexivity.
Defined.

Module simplereflex.

(** The tuple of [_get_state]: four apple flags, four danger flags
    (left, right, up, down) and the heading. *)
Definition State : Type :=
  bool * bool * bool * bool * bool * bool * bool * bool * Direction.

(** The learning fields of [Game]: [q_table], [alpha], [gamma]. *)
Record Learner := mkLearner {
  q_table : gmap (State * Direction) Q;
  alpha : Q;
  gamma : Q
}.

(** [Game.__init__] *)
Definition init : Learner := mkLearner ∅ (1 # 10) (9 # 10).

(** [self.q_table.get((state, a), 0)]; the default [next_state=None] is a
    key that is never stored. *)
Definition q_get (table : gmap (State * Direction) Q) (state : option State)
    (a : Direction) : Q :=
  match state with
  | Some st => default 0%Q (table !! (st, a))
  | None => 0%Q
  end.

Definition _update_q_table (l : Learner) (state : State) (action : Direction)
    (reward : Q) (next_state : option State) (terminal : bool) : Learner :=
  let old_q := q_get (q_table l) (Some state) action in
  let new_q :=
    if terminal then reward
    else
      let future_qs := q_get (q_table l) next_state <$> [left; right; up; down] in
      let max_future_q := pymax_list 0 future_qs in
      (old_q + alpha l * (reward + gamma l * max_future_q - old_q))%Q in
  mkLearner (<[(state, action) := new_q]> (q_table l)) (alpha l) (gamma l).

End simplereflex.

(** ** allagents.py: the utility-based agent and the learning agent *)

Module allagents.

Definition _calculate_manhattan_distance (x1 y1 x2 y2 : Z) : Z :=
  Z.abs (x2 - x1) / SIZE + Z.abs (y2 - y1) / SIZE.

(** [l[-1]] *)
Definition getlast {A} (l : list A) : result A :=
  match last l with
  | Some v => Ok v
  | None => Raise IndexError
  end.

(** [directions.remove(d)]: the first occurrence goes. *)
Fixpoint list_remove {A} `{EqDecision A} (d : A) (l : list A) : list A :=
  match l with
  | [] => []
  | e :: rest => if decide (e = d) then rest else e :: list_remove d rest
  end.

(** The candidates of the agents: the four directions without the reverse
    of the heading. *)
Definition candidates (heading : Direction) : list Direction :=
  list_remove (opposite heading) [left; right; up; down].

(** *** The goal-based agent's flood fill *)

Module GoalBasedAgent.

(** The loop [for dx, dy in ...] of [count_available_space].  The stack is
    listed from its top: [stack.pop()] takes the head, [stack.append] conses. *)
Fixpoint push_unvisited (curr : cell) (deltas : list (Z * Z)) (stack : list cell)
    (visited : gset cell) : list cell :=
  match deltas with
  | [] => stack
  | (dx, dy) :: rest =>
      let next_pos := (curr.1 + dx, curr.2 + dy) in
      if decide (next_pos ∈ visited) then push_unvisited curr rest stack visited
      else push_unvisited curr rest (next_pos :: stack) visited
  end.

(** The loop [while stack and count < 100]. *)
Fixpoint count_loop (fuel : nat) (g : Game) (stack : list cell) (visited : gset cell)
    (count : nat) : result nat :=
  match fuel with
  | O => OutOfFuel
  | S fuel' =>
      match stack with
      | [] => Ok count
      | (curr_x, curr_y) :: stack' =>
          if decide (100 ≤ count)%nat then Ok count
          else if decide ((curr_x, curr_y) ∈ visited) then
            count_loop fuel' g stack' visited count
          else if bool_decide (curr_x < 0 ∨ curr_x >= get_width (surface g)
                               ∨ curr_y < 0 ∨ curr_y >= get_height (surface g)) then
            count_loop fuel' g stack' visited count
          else
            collision ← occupies (snake g) curr_x curr_y
                          (range 0 (Snake.length (snake g) - 1));
            if collision : bool then count_loop fuel' g stack' visited count
            else
              let visited := {[(curr_x, curr_y)]} ∪ visited in
              count_loop fuel' g
                (push_unvisited (curr_x, curr_y)
                   [(SIZE, 0); (- SIZE, 0); (0, SIZE); (0, - SIZE)] stack' visited)
                visited (S count)
      end
  end.

Definition count_available_space (fuel : nat) (g : Game) (x y : Z) : result nat :=
  count_loop fuel g [(x, y)] ∅ 0.

End GoalBasedAgent.

Module UtilityBasedAgent.

Record t := mk { previous_direction : option Direction }.

(** The loop of [count_escape_routes]; its arguments [x], [y] are not read. *)
Fixpoint escape_routes (g : Game) (ds : list Direction) (count : Z) : result Z :=
  match ds with
  | [] => Ok count
  | direction :: rest =>
      '(next_x, next_y) ← _get_potential_head g direction;
      colliding ← _is_potential_move_colliding g next_x next_y;
      escape_routes g rest (if colliding : bool then count else count + 1)
  end.

Definition count_escape_routes (g : Game) (x y : Z) : result Z :=
  escape_routes g [left; right; up; down] 0.

Definition calculate_utility (a : t) (g : Game) (direction : Direction)
    : result Z :=
  '(next_x, next_y) ← _get_potential_head g direction;
  colliding ← _is_potential_move_colliding g next_x next_y;
  if colliding : bool then Ok (-10000)
  else
    let utility := 0 in
    let apple_distance :=
      _calculate_manhattan_distance next_x next_y (apple_x g) (apple_y g) in
    let utility := utility - apple_distance * 20 in
    escape ← count_escape_routes g next_x next_y;
    let utility := utility + escape * 10 in
    let min_wall_distance :=
      Z.min (Z.min next_x (get_width (surface g) - next_x))
            (Z.min next_y (get_height (surface g) - next_y)) / SIZE in
    let utility := utility + min_wall_distance * 3 in
    let utility :=
      if decide (Some direction = previous_direction a) then utility + 2 else utility in
    let utility :=
      if decide (direction = Snake.direction (snake g)) then utility + 5 else utility in
    if decide (10 < Snake.length (snake g))%nat then
      tail_x ← getlast (Snake.x (snake g));
      tail_y ← getlast (Snake.y (snake g));
      let tail_distance := _calculate_manhattan_distance next_x next_y tail_x tail_y in
      Ok (if decide (tail_distance < 3) then utility - 20 else utility)
    else Ok utility.

(** The loop [for direction in directions[1:]] of [make_move]. *)
Fixpoint best_of (a : t) (g : Game) (ds : list Direction)
    (best_direction : Direction) (best_utility : Z) : result (Direction * Z) :=
  match ds with
  | [] => Ok (best_direction, best_utility)
  | direction :: rest =>
      utility ← calculate_utility a g direction;
      if decide (utility > best_utility) then best_of a g rest direction utility
      else best_of a g rest best_direction best_utility
  end.

(** [UtilityBasedAgent.make_move]; the chosen direction is left in
    [previous_direction]. *)
Definition make_move (a : t) (g : Game)
    : result (t * Game) :=
  let directions := candidates (Snake.direction (snake g)) in
  best_direction ← getitem directions 0;
  best_utility ← calculate_utility a g best_direction;
  '(best_direction, _) ← best_of a g (drop 1 directions) best_direction best_utility;
  Ok (mk (Some best_direction), ai.set_snake g (turn best_direction (snake g))).

End UtilityBasedAgent.

(** *** The learning agent *)

Module LearningAgent.

(** A state tuple: [(apple_dx, apple_dy, dangers, length_category,
    tail_distance_discrete, wall_distance_discrete)].  The last component is
    absent from the 5-tuples that [pretrain_q_table] stores. *)
Definition State : Type := Z * Z * (Z * Z * Z * Z) * Z * Z * option Z.

(** The objects a name can be bound to, as far as the agent tells them
    apart: a state tuple, an integer, or another object (a module, a class,
    an instance) known by its name. *)
Inductive value :=
| VState (s : State)
| VInt (z : Z)
| VObject (name : string).

#[global] Instance value_eq_dec : EqDecision value.
Proof. solve_decision. Defined.

#[global] Instance value_countable : Countable value.
Proof.
  refine (inj_countable'
            (λ v, match v with
                  | VState s => inl s
                  | VInt z => inr (inl z)
                  | VObject n => inr (inr n)
                  end)
            (λ e, match e with
                  | inl s => VState s
                  | inr (inl z) => VInt z
                  | inr (inr n) => VObject n
                  end) _).
  intros []; reflexivity.
Defined.

(** The names bound at module level by allagents.py itself: its imports,
    constants, classes and the [game] of the main block. *)
Definition module_globals : gmap string value :=
  list_to_map
    [("pygame", VObject "pygame"); ("time", VObject "time");
     ("random", VObject "random"); ("math", VObject "math");
     ("deque", VObject "deque"); ("np", VObject "np");
     ("SIZE", VInt 40); ("BACKGROUND_COLOR", VObject "BACKGROUND_COLOR");
     ("Apple", VObject "Apple"); ("Snake", VObject "Snake");
     ("Game", VObject "Game"); ("SimpleAgent", VObject "SimpleAgent");
     ("ModelBasedAgent", VObject "ModelBasedAgent");
     ("GoalBasedAgent", VObject "GoalBasedAgent");
     ("UtilityBasedAgent", VObject "UtilityBasedAgent");
     ("LearningAgent", VObject "LearningAgent"); ("game", VObject "game")]%string.

(** A name that is not local to a function is looked up in the module's
    globals, then in the names of [from pygame.locals import *] and in the
    builtins, here [outer]. *)
Definition load_global (outer : gmap string value) (name : string) : result value :=
  match module_globals !! name with
  | Some v => Ok v
  | None =>
      match outer !! name with
      | Some v => Ok v
      | None => Raise NameError
      end
  end.

(** [last] holds [last_state] and [last_action], which are set and cleared
    together. *)
Record t := mk {
  q_table : gmap (value * nat) Q;
  learning_rate : Q;
  discount_factor : Q;
  epsilon : Q;
  epsilon_decay : Q;
  min_epsilon : Q;
  last : option (State * nat);
  last_score : Z;
  episodes : Z
}.

(** The Q-value [pretrain_q_table] gives to an action. *)
Definition pretrained (apple_dx apple_dy : Z) (dangers : Z * Z * Z * Z) (action : nat)
    : Q :=
  let '(d0, d1, d2, d3) := dangers in
  let danger := match action with
                | 0%nat => d0 | 1%nat => d1 | 2%nat => d2 | _ => d3
                end in
  if decide (danger = 1) then (-100)%Q
  else if bool_decide ((action = 0%nat ∧ apple_dx < 0) ∨ (action = 1%nat ∧ apple_dx > 0)
                       ∨ (action = 2%nat ∧ apple_dy < 0) ∨ (action = 3%nat ∧ apple_dy > 0))
       then 10%Q
       else 0%Q.

Definition pretrain_q_table : gmap (value * nat) Q :=
  foldl (λ table (e : State * Z * Z * (Z * Z * Z * Z) * nat),
           let '(state, apple_dx, apple_dy, dangers, action) := e in
           <[(VState state, action) := pretrained apple_dx apple_dy dangers action]> table)
    ∅
    (apple_dx ← [-1; 0; 1];
     apple_dy ← [-1; 0; 1];
     dangers ← [(0, 0, 0, 0); (1, 0, 0, 0); (0, 1, 0, 0); (0, 0, 1, 0); (0, 0, 0, 1)];
     length_cat ← [0; 1; 2; 3];
     tail_dist ← [0; 1; 2; 3];
     action ← [0; 1; 2; 3]%nat;
     [((apple_dx, apple_dy, dangers, length_cat, tail_dist, None),
       apple_dx, apple_dy, dangers, action)]).

(** [LearningAgent.__init__] *)
Definition init : t :=
  mk pretrain_q_table (1 # 10) (95 # 100) (2 # 10) (99 # 100) (1 # 100)
    None 0 0.

Definition danger_bit (g : Game) (d : Direction) : result Z :=
  '(next_x, next_y) ← _get_potential_head g d;
  colliding ← _is_potential_move_colliding g next_x next_y;
  Ok (if colliding : bool then 1 else 0).

Definition sign_of (a b : Z) : Z :=
  if decide (a > b) then 1 else if decide (a < b) then -1 else 0.

Definition get_state (g : Game) : result State :=
  head_x ← getitem (Snake.x (snake g)) 0;
  head_y ← getitem (Snake.y (snake g)) 0;
  tail_x ← getlast (Snake.x (snake g));
  tail_y ← getlast (Snake.y (snake g));
  let apple_dx := sign_of (apple_x g) head_x in
  let apple_dy := sign_of (apple_y g) head_y in
  let tail_distance := _calculate_manhattan_distance head_x head_y tail_x tail_y in
  let tail_distance_discrete := Z.min (tail_distance / SIZE) 3 in
  let wall_distance :=
    Z.min (Z.min head_x (get_width (surface g) - head_x))
          (Z.min head_y (get_height (surface g) - head_y)) / SIZE in
  let wall_distance_discrete := Z.min wall_distance 3 in
  d_left ← danger_bit g left;
  d_right ← danger_bit g right;
  d_up ← danger_bit g up;
  d_down ← danger_bit g down;
  let length_category := Z.min (Z.of_nat (Snake.length (snake g)) / 5) 3 in
  Ok (apple_dx, apple_dy, (d_left, d_right, d_up, d_down), length_category,
      tail_distance_discrete, Some wall_distance_discrete).

Definition get_q_value (a : t) (state : value) (action : nat) : Q :=
  default 0%Q (q_table a !! (state, action)).

(** The actions [[0, 1, 2, 3]] without the reverse of the heading. *)
Definition allowed_actions (heading : Direction) : list nat :=
  match heading with
  | left => list_remove 1%nat [0; 1; 2; 3]%nat
  | right => list_remove 0%nat [0; 1; 2; 3]%nat
  | up => list_remove 3%nat [0; 1; 2; 3]%nat
  | down => list_remove 2%nat [0; 1; 2; 3]%nat
  end.

Definition get_best_action (a : t) (g : Game) (state : State) : nat :=
  match allowed_actions (Snake.direction (snake g)) with
  | [] => 0%nat
  | first :: rest =>
      fst (foldl (λ (best : nat * Q) action,
                    let q_value := get_q_value a (VState state) action in
                    if Qltb (snd best) q_value then (action, q_value) else best)
                 (first, get_q_value a (VState state) first) rest)
  end.

(** The random draws of one call: [random.random()] and the index
    [random.choice] picks. *)
Record Draw := mkDraw { random : Q; choice : nat }.

Definition choose_action (rnd : Draw) (a : t) (g : Game) (state : State)
    : nat :=
  if Qltb (random rnd) (epsilon a) then
    let actions := allowed_actions (Snake.direction (snake g)) in
    default 0%nat (actions !! (choice rnd `mod` length actions)%nat)
  else get_best_action a g state.

Definition set_last_score (a : t) (score : Z) : t :=
  mk (q_table a) (learning_rate a) (discount_factor a) (epsilon a)
    (epsilon_decay a) (min_epsilon a) (last a) score (episodes a).

Definition get_reward (a : t) (g : Game) : result (Q * t) :=
  let current_score := Z.of_nat (Snake.length (snake g)) - 1 in
  let reward := (-1)%Q in
  let reward := if decide (current_score > last_score a) then 100%Q else reward in
  head_x ← getitem (Snake.x (snake g)) 0;
  head_y ← getitem (Snake.y (snake g)) 0;
  let distance := _calculate_manhattan_distance head_x head_y (apple_x g) (apple_y g) in
  let reward := (reward + pymax 0 (2 - inject_Z distance * (1 # 2)))%Q in
  let min_wall_distance :=
    Z.min (Z.min head_x (get_width (surface g) - head_x))
          (Z.min head_y (get_height (surface g) - head_y)) / SIZE in
  let reward := if decide (min_wall_distance < 2) then (reward - 5)%Q else reward in
  reward ←
    (if decide (5 < Snake.length (snake g))%nat then
       tail_x ← getlast (Snake.x (snake g));
       tail_y ← getlast (Snake.y (snake g));
       let tail_distance := _calculate_manhattan_distance head_x head_y tail_x tail_y in
       Ok (if decide (tail_distance < 3) then (reward - 5)%Q else reward)
     else Ok reward);
  Ok (reward, set_last_score a current_score).

Definition set_q_table (a : t) (table : gmap (value * nat) Q) : t :=
  mk table (learning_rate a) (discount_factor a) (epsilon a)
    (epsilon_decay a) (min_epsilon a) (last a) (last_score a) (episodes a).

(** [update_q_table]: the parameters and the three values it computes are
    its only local names, so the [state] of its last line is a global load. *)
Definition update_q_table (outer : gmap string value) (a : t)
    (old_state : State) (action : nat) (reward : Q) (new_state : State)
    : result t :=
  let old_q_value := get_q_value a (VState old_state) action in
  let future_q_value :=
    pymax_list 0 (get_q_value a (VState new_state) <$> [0; 1; 2; 3]%nat) in
  let new_q_value :=
    (old_q_value
     + learning_rate a * (reward + discount_factor a * future_q_value - old_q_value))%Q in
  state ← load_global outer "state";
  Ok (set_q_table a (<[(state, action) := new_q_value]> (q_table a))).

(** The loop [for safe_direction in actions] of [make_move]. *)
Fixpoint first_safe (g : Game) (ds : list Direction) : result Game :=
  match ds with
  | [] => Ok g
  | safe_direction :: rest =>
      '(next_x, next_y) ← _get_potential_head g safe_direction;
      colliding ← _is_potential_move_colliding g next_x next_y;
      if colliding : bool then first_safe g rest
      else Ok (ai.set_snake g (turn safe_direction (snake g)))
  end.

Definition finish_move (a : t) (current_state : State) (action : nat)
    : t :=
  mk (q_table a) (learning_rate a) (discount_factor a)
    (pymax (min_epsilon a) (epsilon a * epsilon_decay a)%Q)
    (epsilon_decay a) (min_epsilon a) (Some (current_state, action))
    (last_score a) (episodes a).

(** [LearningAgent.make_move] *)
Definition make_move (outer : gmap string value) (rnd : Draw) (a : t)
    (g : Game) : result (t * Game) :=
  current_state ← get_state g;
  let action := choose_action rnd a g current_state in
  a ←
    match last a with
    | Some (ls, la) =>
        '(reward, a) ← get_reward a g;
        update_q_table outer a ls la reward current_state
    | None => Ok a
    end;
  direction ← getitem [left; right; up; down] action;
  '(next_x, next_y) ← _get_potential_head g direction;
  colliding ← _is_potential_move_colliding g next_x next_y;
  '(a, g) ←
    (if colliding : bool then
       a ← match last a with
           | Some (ls, la) => update_q_table outer a ls la (-50) current_state
           | None => Ok a
           end;
       g ← first_safe g [left; right; up; down];
       Ok (a, g)
     else Ok (a, ai.set_snake g (turn direction (snake g))));
  Ok (finish_move a current_state action, g).

End LearningAgent.

End allagents.

(** ** The update rule in the words of the specification *)

(** [Q(s,a) + alpha * (target - Q(s,a))] *)
Definition q_step (alpha q target : Q) : Q := (q + alpha * (target - q))%Q.

(** The target: [r] on a terminal transition, [r + gamma * max_a' Q(s',a')]
    otherwise. *)
Definition q_target (gamma r : Q) (terminal : bool) (max_next : Q) : Q :=
  if terminal then r else (r + gamma * max_next)%Q.

(** An action of simplereflex.py is legal from a state when it does not
    reverse the heading and its danger flag is off. *)
Definition legal (s : simplereflex.State) (a : Direction) : bool :=
  let '(_, _, _, _, danger_left, danger_right, danger_up, danger_down, heading) := s in
  bool_decide (a ≠ opposite heading)
  && negb (match a with
           | left => danger_left
           | right => danger_right
           | up => danger_up
           | down => danger_down
           end).

(** ** Floats that may be infinite

    [float('inf')], [-float('inf')] and the not-a-number that their
    difference is; the finite floats are read as rationals. *)
Inductive xfloat := NegInf | Fin (q : Q) | PosInf | NaN.

Definition xadd (a b : xfloat) : xfloat :=
  match a, b with
  | NaN, _ | _, NaN => NaN
  | Fin p, Fin q => Fin (p + q)
  | PosInf, NegInf | NegInf, PosInf => NaN
  | PosInf, _ | _, PosInf => PosInf
  | NegInf, _ | _, NegInf => NegInf
  end.

(** [a * w] for a finite [w]. *)
Definition xscale (a : xfloat) (w : Q) : xfloat :=
  match a with
  | Fin p => Fin (p * w)
  | NaN => NaN
  | PosInf => if Qltb 0 w then PosInf else if Qltb w 0 then NegInf else NaN
  | NegInf => if Qltb 0 w then NegInf else if Qltb w 0 then PosInf else NaN
  end.

(** [a > b]; every comparison with a not-a-number is false. *)
Definition xgt (a b : xfloat) : bool :=
  match a, b with
  | NaN, _ | _, NaN => false
  | NegInf, _ | _, PosInf => false
  | Fin p, Fin q => Qltb q p
  | Fin _, NegInf | PosInf, _ => true
  end.

(** A float above [-float('inf')]: finite or [float('inf')]. *)
Definition above (u : xfloat) : Prop :=
  match u with
  | Fin _ | PosInf => True
  | NegInf | NaN => False
  end.

(** ** reflexagent.py: the utility agent and its searches *)

Module reflexagent.

Definition max_iterations : nat := 100.

Definition directions : list (Z * Z) := [(SIZE, 0); (- SIZE, 0); (0, SIZE); (0, - SIZE)].

(** The loop [for dx, dy in directions] of [_bfs_accessible_spaces]. *)
Fixpoint visit (g : Game) (x y : Z) (deltas : list (Z * Z)) (queue : list cell)
    (visited : gset cell) : result (list cell * gset cell) :=
  match deltas with
  | [] => Ok (queue, visited)
  | (dx, dy) :: rest =>
      let next_x := x + dx in
      let next_y := y + dy in
      if negb (on_screen g next_x next_y) then visit g x y rest queue visited
      else if decide ((next_x, next_y) ∈ visited) then visit g x y rest queue visited
      else
        blocked ← occupies (snake g) next_x next_y (range 1 (Snake.length (snake g)));
        if blocked : bool then visit g x y rest queue visited
        else
          visit g x y rest (queue ++ [(next_x, next_y)]) ({[(next_x, next_y)]} ∪ visited)
  end.

(** The loop [while queue and accessible_count < max_iterations]. *)
Fixpoint accessible_loop (fuel : nat) (g : Game) (queue : list cell)
    (visited : gset cell) (accessible_count : nat) : result nat :=
  match fuel with
  | O => OutOfFuel
  | S fuel' =>
      match queue with
      | [] => Ok accessible_count
      | (x, y) :: queue' =>
          if decide (max_iterations ≤ accessible_count)%nat then Ok accessible_count
          else
            '(queue2, visited2) ← visit g x y directions queue' visited;
            accessible_loop fuel' g queue2 visited2 (S accessible_count)
      end
  end.

Definition _bfs_accessible_spaces (fuel : nat) (g : Game) (start_x start_y : Z)
    : result nat :=
  accessible_loop fuel g [(start_x, start_y)] {[(start_x, start_y)]} 0.

(** The loop [for dx, dy in directions] of [_bfs_shortest_path]; [inl n] is
    the [return n] from inside the loop. *)
Fixpoint probe (g : Game) (target : cell) (x y : Z) (dist : nat) (deltas : list (Z * Z))
    (queue : list (Z * Z * nat)) (visited : gset cell)
    : result (nat + list (Z * Z * nat) * gset cell) :=
  match deltas with
  | [] => Ok (inr (queue, visited))
  | (dx, dy) :: rest =>
      let next_x := x + dx in
      let next_y := y + dy in
      if decide (next_x = target.1 ∧ next_y = target.2) then Ok (inl (dist + 1)%nat)
      else if negb (on_screen g next_x next_y) then
        probe g target x y dist rest queue visited
      else if decide ((next_x, next_y) ∈ visited) then
        probe g target x y dist rest queue visited
      else
        blocked ← occupies (snake g) next_x next_y (range 1 (Snake.length (snake g)));
        if blocked : bool then probe g target x y dist rest queue visited
        else
          probe g target x y dist rest (queue ++ [(next_x, next_y, (dist + 1)%nat)])
            ({[(next_x, next_y)]} ∪ visited)
  end.

(** The loop [while queue and iterations < max_iterations] of
    [_bfs_shortest_path], where [max_iterations = 200]. *)
Fixpoint shortest_loop (fuel : nat) (g : Game) (target : cell)
    (queue : list (Z * Z * nat)) (visited : gset cell) (iterations : nat)
    : result (option nat) :=
  match fuel with
  | O => OutOfFuel
  | S fuel' =>
      match queue with
      | [] => Ok None
      | (x, y, dist) :: queue' =>
          if decide (200 ≤ iterations)%nat then Ok None
          else
            r ← probe g target x y dist directions queue' visited;
            match r with
            | inl n => Ok (Some n)
            | inr (queue2, visited2) =>
                shortest_loop fuel' g target queue2 visited2 (S iterations)
            end
      end
  end.

Definition _bfs_shortest_path (fuel : nat) (g : Game) (start_x start_y target_x target_y : Z)
    : result (option nat) :=
  if decide (start_x = target_x ∧ start_y = target_y) then Ok (Some 0%nat)
  else
    shortest_loop fuel g (target_x, target_y) [(start_x, start_y, 0%nat)]
      {[(start_x, start_y)]} 0.

(** The dictionary [goals]: [_determine_goals] sets its four keys, so every
    test [key in goals] of [_evaluate_action_utility] holds. *)
Record Goals := mkGoals {
  reach_apple : Q;
  avoid_death : Q;
  maintain_space : Q;
  efficient_movement : Q
}.

Definition _determine_goals (g : Game) : result Goals :=
  let goals := mkGoals 1 (8 # 10) (6 # 10) (3 # 10) in
  head_x ← getitem (Snake.x (snake g)) 0;
  head_y ← getitem (Snake.y (snake g)) 0;
  let goals :=
    if decide (10 < Snake.length (snake g))%nat then
      mkGoals (reach_apple goals) (9 # 10) (7 # 10) (efficient_movement goals)
    else goals in
  let min_wall_distance :=
    Z.min (Z.min head_x (get_width (surface g) - head_x - SIZE))
          (Z.min head_y (get_height (surface g) - head_y - SIZE)) in
  Ok (if decide (min_wall_distance < SIZE * 3) then
        mkGoals (reach_apple goals) 1 (8 # 10) (efficient_movement goals)
      else goals).

Definition _execute_action (action : Direction) (g : Game) : Game :=
  ai.set_snake g (turn action (snake g)).

(** The loop of the emergency fallback of [utility_agent]. *)
Fixpoint fallback (g : Game) (actions : list Direction) : result Game :=
  match actions with
  | [] => Ok g
  | action :: rest =>
      '(next_x, next_y) ← _get_potential_head g action;
      colliding ← _is_potential_move_colliding g next_x next_y;
      if colliding : bool then fallback g rest else Ok (_execute_action action g)
  end.

Section utility.

(** [math.sqrt] on the integer argument it receives. *)
Variable math_sqrt : Z → Q.

Definition _calculate_apple_utility (fuel : nat) (g : Game) (next_x next_y : Z)
    : result Q :=
  path_length ← _bfs_shortest_path fuel g next_x next_y (apple_x g) (apple_y g);
  match path_length with
  | None => Ok (-1000)%Q
  | Some n =>
      let base_utility := (1000 / inject_Z (Z.of_nat n + 1))%Q in
      head_x ← getitem (Snake.x (snake g)) 0;
      head_y ← getitem (Snake.y (snake g)) 0;
      let current_distance :=
        ai._calculate_distance math_sqrt head_x head_y (apple_x g) (apple_y g) in
      let new_distance :=
        ai._calculate_distance math_sqrt next_x next_y (apple_x g) (apple_y g) in
      Ok (if Qltb new_distance current_distance then base_utility + 100
          else base_utility)%Q
  end.

(** The loop over the body is the one of [_utility_score] in ai.py. *)
Definition _calculate_safety_utility (g : Game) (next_x next_y : Z) : result xfloat :=
  let utility := 0%Q in
  let min_wall_distance :=
    Z.min (Z.min next_x (get_width (surface g) - next_x - SIZE))
          (Z.min next_y (get_height (surface g) - next_y - SIZE)) in
  let utility := (utility + inject_Z min_wall_distance * (1 # 10))%Q in
  let utility :=
    if decide (min_wall_distance < SIZE * 2) then (utility - 200)%Q else utility in
  mbd ← ai.min_body_distance math_sqrt (snake g) next_x next_y
           (range 1 (Snake.length (snake g))) None;
  let min_body_distance :=
    match mbd with
    | Some m => Fin m
    | None => PosInf
    end in
  Ok (if xgt (Fin (inject_Z (SIZE * 2))) min_body_distance then Fin (utility - 300)
      else xadd (Fin utility) (xscale min_body_distance (5 # 100))).

Definition _calculate_space_utility (fuel : nat) (g : Game) (next_x next_y : Z)
    : result Z :=
  accessible_spaces ← _bfs_accessible_spaces fuel g next_x next_y;
  Ok (Z.of_nat accessible_spaces * 2).

Definition _calculate_efficiency_utility (g : Game) (action : Direction) : result Z :=
  let utility := 0 in
  let utility :=
    if decide (action = Snake.direction (snake g)) then utility + 10 else utility in
  head_x ← getitem (Snake.x (snake g)) 0;
  head_y ← getitem (Snake.y (snake g)) 0;
  let current_manhattan := Z.abs (head_x - apple_x g) + Z.abs (head_y - apple_y g) in
  '(next_x, next_y) ← _get_potential_head g action;
  let new_manhattan := Z.abs (next_x - apple_x g) + Z.abs (next_y - apple_y g) in
  Ok (if decide (new_manhattan < current_manhattan) then utility + 20 else utility).

Definition _evaluate_action_utility (fuel : nat) (g : Game) (action : Direction)
    (goals : Goals) : result xfloat :=
  '(next_x, next_y) ← _get_potential_head g action;
  colliding ← _is_potential_move_colliding g next_x next_y;
  if colliding : bool then Ok NegInf
  else
    let total_utility := Fin 0 in
    apple_utility ← _calculate_apple_utility fuel g next_x next_y;
    let total_utility := xadd total_utility (Fin (apple_utility * reach_apple goals)) in
    safety_utility ← _calculate_safety_utility g next_x next_y;
    let total_utility := xadd total_utility (xscale safety_utility (avoid_death goals)) in
    space_utility ← _calculate_space_utility fuel g next_x next_y;
    let total_utility :=
      xadd total_utility (Fin (inject_Z space_utility * maintain_space goals)) in
    efficiency_utility ← _calculate_efficiency_utility g action;
    let total_utility :=
      xadd total_utility (Fin (inject_Z efficiency_utility * efficient_movement goals)) in
    Ok total_utility.

(** The loop [for action in valid_actions] of [utility_agent]. *)
Fixpoint evaluate_all (fuel : nat) (g : Game) (goals : Goals) (valid_actions : list Direction)
    (best_action : option Direction) (best_utility : xfloat)
    : result (option Direction * xfloat) :=
  match valid_actions with
  | [] => Ok (best_action, best_utility)
  | action :: rest =>
      utility ← _evaluate_action_utility fuel g action goals;
      if xgt utility best_utility then evaluate_all fuel g goals rest (Some action) utility
      else evaluate_all fuel g goals rest best_action best_utility
  end.

Definition utility_agent (fuel : nat) (g : Game) : result Game :=
  let actions := [left; right; up; down] in
  goals ← _determine_goals g;
  let valid_actions :=
    filter (λ action, action ≠ opposite (Snake.direction (snake g))) actions in
  '(best_action, _) ← evaluate_all fuel g goals valid_actions None NegInf;
  match best_action with
  | Some action => Ok (_execute_action action g)
  | None => fallback g actions
  end.

End utility.

End reflexagent.

(** ** The apple and one step of the game *)

(** [Game.check_wall_collision] of ai.py. *)
Definition check_wall_collision (g : Game) : result bool :=
  head_x ← getitem (Snake.x (snake g)) 0;
  head_y ← getitem (Snake.y (snake g)) 0;
  if bool_decide (head_x < 0 ∨ head_x >= get_width (surface g)) then Ok true
  else if bool_decide (head_y < 0 ∨ head_y >= get_height (surface g)) then Ok true
  else Ok false.

(** Class [Apple] of ai.py, learning.py, simplereflex.py and reflexagent.py:
    the apple walks through two fixed lists of coordinates. *)
Module Apple.

Record t := mk { x : Z; y : Z; count : nat }.

Definition x_list : list Z :=
  [320; 160; 680; 280; 400; 240; 960; 80; 40; 760; 720; 880; 400; 680; 480; 480; 520;
   160; 760; 480; 720; 360; 960; 160; 80; 400; 760; 680; 760; 800].

Definition y_list : list Z :=
  [560; 40; 440; 280; 240; 560; 80; 200; 240; 80; 80; 520; 720; 360; 680; 760; 680;
   320; 80; 360; 720; 120; 280; 280; 320; 680; 320; 40; 520; 600].

(** [Apple.__init__] *)
Definition init : t := mk 120 120 0.

(** [Apple.move] *)
Definition move (a : t) : result t :=
  x' ← getitem x_list (count a);
  y' ← getitem y_list (count a);
  Ok (mk x' y' ((count a + 1) mod length x_list)%nat).

End Apple.

(** The step [Game.play] of ai.py and the two simple agents of that file. *)
Module ai_game.

(** The fields that [play] reads and writes: the snake, the apple with its
    counter, the surface and [game_speed]. *)
Record World := mkWorld {
  game : Game;
  apple_count : nat;
  game_speed : Q
}.

(** [Game.__init__] *)
Definition init : World :=
  mkWorld (mkGame Snake.init (Apple.x Apple.init) (Apple.y Apple.init) display)
    (Apple.count Apple.init) (30 # 100).

(** How [play] ends: it returns, or it raises [Exception(message)]. *)
Inductive played :=
| Continues (w : World)
| GameOver (message : string).

Definition play (w : World) : result played :=
  let g := game w in
  s ← Snake.walk (snake g);
  x0 ← getitem (Snake.x s) 0;
  y0 ← getitem (Snake.y s) 0;
  w ←
    (if is_collision x0 y0 (apple_x g) (apple_y g) then
       let s := Snake.increase_length s in
       let game_speed :=
         if decide (Snake.length s mod 5 = 0)%nat
         then pymax (5 # 100) (game_speed w - (4 # 100))
         else game_speed w in
       a ← Apple.move (Apple.mk (apple_x g) (apple_y g) (apple_count w));
       Ok (mkWorld (mkGame s (Apple.x a) (Apple.y a) (surface g)) (Apple.count a)
             game_speed)
     else Ok (mkWorld (ai.set_snake g s) (apple_count w) (game_speed w)));
  collided ← self_collision (snake (game w));
  if collided : bool then Ok (GameOver "Collision Occurred")
  else
    wall ← check_wall_collision (game w);
    if wall : bool then Ok (GameOver "Wall Collision!") else Ok (Continues w).

(** [Game.agent_bikram] *)
Definition agent_bikram (g : Game) : result Game :=
  head_x ← getitem (Snake.x (snake g)) 0;
  head_y ← getitem (Snake.y (snake g)) 0;
  if decide (head_x - apple_x g = 0) then
    if decide (head_y - apple_y g >= 0) then Ok (ai.set_snake g (Snake.move_up (snake g)))
    else Ok (ai.set_snake g (Snake.move_down (snake g)))
  else if decide (head_x - apple_x g >= 0) then
    Ok (ai.set_snake g (Snake.move_left (snake g)))
  else if decide (head_x - apple_x g <= 0) then
    Ok (ai.set_snake g (Snake.move_right (snake g)))
  else Ok g.

End ai_game.

(** ** learning.py: the game the Q-learning agent plays *)

(** [np.argmax] on a list of floats: the first index of a greatest entry
    (0 stands for the empty list, on which numpy raises). *)
Fixpoint argmax_from (i best_i : nat) (best : xfloat) (l : list xfloat) : nat :=
  match l with
  | [] => best_i
  | v :: rest =>
      if xgt v best then argmax_from (S i) i v rest
      else argmax_from (S i) best_i best rest
  end.

Definition argmax (l : list xfloat) : nat :=
  match l with
  | [] => 0%nat
  | v :: rest => argmax_from 1 0 v rest
  end.

Module learning_game.

(** [Game.self_collision(head_x, head_y)] of learning.py: the scan covers
    the segments 1 .. length - 2; the test on the last segment is evaluated
    and its outcome dropped. *)
Definition self_collision (s : Snake.t) (head_x head_y : Z) : result bool :=
  hit ← hits_body s head_x head_y (range 1 (Snake.length s - 1));
  if hit : bool then Ok true
  else if decide (1 < Snake.length s)%nat then
    xt ← getitem (Snake.x s) (Snake.length s - 1);
    yt ← getitem (Snake.y s) (Snake.length s - 1);
    Ok false
  else Ok false.

(** [Game.check_wall_collision(head_x, head_y)] of learning.py. *)
Definition check_wall_collision (g : Game) (head_x head_y : Z) : bool :=
  if bool_decide (head_x < 0 ∨ head_x >= get_width (surface g)) then true
  else if bool_decide (head_y < 0 ∨ head_y >= get_height (surface g)) then true
  else false.

(** [Game._is_potential_move_colliding] of learning.py, with its flag
    [exclude_tail]. *)
Definition _is_potential_move_colliding (g : Game) (next_head_x next_head_y : Z)
    (exclude_tail : bool) : result bool :=
  if negb (on_screen g next_head_x next_head_y) then Ok true
  else
    let start_segment := 1%nat in
    let end_segment := Snake.length (snake g) in
    let end_segment :=
      if exclude_tail && bool_decide (1 < Snake.length (snake g))%nat
      then (end_segment - 1)%nat else end_segment in
    hits_body (snake g) next_head_x next_head_y (range start_segment end_segment).

(** The fields [play] reads and writes. *)
Record World := mkWorld {
  game : Game;
  apple_count : nat;
  game_speed : Q;
  training_mode : bool
}.

(** How [play] ends: it returns, or it raises [Exception(message)]. *)
Inductive played :=
| Continues (w : World)
| GameOver (message : string).

(** [Game.play] of learning.py. *)
Definition play (w : World) : result played :=
  let g := game w in
  s ← Snake.walk (snake g);
  x0 ← getitem (Snake.x s) 0;
  y0 ← getitem (Snake.y s) 0;
  w ←
    (if is_collision x0 y0 (apple_x g) (apple_y g) then
       let s := Snake.increase_length s in
       let game_speed :=
         if negb (training_mode w) then
           if decide (Snake.length s mod 5 = 0)%nat
           then pymax (5 # 100) (game_speed w - (4 # 100))
           else game_speed w
         else game_speed w in
       if negb (training_mode w) then
         a ← Apple.move (Apple.mk (apple_x g) (apple_y g) (apple_count w));
         Ok (mkWorld (mkGame s (Apple.x a) (Apple.y a) (surface g)) (Apple.count a)
               game_speed (training_mode w))
       else
         Ok (mkWorld (ai.set_snake g s) (apple_count w) game_speed (training_mode w))
     else
       Ok (mkWorld (ai.set_snake g s) (apple_count w) (game_speed w) (training_mode w)));
  head_x ← getitem (Snake.x (snake (game w))) 0;
  head_y ← getitem (Snake.y (snake (game w))) 0;
  collided ← self_collision (snake (game w)) head_x head_y;
  if collided : bool then Ok (GameOver "Collision Occurred")
  else
    head_x ← getitem (Snake.x (snake (game w))) 0;
    head_y ← getitem (Snake.y (snake (game w))) 0;
    if check_wall_collision (game w) head_x head_y then Ok (GameOver "Collision Occurred")
    else Ok (Continues w).

(** The danger bit of [get_state] for one cell. *)
Definition danger (g : Game) (x y : Z) : result Z :=
  colliding ← _is_potential_move_colliding g x y true;
  Ok (if colliding : bool then 1 else 0).

(** The dictionary [direction_map]. *)
Definition direction_map (d : Direction) : Z :=
  match d with
  | up => 0
  | down => 1
  | left => 2
  | right => 3
  end.

(** [QLearningAgent.get_state] *)
Definition get_state (g : Game) : result learning.State :=
  snake_head_x ← getitem (Snake.x (snake g)) 0;
  snake_head_y ← getitem (Snake.y (snake g)) 0;
  let apple_relative_x := (apple_x g - snake_head_x) / SIZE in
  let apple_relative_y := (apple_y g - snake_head_y) / SIZE in
  let apple_rel_x_disc :=
    if decide (apple_relative_x > 0) then 1
    else if decide (apple_relative_x < 0) then -1 else 0 in
  let apple_rel_y_disc :=
    if decide (apple_relative_y > 0) then 1
    else if decide (apple_relative_y < 0) then -1 else 0 in
  danger_up ← danger g snake_head_x (snake_head_y - SIZE);
  danger_down ← danger g snake_head_x (snake_head_y + SIZE);
  danger_left ← danger g (snake_head_x - SIZE) snake_head_y;
  danger_right ← danger g (snake_head_x + SIZE) snake_head_y;
  let dangers := (danger_up, danger_down, danger_left, danger_right) in
  let current_direction := direction_map (Snake.direction (snake g)) in
  Ok (apple_rel_x_disc, apple_rel_y_disc, dangers, current_direction).

(** The loop of [get_valid_actions], entered at index [i]. *)
Fixpoint valid_loop (g : Game) (i : nat) (names : list Direction) : result (list nat) :=
  match names with
  | [] => Ok []
  | action_name :: rest =>
      if decide (action_name = opposite (Snake.direction (snake g))) then
        valid_loop g (S i) rest
      else
        '(next_x, next_y) ← _get_potential_head g action_name;
        colliding ← _is_potential_move_colliding g next_x next_y true;
        valid ← valid_loop g (S i) rest;
        Ok (if colliding : bool then valid else i :: valid)
  end.

(** [QLearningAgent.get_valid_actions] *)
Definition get_valid_actions (g : Game) : result (list nat) :=
  valid_actions ← valid_loop g 0 learning.actions;
  match valid_actions with
  | [] => Ok (seq 0 learning.n_actions)
  | _ => Ok valid_actions
  end.

(** [QLearningAgent.execute_action] *)
Definition execute_action (g : Game) (action : nat) : result Game :=
  action_name ← getitem learning.actions action;
  Ok (ai.set_snake g (turn action_name (snake g))).

(** The random draws of one call of [get_action]: [random.random()], the
    index [random.choice] picks and the value of [random.randint]. *)
Record Draw := mkDraw { random : Q; choice : nat; randint : nat }.

(** The loop [for i in valid_actions_indices] of [get_action]. *)
Fixpoint fill (row : list Q) (idx : list nat) (q_values : list xfloat)
    : result (list xfloat) :=
  match idx with
  | [] => Ok q_values
  | i :: rest =>
      v ← getitem row i;
      q_values ← setitem q_values i (Fin v);
      fill row rest q_values
  end.

(** [QLearningAgent.get_action] *)
Definition get_action (rnd : Draw) (a : learning.QLearningAgent) (g : Game)
    (state : learning.State) : result (nat * learning.QLearningAgent) :=
  valid_actions_indices ← get_valid_actions g;
  if Qltb (random rnd) (learning.epsilon a) then
    match valid_actions_indices with
    | [] => Ok ((randint rnd mod learning.n_actions)%nat, a)
    | _ =>
        action ← getitem valid_actions_indices
                   (choice rnd mod length valid_actions_indices)%nat;
        Ok (action, a)
    end
  else
    let table := learning.ensure_row (learning.q_table a) state in
    row ← learning.row_of table state;
    q_values_for_valid_actions ←
      fill row valid_actions_indices (replicate learning.n_actions NegInf);
    Ok (argmax q_values_for_valid_actions, learning.set_q_table a table).

End learning_game.

(** ** allagents.py: the simple agent *)

Module SimpleAgent.

(** The loop that builds [safe_directions]. *)
Fixpoint safe_loop (g : Game) (directions : list Direction) : result (list Direction) :=
  match directions with
  | [] => Ok []
  | direction :: rest =>
      '(next_x, next_y) ← _get_potential_head g direction;
      colliding ← _is_potential_move_colliding g next_x next_y;
      safe_directions ← safe_loop g rest;
      Ok (if colliding : bool then safe_directions else direction :: safe_directions)
  end.

(** The scoring loop; [None] is the initial [-float('inf')].
    [count_escape_routes] is the method of the same name and body of
    [UtilityBasedAgent]. *)
Fixpoint best_loop (g : Game) (safe_directions : list Direction)
    (best_direction : Direction) (best_score : option Z) : result Direction :=
  match safe_directions with
  | [] => Ok best_direction
  | direction :: rest =>
      '(next_x, next_y) ← _get_potential_head g direction;
      let distance :=
        allagents._calculate_manhattan_distance next_x next_y (apple_x g) (apple_y g) in
      escape_routes ← allagents.UtilityBasedAgent.count_escape_routes g next_x next_y;
      let score := - distance + escape_routes * 2 in
      let score :=
        if decide (direction = Snake.direction (snake g)) then score + 1 else score in
      if match best_score with
         | None => true
         | Some b => bool_decide (score > b)
         end
      then best_loop g rest direction (Some score)
      else best_loop g rest best_direction best_score
  end.

(** [SimpleAgent.make_move] *)
Definition make_move (g : Game) : result Game :=
  head_x ← getitem (Snake.x (snake g)) 0;
  head_y ← getitem (Snake.y (snake g)) 0;
  let directions := allagents.candidates (Snake.direction (snake g)) in
  safe_directions ← safe_loop g directions;
  match safe_directions with
  | [] => Ok g
  | first :: _ =>
      best_direction ← best_loop g safe_directions first None;
      Ok (ai.set_snake g (turn best_direction (snake g)))
  end.

End SimpleAgent.

(** ** simplereflex.py: the vertical agent *)

Module vertical.

(** [_get_potential_head] followed by [_is_potential_move_colliding]. *)
Definition colliding_towards (g : Game) (d : Direction) : result bool :=
  '(next_x, next_y) ← _get_potential_head g d;
  _is_potential_move_colliding g next_x next_y.

Definition move (d : Direction) (g : Game) : Game := ai.set_snake g (turn d (snake g)).

(** The two branches that try [first] and then [right]. *)
Definition first_or_right (g : Game) (first : Direction) : result Game :=
  colliding ← colliding_towards g first;
  if negb colliding then Ok (move first g)
  else
    colliding ← colliding_towards g right;
    if negb colliding then Ok (move right g) else Ok g.

(** The two branches that try [first], then [up], then [down]. *)
Definition first_or_vertical (g : Game) (first : Direction) : result Game :=
  colliding ← colliding_towards g first;
  if negb colliding then Ok (move first g)
  else
    '(next_x_up, next_y_up) ← _get_potential_head g up;
    '(next_x_down, next_y_down) ← _get_potential_head g down;
    colliding_up ← _is_potential_move_colliding g next_x_up next_y_up;
    if negb colliding_up then Ok (move up g)
    else
      colliding_down ← _is_potential_move_colliding g next_x_down next_y_down;
      if negb colliding_down then Ok (move down g) else Ok g.

(** [Game.vertical_agent] *)
Definition vertical_agent (g : Game) : result Game :=
  head_y ← getitem (Snake.y (snake g)) 0;
  if decide (head_y < apple_y g) then first_or_right g down
  else if decide (head_y > apple_y g) then first_or_right g up
  else
    head_x ← getitem (Snake.x (snake g)) 0;
    if decide (head_x < apple_x g) then first_or_vertical g right
    else if decide (head_x > apple_x g) then first_or_vertical g left
    else Ok g.

End vertical.

(** ** Replayed updates *)



(** * Part II: proofs *)

(** ** The walk *)

Lemma shift_spec i : ∀ xs ys : list Z,
  (i < length xs)%nat → (i < length ys)%nat →
  ∃ xs' ys', Snake.shift i xs ys = Ok (xs', ys')
    ∧ length xs' = length xs ∧ length ys' = length ys
    ∧ xs' !! 0%nat = xs !! 0%nat ∧ ys' !! 0%nat = ys !! 0%nat
    ∧ (∀ k, (0 < k ≤ i)%nat → xs' !! k = xs !! (k - 1)%nat ∧ ys' !! k = ys !! (k - 1)%nat)
    ∧ (∀ k, (i < k)%nat → xs' !! k = xs !! k ∧ ys' !! k = ys !! k).
Proof.
  induction i as [|j IH]; intros xs ys Hx Hy.
  - exists xs, ys. repeat split; auto; lia.
  - destruct (lookup_lt_is_Some_2 xs j) as [xv Hxv]; [lia|].
    destruct (lookup_lt_is_Some_2 ys j) as [yv Hyv]; [lia|].
    simpl. unfold getitem, setitem. rewrite Hxv. simpl.
    destruct (decide (S j < length xs)%nat); [|lia]. simpl.
    rewrite Hyv. simpl.
    destruct (decide (S j < length ys)%nat); [|lia]. simpl.
    destruct (IH (<[S j:=xv]> xs) (<[S j:=yv]> ys))
      as (xs' & ys' & He & Hlx & Hly & Hx0 & Hy0 & Hlo & Hhi).
    { rewrite length_insert. lia. }
    { rewrite length_insert. lia. }
    exists xs', ys'. rewrite He. rewrite !length_insert in *.
    split; [done|]. split; [done|]. split; [done|].
    split. { rewrite Hx0. by rewrite list_lookup_insert_ne. }
    split. { rewrite Hy0. by rewrite list_lookup_insert_ne. }
    split.
    + intros k Hk. destruct (decide (k = S j)) as [->|Hne].
      * destruct (Hhi (S j)) as [-> ->]; [lia|].
        rewrite !list_lookup_insert_eq by lia.
        replace (S j - 1)%nat with j by lia. done.
      * destruct (Hlo k) as [-> ->]; [lia|].
        rewrite !list_lookup_insert_ne by lia. done.
    + intros k Hk. destruct (Hhi k) as [-> ->]; [lia|].
      rewrite !list_lookup_insert_ne by lia. done.
Qed.

Lemma walk_spec (s : Snake.t) :
  Snake.consistent s → (1 ≤ Snake.length s)%nat →
  ∃ s', Snake.walk s = Ok s'
    ∧ Snake.direction s' = Snake.direction s
    ∧ Snake.length s' = Snake.length s
    ∧ Snake.consistent s'
    ∧ (∀ i, (0 < i < Snake.length s)%nat →
         Snake.segment s' i = Snake.segment s (i - 1))
    ∧ (∃ hx hy, Snake.segment s 0 = Some (hx, hy)
         ∧ Snake.segment s' 0 = Some (step (hx, hy) (Snake.direction s))).
Proof.
  intros [Hx Hy] Hlen.
  destruct (shift_spec (Snake.length s - 1) (Snake.x s) (Snake.y s))
    as (xs & ys & He & Hlx & Hly & Hx0 & Hy0 & Hlo & _); [lia..|].
  destruct (lookup_lt_is_Some_2 (Snake.x s) 0) as [hx Hhx]; [lia|].
  destruct (lookup_lt_is_Some_2 (Snake.y s) 0) as [hy Hhy]; [lia|].
  assert (Hseg : ∀ xs1 ys1, length xs1 = length xs → length ys1 = length ys →
    (∀ k, (0 < k)%nat → xs1 !! k = xs !! k ∧ ys1 !! k = ys !! k) →
    ∀ i, (0 < i < Snake.length s)%nat →
      Snake.segment (Snake.mk (Snake.direction s) (Snake.length s) xs1 ys1) i
      = Snake.segment s (i - 1)).
  { intros xs1 ys1 _ _ Hk i Hi. unfold Snake.segment. simpl.
    destruct (Hk i) as [-> ->]; [lia|].
    destruct (Hlo i) as [-> ->]; [lia|]. done. }
  unfold Snake.walk. rewrite He. simpl. unfold getitem, setitem.
  rewrite Hx0, Hy0, Hhx, Hhy.
  destruct (decide (0 < length xs)%nat); [|lia].
  destruct (decide (0 < length ys)%nat); [|lia].
  destruct (Snake.direction s) eqn:Hd; simpl;
    (eexists; split; [reflexivity|]; simpl;
     split; [done|]; split; [done|];
     split; [unfold Snake.consistent; simpl; rewrite ?length_insert; lia|];
     split;
     [ apply Hseg; rewrite ?length_insert; try done;
       intros k Hk; rewrite ?list_lookup_insert_ne by lia; done
     | exists hx, hy; unfold Snake.segment, step; simpl;
       rewrite Hhx, Hhy; simpl;
       rewrite ?list_lookup_insert_eq by lia; rewrite ?Hx0, ?Hy0, ?Hhx, ?Hhy; simpl;
       split; [done|]; repeat f_equal; unfold SIZE; lia ]).
Qed.

(** C8. After [walk] on a consistent snake (which has a head), every segment
    [i > 0] holds the old position of segment [i - 1], and the head has
    advanced by exactly one grid unit [SIZE] in the current direction, its
    other coordinate unchanged; direction and length are kept. *)
Theorem walk_invariant (s : Snake.t) :
  Snake.consistent s → (1 ≤ Snake.length s)%nat →
  ∃ s', Snake.walk s = Ok s'
    ∧ Snake.direction s' = Snake.direction s
    ∧ Snake.length s' = Snake.length s
    ∧ Snake.consistent s'
    ∧ (∀ i, (0 < i < Snake.length s)%nat →
         Snake.segment s' i = Snake.segment s (i - 1))
    ∧ (∃ hx hy, Snake.segment s 0 = Some (hx, hy)
         ∧ Snake.segment s' 0 =
             Some (match Snake.direction s with
                   | left => (hx - SIZE, hy)
                   | right => (hx + SIZE, hy)
                   | up => (hx, hy - SIZE)
                   | down => (hx, hy + SIZE)
                   end)).
Proof.
  intros Hc Hl.
  destruct (walk_spec s Hc Hl) as (s' & Hw & Hd & Hlen & Hc' & Hseg & hx & hy & Hh & Hh').
  exists s'. repeat (split; [done|]).
  exists hx, hy. split; [done|]. rewrite Hh'. unfold step.
  destruct (Snake.direction s); simpl; repeat f_equal; lia.
Qed.

(** ** The head and the two segments behind it *)

Lemma step_back (c : cell) (d : Direction) : step (step c d) (opposite d) = c.
Proof. destruct c as [a b], d; unfold step; simpl; f_equal; lia. Qed.

Lemma step_moves (c : cell) (d : Direction) : step c d ≠ c.
Proof. destruct c as [a b], d; unfold step; simpl; unfold SIZE; intros [=]; lia. Qed.

Lemma step_inj_dir (c : cell) (d d' : Direction) : step c d = step c d' → d = d'.
Proof.
  destruct c as [a b], d, d'; unfold step; simpl; unfold SIZE;
    intros [=]; try done; lia.
Qed.

Lemma no_collision_neck (c : cell) (d : Direction) :
  is_collision (step c d).1 (step c d).2 c.1 c.2 = false.
Proof.
  destruct c as [a b], d; unfold is_collision, step; simpl; unfold SIZE;
    repeat case_bool_decide; try done; lia.
Qed.

Lemma no_collision_behind (c : cell) (d d0 : Direction) :
  d ≠ opposite d0 →
  is_collision (step c d).1 (step c d).2
    (step c (opposite d0)).1 (step c (opposite d0)).2 = false.
Proof.
  intros Hd. destruct c as [a b], d, d0; unfold is_collision, step; simpl in *;
    unfold SIZE; repeat case_bool_decide; try done; lia.
Qed.

Lemma turn_opt_fields (r : option Direction) (s : Snake.t) :
  Snake.x (turn_opt r s) = Snake.x s ∧ Snake.y (turn_opt r s) = Snake.y s
  ∧ Snake.length (turn_opt r s) = Snake.length s
  ∧ Snake.direction (turn_opt r s) ≠ opposite (Snake.direction s).
Proof.
  destruct r as [[]|], s as [[] n xs ys]; simpl;
    unfold Snake.move_left, Snake.move_right, Snake.move_up, Snake.move_down; simpl;
    repeat case_decide; simpl; done.
Qed.

Lemma walk_after_turn (r : option Direction) (s : Snake.t) :
  paced_inv s →
  ∃ s1 h, Snake.walk (turn_opt r s) = Ok s1
    ∧ Snake.consistent s1 ∧ Snake.length s1 = Snake.length s
    ∧ Snake.segment s1 0 = Some (step h (Snake.direction s1))
    ∧ ((2 ≤ Snake.length s)%nat → Snake.segment s1 1 = Some h)
    ∧ ((3 ≤ Snake.length s)%nat →
         ∃ d0, Snake.direction s1 ≠ opposite d0
             ∧ Snake.segment s1 2 = Some (step h (opposite d0))).
Proof.
  intros ([Hx Hy] & Hlen & Hneck).
  destruct (turn_opt_fields r s) as (Ex & Ey & El & Hdir).
  destruct (walk_spec (turn_opt r s)) as (s1 & Hw & Hd & Hl & Hc & Hseg & hx & hy & Hh & Hh').
  { unfold Snake.consistent. rewrite Ex, Ey, El. done. }
  { rewrite El. done. }
  assert (Hsame : ∀ i, Snake.segment (turn_opt r s) i = Snake.segment s i).
  { intros i. unfold Snake.segment. rewrite Ex, Ey. done. }
  exists s1, (hx, hy). rewrite Hd. rewrite El in *.
  split; [done|]. split; [done|]. split; [done|]. split; [done|]. split.
  - intros H2. rewrite Hseg by lia. simpl. done.
  - intros H3. destruct (Hneck H3) as (h & H0 & H1).
    rewrite Hsame in Hh. rewrite Hh in H0. injection H0 as <-.
    exists (Snake.direction s). split; [done|].
    rewrite Hseg by lia. simpl. rewrite Hsame. done.
Qed.

Lemma segment_increase_length (s : Snake.t) (i : nat) :
  Snake.consistent s → (i < Snake.length s)%nat →
  Snake.segment (Snake.increase_length s) i = Snake.segment s i.
Proof.
  intros [Hx Hy] Hi. unfold Snake.segment, Snake.increase_length. simpl.
  rewrite !lookup_app_l by lia. done.
Qed.

Lemma paced_inv_init : paced_inv Snake.init.
Proof. unfold paced_inv, Snake.consistent. simpl. repeat split; lia. Qed.

Lemma paced_inv_tick (t : tick) (s : Snake.t) :
  paced_inv s → ∃ s', do_tick t s = Ok s' ∧ paced_inv s'.
Proof.
  intros Hinv. pose proof Hinv as (_ & Hlen & _).
  destruct (walk_after_turn (request_of t) s Hinv)
    as (s1 & h & Hw & Hc & Hl & H0 & H1 & _).
  unfold do_tick. rewrite Hw. simpl. eexists. split; [reflexivity|].
  destruct (grows t).
  - destruct Hc as [Hx Hy]. split; [|split].
    + unfold Snake.consistent, Snake.increase_length. simpl.
      rewrite !length_app. simpl. lia.
    + simpl. lia.
    + simpl. intros H3. exists (step h (Snake.direction s1)).
      rewrite !segment_increase_length by (done || lia).
      rewrite H0, H1 by lia. rewrite step_back. done.
  - split; [done|]. split; [lia|]. intros H3.
    exists (step h (Snake.direction s1)). rewrite H0, H1 by lia.
    rewrite step_back. done.
Qed.

Lemma run_ticks_inv (ts : list tick) : ∀ s,
  paced_inv s → ∃ s', run_ticks ts s = Ok s' ∧ paced_inv s'.
Proof.
  induction ts as [|t ts IH]; intros s Hinv; simpl.
  - eauto.
  - destruct (paced_inv_tick t s Hinv) as (s1 & -> & Hinv1). simpl. by apply IH.
Qed.

Lemma head_hits_cons (s : Snake.t) (h c : cell) (i : nat) (rest : list nat) :
  Snake.segment s 0 = Some h → Snake.segment s i = Some c →
  head_hits s (i :: rest) =
    if is_collision h.1 h.2 c.1 c.2 then Ok true else head_hits s rest.
Proof.
  unfold Snake.segment. intros H0 Hi. simpl. unfold getitem.
  destruct (Snake.x s !! 0%nat) as [x0|]; [|done].
  destruct (Snake.y s !! 0%nat) as [y0|]; [|done].
  destruct (Snake.x s !! i) as [xi|]; [|done].
  destruct (Snake.y s !! i) as [yi|]; [|done].
  simpl in *. injection H0 as <-. injection Hi as <-. done.
Qed.

Lemma head_hits_total (s : Snake.t) (idx : list nat) :
  Snake.consistent s → (1 ≤ Snake.length s)%nat →
  Forall (λ i, (i < Snake.length s)%nat) idx →
  ∃ b, head_hits s idx = Ok b.
Proof.
  intros [Hx Hy] Hl. induction 1 as [|i idx Hi _ IH]; simpl; [eauto|].
  unfold getitem.
  destruct (lookup_lt_is_Some_2 (Snake.x s) 0) as [x0 ->]; [lia|].
  destruct (lookup_lt_is_Some_2 (Snake.y s) 0) as [y0 ->]; [lia|].
  destruct (lookup_lt_is_Some_2 (Snake.x s) i) as [xi ->]; [lia|].
  destruct (lookup_lt_is_Some_2 (Snake.y s) i) as [yi ->]; [lia|].
  simpl. destruct (is_collision _ _ _ _); eauto.
Qed.

(** C9, the failing input: a snake of three segments heading down takes two
    turn requests between two walks, left then up.  Each request passes the
    reversal guard of [move_left] and [move_up], yet together they reverse
    the heading; after the walk the head lies on segment 2, which
    [self_collision], scanning from index 3, misses and a scan from index 1
    reports. *)
Lemma double_turn_hits_segment_2 :
  let rs := [IncreaseLength; Walk; IncreaseLength; Walk; MoveLeft; MoveUp; Walk] in
  ∃ s, run rs Snake.init = Ok s
     ∧ Snake.segment s 0 = Snake.segment s 2
     ∧ Snake.segment s 0 = Some (40, 80)
     ∧ self_collision s = Ok false
     ∧ self_collision_from 1 s = Ok true.
Proof. eexists. repeat split; reflexivity. Qed.

(** Where the reversal guard does hold.  From the initial snake, after any
    number of paced ticks (at most one turn request, then [walk], then at
    most one [increase_length]) and one more turn request, [walk] succeeds
    and leaves the head off segments 1 and 2, and [self_collision], which
    scans from index 3, returns what the scan from index 1 returns. *)
Theorem paced_head_clear (ts : list tick) (r : option Direction) :
  ∃ s s1 b, run_ticks ts Snake.init = Ok s
    ∧ Snake.walk (turn_opt r s) = Ok s1
    ∧ (∀ i, i = 1%nat ∨ i = 2%nat → (i < Snake.length s1)%nat →
         Snake.segment s1 i ≠ Snake.segment s1 0)
    ∧ self_collision s1 = Ok b
    ∧ self_collision_from 1 s1 = Ok b.
Proof.
  destruct (run_ticks_inv ts Snake.init paced_inv_init) as (s & Hrun & Hinv).
  destruct (walk_after_turn r s Hinv) as (s1 & h & Hw & Hc & Hl & H0 & H1 & H2).
  pose proof Hinv as (_ & Hlen & _).
  destruct (head_hits_total s1 (range 3 (Snake.length s1)) Hc) as [b Hb].
  { lia. }
  { unfold range. apply Forall_forall. intros i Hi.
    apply list_elem_of_In, in_seq in Hi. lia. }
  exists s, s1, b. split; [done|]. split; [done|]. split; [|split; [done|]].
  - intros i [-> | ->] Hi; rewrite H0.
    + rewrite H1 by lia. intros E. apply (inj Some) in E.
      by apply (step_moves h (Snake.direction s1)).
    + destruct H2 as (d0 & Hd0 & ->); [lia|]. intros E. apply (inj Some) in E.
      apply step_inj_dir in E. congruence.
  - unfold self_collision, self_collision_from in *. rewrite <- Hb.
    destruct (decide (Snake.length s1 = 1%nat)) as [E1|N1]; [rewrite E1; done|].
    destruct (decide (Snake.length s1 = 2%nat)) as [E2|N2].
    + rewrite E2. unfold range. simpl seq.
      rewrite (head_hits_cons s1 _ h 1 [] H0) by (apply H1; lia).
      rewrite no_collision_neck. done.
    + destruct H2 as (d0 & Hd0 & H2); [lia|].
      unfold range.
      replace (Snake.length s1 - 1)%nat with (S (S (Snake.length s1 - 3))) by lia.
      simpl seq.
      rewrite (head_hits_cons s1 _ h 1 _ H0) by (apply H1; lia).
      rewrite no_collision_neck.
      rewrite (head_hits_cons s1 _ _ 2 _ H0 H2).
      rewrite no_collision_behind by done. done.
Qed.

(** ** Layered search: the invariant of the two breadth-first loops *)

Lemma elem_of_neighbours (c n : cell) : n ∈ neighbours c ↔ ∃ d, n = step c d.
Proof.
  unfold neighbours, ai.directions. split.
  - intros H. apply list_elem_of_fmap in H as (d & -> & _). eauto.
  - intros [d ->]. apply list_elem_of_fmap. exists d. split; [done|].
    destruct d; set_solver.
Qed.

Lemma layer_pop (finished : list node) c k (queue news : list node) :
  (∃ m, (∀ c k, (c, k) ∈ finished → (k ≤ m)%nat)
      ∧ ∃ A B, (c, k) :: queue = A ++ B
          ∧ (∀ c k, (c, k) ∈ A → k = m) ∧ (∀ c k, (c, k) ∈ B → k = S m)) →
  (∀ c' k', (c', k') ∈ news → k' = S k) →
  (∃ m, (∀ c' k', (c', k') ∈ finished ++ [(c, k)] → (k' ≤ m)%nat)
      ∧ ∃ A B, queue ++ news = A ++ B
          ∧ (∀ c k, (c, k) ∈ A → k = m) ∧ (∀ c k, (c, k) ∈ B → k = S m))
  ∧ (∀ c' k', (c', k') ∈ finished ++ (c, k) :: queue → (k' ≤ S k)%nat).
Proof.
  intros (m & Hfin & A & B & Hq & HA & HB) Hnews.
  destruct A as [|a A'].
  - simpl in Hq. subst B.
    assert (k = S m) as -> by (apply (HB c); set_solver).
    split.
    + exists (S m). split.
      * intros c' k' Hin. apply elem_of_app in Hin as [Hin|Hin].
        { apply Hfin in Hin. lia. }
        apply list_elem_of_singleton in Hin. injection Hin as -> ->. lia.
      * exists queue, news. split; [done|]. split; [|done].
        intros c' k' Hin. apply (HB c'). set_solver.
    + intros c' k' Hin. apply elem_of_app in Hin as [Hin|Hin].
      { apply Hfin in Hin. lia. }
      apply HB in Hin. lia.
  - simpl in Hq. injection Hq as <- ->.
    assert (k = m) as -> by (apply (HA c); set_solver).
    split.
    + exists m. split.
      * intros c' k' Hin. apply elem_of_app in Hin as [Hin|Hin].
        { by apply Hfin in Hin. }
        apply list_elem_of_singleton in Hin. injection Hin as -> ->. lia.
      * exists A', (B ++ news). split; [by rewrite app_assoc|]. split.
        { intros c' k' Hin. apply (HA c'). set_solver. }
        intros c' k' Hin. apply elem_of_app in Hin as [Hin|Hin]; [by apply HB in Hin|].
        by apply Hnews in Hin.
    + intros c' k' Hin. apply elem_of_app in Hin as [Hin|Hin].
      { apply Hfin in Hin. lia. }
      apply elem_of_cons in Hin as [[= -> ->]|Hin]; [lia|].
      apply elem_of_app in Hin as [Hin|Hin].
      * assert (k' = m) by (apply (HA c'); set_solver). lia.
      * apply HB in Hin. lia.
Qed.

Lemma within_square (o c : cell) (k r : nat) :
  within o k c → (k ≤ r)%nat → c ∈ square o r.
Proof.
  intros (i & j & -> & Hij) Hk. unfold square.
  apply list_elem_of_fmap. exists (i, j). split; [done|].
  apply list_elem_of_In, in_prod; apply list_elem_of_In, elem_of_seqZ; lia.
Qed.

Lemma square_length (o : cell) (r : nat) :
  length (square o r) = ((2 * r + 1) * (2 * r + 1))%nat.
Proof.
  unfold square, offsets. rewrite length_fmap, length_prod, length_seqZ. lia.
Qed.

Lemma within_step (o c : cell) (k : nat) (d : Direction) :
  within o k c → within o (S k) (step c d).
Proof.
  intros (i & j & -> & Hij).
  destruct d; unfold step; simpl;
    [exists (i - 1), j | exists (i + 1), j | exists i, (j - 1) | exists i, (j + 1)];
    (split; [unfold SIZE; f_equal; lia | lia]).
Qed.

Section layers_proofs.

Variable free : cell → bool.
Variable seeds : list cell.
Variable k0 : nat.
Variable cap : nat.

Local Abbreviation reach := (reach free seeds k0).
Local Abbreviation search_inv := (search_inv free seeds k0 cap).

Lemma expand_spec k ns : ∀ q v q' v',
  expand free k ns q v = (q', v') →
  ∃ news, q' = q ++ news
    ∧ (∀ c, c ∈ v' ↔ c ∈ v ∨ c ∈ news.*1)
    ∧ NoDup news.*1
    ∧ (∀ c k', (c, k') ∈ news → k' = S k ∧ c ∈ ns ∧ free c = true ∧ c ∉ v)
    ∧ (∀ n, n ∈ ns → free n = true → n ∈ v').
Proof.
  induction ns as [|n rest IH]; intros q v q' v' He; simpl in He.
  - injection He as <- <-. exists []. rewrite app_nil_r.
    split; [done|]. split; [set_solver|]. split; [constructor|].
    split; [set_solver|]. set_solver.
  - destruct (decide (n ∈ v)) as [Hin|Hnin].
    { destruct (IH _ _ _ _ He) as (news & -> & Hv & Hnd & Hnews & Hall).
      exists news. split; [done|]. split; [done|]. split; [done|]. split.
      - intros c k' Hc. destruct (Hnews c k' Hc) as (? & ? & ? & ?). set_solver.
      - intros n' Hn' Hf. apply elem_of_cons in Hn' as [->|Hn']; [|by apply Hall].
        apply Hv. by left. }
    destruct (free n) eqn:Hfree.
    + destruct (IH _ _ _ _ He) as (news & -> & Hv & Hnd & Hnews & Hall).
      exists ((n, S k) :: news). rewrite <- app_assoc. simpl.
      split; [done|]. split; [|split; [|split]].
      * intros c. rewrite Hv. set_solver.
      * constructor; [|done]. intros Hin.
        apply list_elem_of_fmap in Hin as ([c k'] & Hc & Hin). simpl in Hc. subst c.
        destruct (Hnews n k' Hin) as (_ & _ & _ & Hn). set_solver.
      * intros c k' Hc. apply elem_of_cons in Hc as [[= -> ->]|Hc].
        { repeat split; [set_solver|done|done]. }
        destruct (Hnews c k' Hc) as (? & ? & ? & ?). set_solver.
      * intros n' Hn' Hf. apply elem_of_cons in Hn' as [->|Hn']; [|by apply Hall].
        apply Hv. set_solver.
    + destruct (IH _ _ _ _ He) as (news & -> & Hv & Hnd & Hnews & Hall).
      exists news. split; [done|]. split; [done|]. split; [done|]. split.
      * intros c k' Hc. destruct (Hnews c k' Hc) as (? & ? & ? & ?). set_solver.
      * intros n' Hn' Hf. apply elem_of_cons in Hn' as [->|Hn']; [congruence|].
        by apply Hall.
Qed.

(** Every cell that is [k] steps away is already known at a depth of at most
    [k], unless the queue still holds a shallower node. *)
Lemma search_inv_complete finished queue visited c k :
  search_inv finished queue visited → reach c k → (k ≤ cap)%nat →
  (∃ k', (k' ≤ k)%nat ∧ (c, k') ∈ finished ++ queue)
  ∨ (∃ c' k', (c', k') ∈ queue ∧ (k' < k)%nat).
Proof.
  intros Hinv Hr. induction Hr as [c Hc|c k d Hr IH Hfree]; intros Hk.
  - left. by apply (inv_seeds _ _ _ _ _ _ _ Hinv).
  - destruct IH as [(k' & Hk' & Hin)|(c' & k' & Hin & Hk')]; [lia| |].
    + apply elem_of_app in Hin as [Hin|Hin].
      * destruct (inv_closed _ _ _ _ _ _ _ Hinv c k' d Hin) as (k'' & Hk'' & Hin'');
          [lia|done|].
        left. exists k''. split; [lia|done].
      * right. exists c, k'. split; [done|lia].
    + right. exists c', k'. split; [done|lia].
Qed.

(** One round of the loop: the front node is dequeued and [news], its
    passable neighbours not seen before, join the back of the queue. *)
Lemma search_inv_pop finished c k queue visited news visited' :
  search_inv finished ((c, k) :: queue) visited →
  (∀ x, x ∈ visited' ↔ x ∈ visited ∨ x ∈ news.*1) →
  NoDup news.*1 →
  (∀ c' k', (c', k') ∈ news →
     k' = S k ∧ c' ∈ neighbours c ∧ free c' = true ∧ c' ∉ visited) →
  ((k < cap)%nat → ∀ n, n ∈ neighbours c → free n = true → n ∈ visited') →
  (news = [] ∨ (k < cap)%nat) →
  search_inv (finished ++ [(c, k)]) (queue ++ news) visited'.
Proof.
  intros Hinv Hv Hnd Hnews Hall Hcap.
  assert (Hlist : (finished ++ [(c, k)]) ++ queue ++ news
                  = (finished ++ (c, k) :: queue) ++ news).
  { rewrite <- !app_assoc. done. }
  destruct (layer_pop finished c k queue news) as [Hlayer Hbound].
  { apply (inv_layer _ _ _ _ _ _ _ Hinv). }
  { intros c' k' Hin. by destruct (Hnews c' k' Hin). }
  assert (Hck : reach c k ∧ (k ≤ cap)%nat).
  { apply (inv_reach _ _ _ _ _ _ _ Hinv). set_solver. }
  split.
  - intros x. rewrite Hlist, fmap_app, elem_of_app, Hv.
    by rewrite (inv_visited _ _ _ _ _ _ _ Hinv).
  - rewrite Hlist, fmap_app. apply NoDup_app. split; [|split; [|done]].
    + apply (inv_nodup _ _ _ _ _ _ _ Hinv).
    + intros x Hx Hx'. apply (inv_visited _ _ _ _ _ _ _ Hinv) in Hx.
      apply list_elem_of_fmap in Hx' as ([c' k'] & -> & Hin).
      by destruct (Hnews c' k' Hin) as (_ & _ & _ & ?).
  - intros c' k' Hin. rewrite Hlist in Hin. apply elem_of_app in Hin as [Hin|Hin].
    + by apply (inv_reach _ _ _ _ _ _ _ Hinv).
    + destruct (Hnews c' k' Hin) as (-> & Hn & Hf & _).
      apply elem_of_neighbours in Hn as [d ->].
      destruct Hcap as [->|Hlt]; [set_solver|].
      split; [|lia]. apply reach_step; [apply Hck | done].
  - done.
  - intros c' k' d Hin Hlt Hf. rewrite Hlist.
    apply elem_of_app in Hin as [Hin|Hin].
    + destruct (inv_closed _ _ _ _ _ _ _ Hinv c' k' d Hin Hlt Hf) as (k'' & ? & Hin'').
      exists k''. split; [done|].
      apply elem_of_app. by left.
    + apply list_elem_of_singleton in Hin. injection Hin as -> ->.
      assert (Hvis : step c d ∈ visited').
      { apply Hall; [done| |done]. apply elem_of_neighbours. eauto. }
      apply Hv in Hvis as [Hvis|Hvis].
      * apply (inv_visited _ _ _ _ _ _ _ Hinv) in Hvis.
        apply list_elem_of_fmap in Hvis as ([c' k'] & Hc' & Hin). simpl in Hc'. subst c'.
        exists k'. split; [by apply (Hbound (step c d))|].
        apply elem_of_app. by left.
      * apply list_elem_of_fmap in Hvis as ([c' k'] & Hc' & Hin). simpl in Hc'. subst c'.
        destruct (Hnews _ _ Hin) as (-> & _). exists (S k). split; [done|].
        apply elem_of_app. by right.
  - intros x Hx. destruct (inv_seeds _ _ _ _ _ _ _ Hinv x Hx) as (k' & ? & Hin).
    exists k'. split; [done|]. rewrite Hlist. apply elem_of_app. by left.
Qed.

(** The invariant holds when the loop is entered with the seeds queued. *)
Lemma search_inv_init (visited : gset cell) :
  (k0 ≤ cap)%nat → NoDup seeds → (∀ c, c ∈ visited ↔ c ∈ seeds) →
  search_inv [] ((λ c, (c, k0)) <$> seeds) visited.
Proof.
  intros k0_le_cap Hnd Hvis.
  assert (Hfst : ((λ c : cell, (c, k0)) <$> seeds).*1 = seeds).
  { rewrite <- list_fmap_compose. simpl. apply list_fmap_id. }
  split; simpl.
  - intros c. by rewrite Hfst.
  - by rewrite Hfst.
  - intros c k Hin. apply list_elem_of_fmap in Hin as (c' & [= -> ->] & Hin).
    split; [by apply reach_seed | done].
  - exists k0. split; [set_solver|].
    exists ((λ c, (c, k0)) <$> seeds), []. rewrite app_nil_r. split; [done|].
    split; [|set_solver].
    intros c k Hin. by apply list_elem_of_fmap in Hin as (c' & [= -> ->] & Hin).
  - set_solver.
  - intros c Hc. exists k0. split; [done|]. apply list_elem_of_fmap. eauto.
Qed.

(** The front of the queue is its shallowest node. *)
Lemma search_inv_front finished c k queue visited c' k' :
  search_inv finished ((c, k) :: queue) visited →
  (c', k') ∈ (c, k) :: queue → (k ≤ k')%nat.
Proof.
  intros Hinv Hin.
  destruct (inv_layer _ _ _ _ _ _ _ Hinv) as (m & _ & A & B & Hq & HA & HB).
  destruct A as [|a A']; simpl in Hq.
  - subst B. pose proof (HB _ _ Hin). assert (k = S m); [|lia].
    apply (HB c). by left.
  - injection Hq as <- ->. assert (k = m) as ->.
    { apply (HA c). by left. }
    apply elem_of_cons in Hin as [[= -> ->]|Hin]; [done|].
    apply elem_of_app in Hin as [Hin|Hin].
    + assert (k' = m); [|lia]. apply (HA c'). by right.
    + apply HB in Hin. lia.
Qed.

(** A cell is known at one depth only. *)
Lemma search_inv_depth finished queue visited c k k' :
  search_inv finished queue visited →
  (c, k) ∈ finished ++ queue → (c, k') ∈ finished ++ queue → k = k'.
Proof.
  intros Hinv H1 H2. pose proof (inv_nodup _ _ _ _ _ _ _ Hinv) as Hnd.
  apply list_elem_of_lookup in H1 as [i Hi]. apply list_elem_of_lookup in H2 as [j Hj].
  assert (i = j) as ->.
  { apply (NoDup_lookup _ i j c Hnd); rewrite list_lookup_fmap; [by rewrite Hi|by rewrite Hj]. }
  congruence.
Qed.

Lemma reach_within (o : cell) c k :
  (∀ c, c ∈ seeds → within o k0 c) → reach c k → within o k c.
Proof.
  intros Hseeds. induction 1 as [c Hc|c k d _ IH _]; [by apply Hseeds|].
  by apply within_step.
Qed.

(** The loop has dequeued fewer nodes than the square around [o] has cells
    as long as the queue is not empty: this bounds the number of rounds. *)
Lemma search_inv_bound (o : cell) finished queue visited :
  (∀ c, c ∈ seeds → within o k0 c) →
  search_inv finished queue visited →
  (length finished + length queue ≤ (2 * cap + 1) * (2 * cap + 1))%nat.
Proof.
  intros Hseeds Hinv.
  assert (Hle : (length (finished ++ queue).*1 ≤ length (square o cap))%nat).
  { apply submseteq_length, NoDup_submseteq.
    - apply (inv_nodup _ _ _ _ _ _ _ Hinv).
    - intros c Hc. apply list_elem_of_fmap in Hc as ([c' k] & -> & Hin).
      destruct (inv_reach _ _ _ _ _ _ _ Hinv c' k Hin) as [Hr Hk].
      apply (within_square o c' k); [|done]. by apply reach_within. }
  rewrite length_fmap, length_app, square_length in Hle. done.
Qed.

End layers_proofs.

(** ** The body test on a consistent snake *)

Lemma range_lt (a b i : nat) : i ∈ range a b → (a ≤ i < b)%nat.
Proof. unfold range. intros H. apply list_elem_of_In, in_seq in H. lia. Qed.

Lemma segment_lookup (s : Snake.t) (i : nat) :
  Snake.consistent s → (i < Snake.length s)%nat →
  ∃ xi yi, Snake.x s !! i = Some xi ∧ Snake.y s !! i = Some yi
         ∧ Snake.segment s i = Some (xi, yi).
Proof.
  intros [Hx Hy] Hi.
  destruct (lookup_lt_is_Some_2 (Snake.x s) i) as [xi Hxi]; [lia|].
  destruct (lookup_lt_is_Some_2 (Snake.y s) i) as [yi Hyi]; [lia|].
  exists xi, yi. unfold Snake.segment. rewrite Hxi, Hyi. done.
Qed.

Lemma hits_body_pure (s : Snake.t) (px py : Z) (idx : list nat) :
  Snake.consistent s → (∀ i, i ∈ idx → (i < Snake.length s)%nat) →
  hits_body s px py idx = Ok (body_hit s px py idx).
Proof.
  intros Hc. induction idx as [|i idx IH]; intros Hidx; simpl; [done|].
  destruct (segment_lookup s i Hc) as (xi & yi & Hxi & Hyi & Hseg).
  { apply Hidx. by left. }
  unfold getitem. rewrite Hxi, Hyi, Hseg. simpl.
  destruct (is_collision px py xi yi); [done|].
  simpl. apply IH. intros j Hj. apply Hidx. by right.
Qed.

Lemma hits_body_range (s : Snake.t) (px py : Z) (a : nat) :
  Snake.consistent s →
  hits_body s px py (range a (Snake.length s))
  = Ok (body_hit s px py (range a (Snake.length s))).
Proof.
  intros Hc. apply hits_body_pure; [done|]. intros i Hi. apply range_lt in Hi. lia.
Qed.

Lemma potential_move_passable (g : Game) (c : cell) :
  Snake.consistent (snake g) →
  _is_potential_move_colliding g c.1 c.2 = Ok (negb (passable 1 g c)).
Proof.
  intros Hc. unfold _is_potential_move_colliding, passable.
  destruct (on_screen g c.1 c.2); simpl; [|done].
  rewrite hits_body_range by done. by rewrite negb_involutive.
Qed.

(** ** ai.py: the breadth-first search for the apple *)

Lemma path_first_passable g start d c n :
  path g start d c n → passable 1 g (step start d) = true.
Proof. induction 1; done. Qed.

Lemma path_positive g start d c n : path g start d c n → (1 ≤ n)%nat.
Proof. induction 1; lia. Qed.

Lemma safe_directions_spec (g : Game) (head : cell) (ds : list Direction) :
  Snake.consistent (snake g) → NoDup ds →
  ∃ vds, ai.safe_directions g head ds = Ok vds ∧ NoDup vds
    ∧ ∀ d, d ∈ vds ↔
        d ∈ ds ∧ d ≠ opposite (Snake.direction (snake g))
        ∧ passable 1 g (step head d) = true.
Proof.
  intros Hc. induction ds as [|d ds IH]; intros Hnd; cbn [ai.safe_directions].
  - exists []. split; [done|]. split; [constructor|]. set_solver.
  - apply NoDup_cons in Hnd as [Hd Hnd]. destruct (IH Hnd) as (vds & -> & Hvnd & Hvds).
    destruct (decide (d = opposite (Snake.direction (snake g)))) as [->|Hne].
    { exists vds. split; [done|]. split; [done|]. intros d'. rewrite Hvds. set_solver. }
    rewrite (potential_move_passable g (step head d)) by done. simpl.
    destruct (passable 1 g (step head d)) eqn:Hp; simpl.
    + exists (d :: vds). split; [done|]. split.
      * constructor; [|done]. rewrite Hvds. tauto.
      * intros d'. rewrite elem_of_cons, Hvds, elem_of_cons.
        split; [intros [->|?]; tauto|]. intros ([->|?] & ? & ?); tauto.
    + exists vds. split; [done|]. split; [done|]. intros d'.
      rewrite Hvds, elem_of_cons. split; [tauto|].
      intros ([->|?] & ? & ?); [congruence|tauto].
Qed.

Lemma directions_nodup : NoDup ai.directions.
Proof. unfold ai.directions. repeat constructor; set_solver. Qed.

Lemma elem_of_directions (d : Direction) : d ∈ ai.directions.
Proof. unfold ai.directions. destruct d; set_solver. Qed.

Lemma explore_spec (g : Game) (c : cell) (fd : Direction) (k : nat) (ds : list Direction) :
  Snake.consistent (snake g) →
  ∀ q v, ∃ news v',
    ai.explore g c fd k ds q v = Ok (q ++ news, v')
    ∧ expand (passable 1 g) k (step c <$> ds) (erase <$> q) v
      = (erase <$> (q ++ news), v')
    ∧ (∀ e, e ∈ news → e.1.2 = fd).
Proof.
  intros Hc. induction ds as [|d ds IH]; intros q v.
  - exists [], v. rewrite app_nil_r. simpl. split; [done|]. split; [done|]. set_solver.
  - cbn [ai.explore expand fmap list_fmap].
    destruct (decide (step c d ∈ v)) as [Hin|Hnin]; [apply IH|].
    unfold passable at 1.
    destruct (on_screen g (step c d).1 (step c d).2) eqn:Hon; cbn [negb andb]; [|apply IH].
    rewrite hits_body_range by done. cbn [mbind result_bind].
    destruct (body_hit (snake g) (step c d).1 (step c d).2 _) eqn:Hb;
      cbn [negb]; [apply IH|].
    destruct (IH (q ++ [((step c d).1, (step c d).2, fd, S k)]) ({[step c d]} ∪ v))
      as (news & v' & He & Hx & Hfd).
    exists (((step c d).1, (step c d).2, fd, S k) :: news), v'.
    rewrite <- app_assoc in He, Hx. cbn [app] in He, Hx.
    split; [exact He|]. split.
    + rewrite fmap_app in Hx. exact Hx.
    + intros e He'. apply elem_of_cons in He' as [->|He']; [done|]. by apply Hfd.
Qed.

Lemma seed_spec (start : cell) (vds : list Direction) : ∀ q v,
  ∃ v', ai.seed start vds q v
        = (q ++ ((λ d, ((step start d).1, (step start d).2, d, 1%nat)) <$> vds), v')
      ∧ ∀ c, c ∈ v' ↔ c ∈ v ∨ c ∈ step start <$> vds.
Proof.
  induction vds as [|d vds IH]; intros q v; simpl.
  - exists v. rewrite app_nil_r. split; [done|]. set_solver.
  - destruct (IH (q ++ [((step start d).1, (step start d).2, d, 1%nat)])
               ({[step start d]} ∪ v)) as (v' & He & Hv).
    exists v'. rewrite <- app_assoc in He. split; [exact He|].
    intros c. rewrite Hv. set_solver.
Qed.

Section bfs_pathfind_proofs.

Variable g : Game.
Variables start target : cell.
Variable vds : list Direction.
Hypothesis snake_consistent : Snake.consistent (snake g).

Local Abbreviation seeds := (step start <$> vds).
Local Abbreviation reach1 := (reach (passable 1 g) seeds 1).
Local Abbreviation inv := (search_inv (passable 1 g) seeds 1 ai.max_depth).
Local Abbreviation rounds := ((2 * ai.max_depth + 1) * (2 * ai.max_depth + 1))%nat.

Lemma seeds_within c : c ∈ seeds → within start 1 c.
Proof.
  intros Hc. apply list_elem_of_fmap in Hc as (d & -> & _).
  apply within_step. exists 0, 0. split; [|lia].
  destruct start. simpl. f_equal; lia.
Qed.

Lemma path_reach d c n : d ∈ vds → path g start d c n → reach1 c n.
Proof.
  intros Hd. induction 1 as [d Hp|d c n d' _ IH Hp].
  - apply reach_seed, list_elem_of_fmap. eauto.
  - apply reach_step; [by apply IH | done].
Qed.

Lemma bfs_loop_spec (fuel : nat) : ∀ finished queue visited,
  inv finished (erase <$> queue) visited →
  (∀ e, e ∈ queue → e.1.2 ∈ vds ∧ path g start e.1.2 e.1.1 e.2) →
  target ∉ finished.*1 →
  (rounds < fuel + length finished)%nat →
  ∃ r, ai.bfs_loop fuel g target queue visited = Ok r
    ∧ match r with
      | Some d => ∃ m, d ∈ vds ∧ path g start d target m ∧ (m ≤ ai.max_depth)%nat
                     ∧ ∀ k, reach1 target k → (k ≤ ai.max_depth)%nat → (m ≤ k)%nat
      | None => ∀ k, reach1 target k → (k ≤ ai.max_depth)%nat → False
      end.
Proof.
  induction fuel as [|fuel IH]; intros finished queue visited Hinv Hpay Htgt Hfuel.
  { pose proof (search_inv_bound _ _ _ _ start _ _ _ seeds_within Hinv). lia. }
  destruct queue as [|[[[cx cy] fd] depth] queue]; cbn [ai.bfs_loop].
  { exists None. split; [done|]. intros k Hr Hk.
    destruct (search_inv_complete _ _ _ _ _ _ _ _ _ Hinv Hr Hk)
      as [(k' & _ & Hin)|(c' & k' & Hin & _)].
    - simpl in Hin. rewrite app_nil_r in Hin. apply Htgt.
      apply list_elem_of_fmap. by exists (target, k').
    - simpl in Hin. by apply elem_of_nil in Hin. }
  rewrite fmap_cons in Hinv. change (erase (cx, cy, fd, depth)) with ((cx, cy), depth) in Hinv.
  pose proof (search_inv_bound _ _ _ _ start _ _ _ seeds_within Hinv) as Hbound.
  cbn [length] in Hbound.
  destruct (decide (cx = target.1 ∧ cy = target.2)) as [[-> ->]|Hne].
  { exists (Some fd). split; [done|]. exists depth.
    destruct (Hpay (target.1, target.2, fd, depth)) as [Hfd Hpath]; [by left|].
    simpl in Hfd, Hpath. replace (target.1, target.2) with target in * by by destruct target.
    split; [done|]. split; [done|]. split.
    { apply (inv_reach _ _ _ _ _ _ _ Hinv target). apply elem_of_app. right. by left. }
    intros k Hr Hk.
    destruct (search_inv_complete _ _ _ _ _ _ _ _ _ Hinv Hr Hk)
      as [(k' & Hk' & Hin)|(c' & k' & Hin & Hk')].
    - assert (k' = depth); [|lia].
      apply (search_inv_depth _ _ _ _ _ _ _ target k' depth Hinv Hin).
      apply elem_of_app. right. by left.
    - pose proof (search_inv_front _ _ _ _ _ _ _ _ _ _ _ Hinv Hin). lia. }
  assert (Htgt' : target ∉ (finished ++ [((cx, cy), depth)]).*1).
  { rewrite fmap_app, elem_of_app. intros [?|Hin]; [done|]. simpl in Hin.
    apply list_elem_of_singleton in Hin. apply Hne. by rewrite Hin. }
  assert (Hfuel' : (rounds < fuel + length (finished ++ [((cx, cy), depth)]))%nat).
  { rewrite length_app. cbn [length]. lia. }
  assert (Hpay' : ∀ e, e ∈ queue → e.1.2 ∈ vds ∧ path g start e.1.2 e.1.1 e.2).
  { intros e He. apply Hpay. by right. }
  destruct (decide (ai.max_depth ≤ depth)%nat) as [Hdeep|Hshallow].
  { apply (IH (finished ++ [((cx, cy), depth)])); try done.
    rewrite <- (app_nil_r (erase <$> queue)).
    apply (search_inv_pop _ _ _ _ _ _ _ _ _ [] visited Hinv).
    - intros x. simpl. rewrite elem_of_nil. tauto.
    - constructor.
    - intros c' k' Hin. by apply elem_of_nil in Hin.
    - lia.
    - by left. }
  destruct (explore_spec g (cx, cy) fd depth ai.directions snake_consistent queue visited)
    as (news & v' & He & Hx & Hfd).
  rewrite He. cbn [mbind result_bind].
  destruct (expand_spec _ _ _ _ _ _ _ Hx) as (news' & Hq & Hv & Hnd & Hnews & Hall).
  rewrite fmap_app in Hq. apply app_inv_head in Hq. subst news'.
  apply (IH (finished ++ [((cx, cy), depth)])); try done.
  - rewrite fmap_app.
    apply (search_inv_pop _ _ _ _ _ _ _ _ _ (erase <$> news) v' Hinv).
    + exact Hv.
    + exact Hnd.
    + exact Hnews.
    + intros _ n Hn Hf. by apply Hall.
    + right. lia.
  - intros e He'. apply elem_of_app in He' as [He'|He']; [by apply Hpay'|].
    destruct (Hpay (cx, cy, fd, depth)) as [Hfd' Hpath]; [by left|].
    simpl in Hfd', Hpath. destruct e as [[c1 d1] k1].
    pose proof (Hfd _ He') as Hd1. simpl in Hd1. subst d1. simpl.
    split; [done|].
    destruct (Hnews c1 k1) as (-> & Hn & Hf & _).
    { apply list_elem_of_fmap. by exists (c1, fd, k1). }
    apply elem_of_neighbours in Hn as [d' ->]. by apply path_next.
Qed.

Lemma bfs_pathfind_spec (fuel : nat) :
  NoDup vds → (∀ d, d ∈ vds → passable 1 g (step start d) = true) →
  (rounds < fuel)%nat →
  ∃ r, ai._bfs_pathfind fuel g start.1 start.2 target.1 target.2 vds = Ok r
    ∧ match r with
      | Some d => ∃ m, d ∈ vds ∧ path g start d target m
                     ∧ ∀ d' k, d' ∈ vds → path g start d' target k → (m ≤ k)%nat
      | None => ∀ d' k, d' ∈ vds → path g start d' target k →
                        (k ≤ ai.max_depth)%nat → False
      end.
Proof.
  intros Hnd Hpass Hfuel. unfold ai._bfs_pathfind.
  replace (start.1, start.2) with start by by destruct start.
  replace (target.1, target.2) with target by by destruct target.
  destruct (seed_spec start vds [] ∅) as (v0 & -> & Hv0). simpl.
  destruct (bfs_loop_spec fuel []
              ((λ d, ((step start d).1, (step start d).2, d, 1%nat)) <$> vds) v0)
    as (r & Hr & Hpost).
  - rewrite <- list_fmap_compose.
    replace (erase ∘ (λ d, ((step start d).1, (step start d).2, d, 1%nat)) <$> vds)
      with ((λ c, (c, 1%nat)) <$> seeds).
    2:{ rewrite <- list_fmap_compose. apply list_fmap_ext. intros _ d _. done. }
    apply search_inv_init.
    + unfold ai.max_depth. lia.
    + apply NoDup_fmap_2; [|done]. intros d d' Hd. by apply step_inj_dir in Hd.
    + intros c. rewrite Hv0. set_solver.
  - intros e He. apply list_elem_of_fmap in He as (d & -> & Hd). simpl.
    split; [done|]. apply path_first. by apply Hpass.
  - simpl. apply not_elem_of_nil.
  - cbn [length]. lia.
  - exists r. split; [done|]. destruct r as [d|].
    + destruct Hpost as (m & Hd & Hp & Hm & Hmin). exists m.
      split; [done|]. split; [done|]. intros d' k Hd' Hp'.
      destruct (decide (k ≤ ai.max_depth)%nat); [|lia].
      apply Hmin; [|done]. by apply (path_reach d').
    + intros d' k Hd' Hp' Hk. eapply Hpost; [|done]. by apply (path_reach d').
Qed.

End bfs_pathfind_proofs.

Lemma head_segment (s : Snake.t) (hx hy : Z) :
  Snake.segment s 0 = Some (hx, hy) →
  getitem (Snake.x s) 0 = Ok hx ∧ getitem (Snake.y s) 0 = Ok hy.
Proof.
  unfold Snake.segment, getitem. intros H.
  destruct (Snake.x s !! 0%nat); [|done]. destruct (Snake.y s !! 0%nat); [|done].
  simpl in H. injection H as -> ->. done.
Qed.

Lemma path_one g start d c : path g start d c 1 → c = step start d.
Proof.
  intros H. remember 1%nat as n eqn:Hn. destruct H as [d Hp|d c n d' Hp Hp']; [done|].
  apply path_positive in Hp. lia.
Qed.

Lemma path_two g start d c :
  path g start d c 2 → ∃ d', c = step (step start d) d'.
Proof.
  intros H. remember 2%nat as n eqn:Hn. destruct H as [d Hp|d c n d' Hp Hp']; [done|].
  injection Hn as ->. apply path_one in Hp as ->. eauto.
Qed.

(** C1, the counterexample: the snake heads down and the apple is the cell
    just above the head.  One step up reaches it, but [up] reverses the
    heading and is not a valid direction; the search answers [left], which
    starts no path of length 1 or 2 to the apple. *)
Lemma bfs_misses_path_behind_head :
  let g := mkGame (Snake.mk down 1 [160] [80]) 160 40 display in
  ai.safe_directions g (160, 80) ai.directions = Ok [left; right; down]
  ∧ ai._bfs_pathfind 962 g 160 80 160 40 [left; right; down] = Ok (Some left)
  ∧ path g (160, 80) up (160, 40) 1
  ∧ ¬ path g (160, 80) left (160, 40) 1
  ∧ ¬ path g (160, 80) left (160, 40) 2.
Proof.
  intros g. split; [vm_compute; reflexivity|]. split; [vm_compute; reflexivity|].
  split; [|split].
  - apply (path_first g (160, 80) up). vm_compute. reflexivity.
  - intros H. apply path_one in H. vm_compute in H. discriminate.
  - intros H. apply path_two in H as [d' H]. destruct d'; vm_compute in H; discriminate.
Qed.

(** C1, amended.  When some path of at most 15 steps leads from the head to
    the apple and does not begin by reversing the heading, [_bfs_pathfind],
    called as [smart_agent_bfs] calls it, returns a direction that begins a
    shortest one among the paths that do not begin by reversing the heading. *)
Theorem bfs_shortest_among_valid (g : Game) (fuel : nat) (hx hy : Z)
    (d0 : Direction) (n : nat) :
  Snake.consistent (snake g) →
  Snake.segment (snake g) 0 = Some (hx, hy) →
  (962 ≤ fuel)%nat →
  d0 ≠ opposite (Snake.direction (snake g)) →
  path g (hx, hy) d0 (apple_x g, apple_y g) n →
  (n ≤ 15)%nat →
  ∃ vds d m,
    ai.safe_directions g (hx, hy) ai.directions = Ok vds
    ∧ ai._bfs_pathfind fuel g hx hy (apple_x g) (apple_y g) vds = Ok (Some d)
    ∧ d ≠ opposite (Snake.direction (snake g))
    ∧ path g (hx, hy) d (apple_x g, apple_y g) m
    ∧ (m ≤ n)%nat
    ∧ ∀ d' k, d' ≠ opposite (Snake.direction (snake g)) →
        path g (hx, hy) d' (apple_x g, apple_y g) k → (m ≤ k)%nat.
Proof.
  intros Hc Hhead Hfuel Hd0 Hpath Hn.
  destruct (safe_directions_spec g (hx, hy) ai.directions Hc directions_nodup)
    as (vds & Hsafe & Hnd & Hvds).
  assert (Hin : ∀ d k, d ≠ opposite (Snake.direction (snake g)) →
            path g (hx, hy) d (apple_x g, apple_y g) k → d ∈ vds).
  { intros d k Hd Hp. apply Hvds. split; [apply elem_of_directions|].
    split; [done|]. by apply path_first_passable in Hp. }
  destruct (bfs_pathfind_spec g (hx, hy) (apple_x g, apple_y g) vds Hc fuel Hnd)
    as (r & Hr & Hpost).
  { intros d Hd. by apply Hvds in Hd as (_ & _ & ?). }
  { unfold ai.max_depth. lia. }
  simpl in Hr. exists vds. destruct r as [d|].
  - destruct Hpost as (m & Hd & Hp & Hmin). exists d, m.
    split; [done|]. split; [done|].
    split; [by apply Hvds in Hd as (_ & ? & _)|]. split; [done|].
    split; [by apply (Hmin d0); [apply (Hin d0 n)|]|].
    intros d' k Hd' Hp'. apply (Hmin d'); [by apply (Hin d' k)|done].
  - exfalso. apply (Hpost d0 n); [by apply (Hin d0 n)|done|].
    unfold ai.max_depth. lia.
Qed.

Lemma bfs_shortest_among_valid_witness :
  let g := mkGame (Snake.mk down 1 [160] [80]) 160 40 display in
  ∃ vds d m,
    ai.safe_directions g (160, 80) ai.directions = Ok vds
    ∧ ai._bfs_pathfind 962 g 160 80 160 40 vds = Ok (Some d)
    ∧ d ≠ opposite down
    ∧ path g (160, 80) d (160, 40) m
    ∧ (m ≤ 3)%nat
    ∧ ∀ d' k, d' ≠ opposite down → path g (160, 80) d' (160, 40) k → (m ≤ k)%nat.
Proof.
  intros g.
  apply (bfs_shortest_among_valid g 962 160 80 left 3).
  - split; reflexivity.
  - reflexivity.
  - lia.
  - discriminate.
  - apply (path_next g (160, 80) left (160, 80) 2 up); [|vm_compute; reflexivity].
    apply (path_next g (160, 80) left (120, 80) 1 right); [|vm_compute; reflexivity].
    apply (path_first g (160, 80) left). vm_compute. reflexivity.
  - lia.
Defined.

(** ** ai.py: the bounded flood fill *)

Lemma spread_spec (g : Game) (x y : Z) (k : nat) (deltas : list (Z * Z)) :
  Snake.consistent (snake g) →
  ∀ q v, ∃ news v',
    ai.spread g x y k deltas q v = Ok (q ++ news, v')
    ∧ expand (passable 0 g) k ((λ dl, (x + dl.1, y + dl.2)) <$> deltas)
        (erase3 <$> q) v
      = (erase3 <$> (q ++ news), v').
Proof.
  intros Hc. induction deltas as [|[dx dy] deltas IH]; intros q v.
  - exists [], v. rewrite app_nil_r. done.
  - cbn [ai.spread expand fmap list_fmap fst snd].
    destruct (decide ((x + dx, y + dy) ∈ v)) as [Hin|Hnin].
    { destruct (decide (_ ∈ v)); [apply IH|done]. }
    destruct (decide (_ ∈ v)) as [?|_]; [done|].
    unfold passable at 1. cbn [fst snd].
    destruct (on_screen g (x + dx) (y + dy)) eqn:Hon; cbn [negb andb]; [|apply IH].
    rewrite hits_body_range by done. cbn [mbind result_bind].
    destruct (body_hit (snake g) (x + dx) (y + dy) _) eqn:Hb; cbn [negb]; [apply IH|].
    destruct (IH (q ++ [(x + dx, y + dy, S k)]) ({[(x + dx, y + dy)]} ∪ v))
      as (news & v' & He & Hx).
    exists ((x + dx, y + dy, S k) :: news), v'.
    rewrite <- app_assoc in He, Hx. cbn [app] in He, Hx.
    split; [exact He|]. rewrite fmap_app in Hx. exact Hx.
Qed.

Section flood_fill_proofs.

Variable g : Game.
Variable start : cell.
Variable max_depth : nat.
Hypothesis snake_consistent : Snake.consistent (snake g).

Local Abbreviation reach0 := (reach (passable 0 g) [start] 0).
Local Abbreviation inv := (search_inv (passable 0 g) [start] 0 max_depth).
Local Abbreviation rounds := ((2 * max_depth + 1) * (2 * max_depth + 1))%nat.

Lemma start_within c : c ∈ [start] → within start 0 c.
Proof.
  intros Hc. apply list_elem_of_singleton in Hc as ->. exists 0, 0. split; [|lia].
  destruct start. simpl. f_equal; lia.
Qed.

Lemma count_loop_spec (fuel : nat) : ∀ finished queue visited,
  inv finished (erase3 <$> queue) visited →
  (rounds < fuel + length finished)%nat →
  ∃ finished' visited',
    ai.count_loop fuel g max_depth queue visited (length finished)
      = Ok (length finished')
    ∧ inv finished' [] visited'.
Proof.
  induction fuel as [|fuel IH]; intros finished queue visited Hinv Hfuel.
  { pose proof (search_inv_bound _ _ _ _ start _ _ _ start_within Hinv). lia. }
  destruct queue as [|[[x y] depth] queue]; cbn [ai.count_loop].
  { exists finished, visited. done. }
  rewrite fmap_cons in Hinv. change (erase3 (x, y, depth)) with ((x, y), depth) in Hinv.
  assert (Hlen : S (length finished) = length (finished ++ [((x, y), depth)])).
  { rewrite length_app. cbn [length]. lia. }
  rewrite Hlen.
  destruct (decide (max_depth ≤ depth)%nat) as [Hdeep|Hshallow].
  { apply (IH (finished ++ [((x, y), depth)])); [|lia].
    rewrite <- (app_nil_r (erase3 <$> queue)).
    apply (search_inv_pop _ _ _ _ _ _ _ _ _ [] visited Hinv).
    - intros c. simpl. rewrite elem_of_nil. tauto.
    - constructor.
    - intros c' k' Hin. by apply elem_of_nil in Hin.
    - lia.
    - by left. }
  destruct (spread_spec g x y depth [(- SIZE, 0); (SIZE, 0); (0, - SIZE); (0, SIZE)]
              snake_consistent queue visited) as (news & v' & He & Hx).
  rewrite He. cbn [mbind result_bind].
  change ((λ dl : Z * Z, (x + dl.1, y + dl.2)) <$> _) with (neighbours (x, y)) in Hx.
  destruct (expand_spec _ _ _ _ _ _ _ Hx) as (news' & Hq & Hv & Hnd & Hnews & Hall).
  rewrite fmap_app in Hq. apply app_inv_head in Hq. subst news'.
  apply (IH (finished ++ [((x, y), depth)])); [|lia].
  rewrite fmap_app.
  apply (search_inv_pop _ _ _ _ _ _ _ _ _ (erase3 <$> news) v' Hinv).
  - exact Hv.
  - exact Hnd.
  - exact Hnews.
  - intros _ n Hn Hf. by apply Hall.
  - right. lia.
Qed.

(** The count is the number of cells within [max_depth] passable steps of
    the start. *)
Lemma count_available_space_spec (fuel : nat) :
  (rounds < fuel)%nat →
  ∃ cells : list cell,
    ai._count_available_space fuel g start.1 start.2 max_depth = Ok (length cells)
    ∧ NoDup cells
    ∧ ∀ c, c ∈ cells ↔ ∃ k, (k ≤ max_depth)%nat ∧ reach0 c k.
Proof.
  intros Hfuel. unfold ai._count_available_space.
  destruct (count_loop_spec fuel [] [(start.1, start.2, 0%nat)] {[(start.1, start.2)]})
    as (finished & visited & He & Hinv).
  - replace (start.1, start.2) with start by by destruct start.
    change (erase3 <$> [(start, 0%nat)]) with ((λ c : cell, (c, 0%nat)) <$> [start]).
    apply (search_inv_init _ _ _ _ {[start]}); [lia| |set_solver].
    apply NoDup_singleton.
  - cbn [length]. lia.
  - exists finished.*1. rewrite length_fmap. split; [exact He|].
    pose proof (inv_nodup _ _ _ _ _ _ _ Hinv) as Hnd. rewrite app_nil_r in Hnd.
    split; [done|]. intros c. split.
    + intros Hc. apply list_elem_of_fmap in Hc as ([c' k] & -> & Hin).
      exists k. destruct (inv_reach _ _ _ _ _ _ _ Hinv c' k) as [? ?]; [|done].
      by rewrite app_nil_r.
    + intros (k & Hk & Hr).
      destruct (search_inv_complete _ _ _ _ _ _ _ _ _ Hinv Hr Hk)
        as [(k' & _ & Hin)|(c' & k' & Hin & _)].
      * rewrite app_nil_r in Hin. apply list_elem_of_fmap. by exists (c, k').
      * by apply elem_of_nil in Hin.
Qed.

End flood_fill_proofs.

Lemma reach_mono (free free' : cell → bool) seeds k0 c k :
  (∀ c, free' c = true → free c = true) →
  reach free' seeds k0 c k → reach free seeds k0 c k.
Proof.
  intros Hsub. induction 1 as [c Hc|c k d _ IH Hf].
  - by apply reach_seed.
  - apply reach_step; [done|]. by apply Hsub.
Qed.

Lemma with_obstacle_consistent (g : Game) (ox oy : Z) :
  Snake.consistent (snake g) → Snake.consistent (snake (with_obstacle g ox oy)).
Proof.
  intros [Hx Hy]. unfold Snake.consistent. simpl. rewrite !length_app. simpl. lia.
Qed.

Lemma passable_with_obstacle (g : Game) (ox oy : Z) (c : cell) :
  Snake.consistent (snake g) →
  passable 0 (with_obstacle g ox oy) c = true → passable 0 g c = true.
Proof.
  intros [Hx Hy]. unfold passable. intros H.
  apply andb_true_iff in H as [Hon Hb]. apply andb_true_iff. split; [exact Hon|].
  apply negb_true_iff. apply negb_true_iff in Hb.
  destruct (body_hit (snake g) c.1 c.2 (range 0 (Snake.length (snake g)))) eqn:E; [|done].
  rewrite <- Hb. symmetry. unfold body_hit in *.
  apply existsb_exists in E as (i & Hi & Hhit). apply existsb_exists.
  apply list_elem_of_In, range_lt in Hi.
  exists i. split.
  - apply list_elem_of_In. unfold range. apply list_elem_of_In, in_seq. simpl. lia.
  - unfold Snake.segment in *. simpl. rewrite !lookup_app_l by lia. exact Hhit.
Qed.

(** ** allagents.py and reflexagent.py: the fills capped at 100 cells *)

Lemma occupies_pure (s : Snake.t) (px py : Z) (idx : list nat) :
  Snake.consistent s → (∀ i, i ∈ idx → (i < Snake.length s)%nat) →
  occupies s px py idx = Ok (body_at s px py idx).
Proof.
  intros [Hx Hy]. induction idx as [|i idx IH]; intros Hidx; [done|].
  assert (Hi : (i < Snake.length s)%nat) by (apply Hidx; left).
  destruct (lookup_lt_is_Some_2 (Snake.x s) i) as [xi Hxi]; [lia|].
  destruct (lookup_lt_is_Some_2 (Snake.y s) i) as [yi Hyi]; [lia|].
  cbn [occupies body_at existsb]. unfold getitem, Snake.segment.
  rewrite Hxi, Hyi. cbn [mbind result_bind option_bind].
  fold (body_at s px py idx).
  rewrite IH by (intros j Hj; apply Hidx; by right).
  destruct (decide (px = xi)) as [->|Hne].
  - cbn [mbind result_bind]. destruct (decide (py = yi)) as [->|Hne].
    + rewrite bool_decide_eq_true_2 by done. done.
    + rewrite bool_decide_eq_false_2 by tauto. done.
  - rewrite bool_decide_eq_false_2 by tauto. done.
Qed.

Lemma reach_weaken (free free' : cell → bool) (seeds seeds' : list cell) k0 c k :
  (∀ c, free' c = true → free c = true) → (∀ c, c ∈ seeds' → c ∈ seeds) →
  reach free' seeds' k0 c k → reach free seeds k0 c k.
Proof.
  intros Hsub Hseeds. induction 1 as [c Hc|c k d _ IH Hf].
  - apply reach_seed. by apply Hseeds.
  - apply reach_step; [done|]. by apply Hsub.
Qed.

Lemma queue_inv_complete free seeds counted visited c :
  queue_inv free seeds counted [] visited → connected free seeds c → c ∈ counted.
Proof.
  intros Hinv [k Hr].
  assert (Hv : ∀ c, c ∈ visited → c ∈ counted).
  { intros c' Hc'. apply (qinv_visited _ _ _ _ _ Hinv) in Hc'. by rewrite app_nil_r in Hc'. }
  induction Hr as [c Hc|c k d _ IH Hf].
  - apply Hv. by apply (qinv_seeds _ _ _ _ _ Hinv).
  - apply Hv. by apply (qinv_closed _ _ _ _ _ Hinv c d).
Qed.

Lemma stack_inv_complete free seeds counted visited c :
  stack_inv free seeds counted [] visited → connected free seeds c → c ∈ counted.
Proof.
  intros Hinv [k Hr].
  induction Hr as [c Hc|c k d _ IH Hf].
  - apply (sinv_visited _ _ _ _ _ Hinv).
    destruct (sinv_seeds _ _ _ _ _ Hinv c Hc) as [?|Hn]; [done|]. by apply elem_of_nil in Hn.
  - apply (sinv_visited _ _ _ _ _ Hinv).
    destruct (sinv_closed _ _ _ _ _ Hinv c d IH Hf) as [?|Hn]; [done|].
    by apply elem_of_nil in Hn.
Qed.

(** Two capped counts compare as the components they count do. *)
Lemma capped_count_le (P P' : cell → Prop) (cap : nat) (counted counted' : list cell) :
  (∀ c, P' c → P c) →
  NoDup counted' → (∀ c, c ∈ counted' → P' c) → (length counted' ≤ cap)%nat →
  ((length counted < cap)%nat → ∀ c, P c → c ∈ counted) →
  (length counted ≤ cap)%nat →
  (length counted' ≤ length counted)%nat.
Proof.
  intros Hsub Hnd Hin Hcap Hall Hle.
  destruct (decide (length counted < cap)%nat) as [Hlt|Hge]; [|lia].
  apply submseteq_length, NoDup_submseteq; [done|].
  intros c Hc. apply Hall; [done|]. by apply Hsub, Hin.
Qed.

Lemma vacant_on_screen idx g c : vacant idx g c = true → on_screen g c.1 c.2 = true.
Proof. unfold vacant. intros H. by apply andb_true_iff in H as [? _]. Qed.

Section accessible_proofs.

Variable g : Game.
Variable start : cell.
Hypothesis snake_consistent : Snake.consistent (snake g).

Local Abbreviation free := (vacant (range 1 (Snake.length (snake g))) g).

Lemma visit_spec (x y : Z) (ds : list Direction) : ∀ q v,
  ∃ news v',
    reflexagent.visit g x y (direction_moves <$> ds) q v = Ok (q ++ news, v')
    ∧ NoDup news
    ∧ (∀ c, c ∈ v' ↔ c ∈ news ∨ c ∈ v)
    ∧ (∀ n, n ∈ news → (n ∉ v) ∧ free n = true ∧ ∃ d, n = step (x, y) d)
    ∧ (∀ d, d ∈ ds → free (step (x, y) d) = true → step (x, y) d ∈ v').
Proof.
  induction ds as [|d ds IH]; intros q v.
  { exists [], v. rewrite app_nil_r. split; [done|]. split; [constructor|].
    split; [intros c; rewrite elem_of_nil; tauto|].
    split; [intros n Hn; by apply elem_of_nil in Hn|].
    intros d Hd. by apply elem_of_nil in Hd. }
  rewrite fmap_cons.
  destruct (direction_moves d) as [dx dy] eqn:Ed. cbn [reflexagent.visit].
  assert (Hstep : step (x, y) d = (x + dx, y + dy)).
  { unfold step. rewrite Ed. done. }
  set (nxt := (x + dx, y + dy)) in *.
  assert (Hskip : (free nxt = true → nxt ∈ v) →
    ∃ news v',
      reflexagent.visit g x y (direction_moves <$> ds) q v = Ok (q ++ news, v')
      ∧ NoDup news
      ∧ (∀ c, c ∈ v' ↔ c ∈ news ∨ c ∈ v)
      ∧ (∀ n, n ∈ news → (n ∉ v) ∧ free n = true ∧ ∃ d, n = step (x, y) d)
      ∧ (∀ d0, d0 ∈ d :: ds → free (step (x, y) d0) = true → step (x, y) d0 ∈ v')).
  { intros Hfree. destruct (IH q v) as (news & v' & He & Hnd & Hv & Hnews & Hall).
    exists news, v'. repeat split; try done; try apply Hv; try by apply Hnews.
    intros d0 Hd0 Hf. apply elem_of_cons in Hd0 as [->|Hd0]; [|by apply Hall].
    rewrite Hstep in *. apply Hv. right. by apply Hfree. }
  destruct (on_screen g (x + dx) (y + dy)) eqn:Hon; cbn [negb].
  2:{ apply Hskip. unfold vacant, nxt. cbn [fst snd]. rewrite Hon. done. }
  destruct (decide (nxt ∈ v)) as [Hin|Hnin]; [apply Hskip; intros _; exact Hin|].
  rewrite occupies_pure; [|done|intros i Hi; apply range_lt in Hi; lia].
  cbn [mbind result_bind].
  destruct (body_at (snake g) (x + dx) (y + dy) _) eqn:Hb.
  { apply Hskip. unfold vacant, nxt. cbn [fst snd]. rewrite Hon, Hb. done. }
  assert (Hfree : free nxt = true).
  { unfold vacant, nxt. cbn [fst snd]. rewrite Hon, Hb. done. }
  destruct (IH (q ++ [nxt]) ({[nxt]} ∪ v)) as (news & v' & He & Hnd & Hv & Hnews & Hall).
  exists (nxt :: news), v'. rewrite <- app_assoc in He. split; [exact He|].
  split.
  { constructor; [|done]. intros Hn. apply Hnews in Hn as [Hn _].
    apply Hn, elem_of_union_l, elem_of_singleton. done. }
  split.
  { intros c. rewrite Hv, elem_of_cons, elem_of_union, elem_of_singleton. tauto. }
  split.
  { intros n Hn. apply elem_of_cons in Hn as [->|Hn].
    - split; [done|]. split; [done|]. by exists d.
    - destruct (Hnews n Hn) as (Hnv & Hf & Hd). split; [|done].
      intros Hv'. by apply Hnv, elem_of_union_r. }
  intros d0 Hd0 Hf. apply elem_of_cons in Hd0 as [->|Hd0]; [|by apply Hall].
  rewrite Hstep. apply Hv. right. by apply elem_of_union_l, elem_of_singleton.
Qed.


Lemma queue_inv_pop (c : cell) (counted queue news : list cell) (v v' : gset cell) :
  queue_inv free [start] counted (c :: queue) v →
  NoDup news →
  (∀ c', c' ∈ v' ↔ c' ∈ news ∨ c' ∈ v) →
  (∀ n, n ∈ news → (n ∉ v) ∧ free n = true ∧ ∃ d, n = step c d) →
  (∀ d, free (step c d) = true → step c d ∈ v') →
  queue_inv free [start] (counted ++ [c]) (queue ++ news) v'.
Proof.
  intros [Hnd Hvis Hconn Hclosed Hseeds] Hndn Hv Hnews Hall.
  assert (Hsame : (counted ++ [c]) ++ queue ++ news = (counted ++ c :: queue) ++ news).
  { by rewrite <- !app_assoc. }
  split.
  - rewrite Hsame. apply NoDup_app. split; [done|]. split; [|done].
    intros c' Hc' Hn. apply Hnews in Hn as [Hn _]. by apply Hn, Hvis.
  - intros c'. rewrite Hsame, Hv, Hvis, (elem_of_app _ news). tauto.
  - intros c'. rewrite Hsame. intros Hc'. apply elem_of_app in Hc' as [Hc'|Hc'].
    + by apply Hconn.
    + destruct (Hnews c' Hc') as (_ & Hf & d & ->).
      destruct (Hconn c) as [k Hk]; [apply elem_of_app; right; by left|].
      exists (S k). by apply reach_step.
  - intros c' d Hc' Hf. apply elem_of_app in Hc' as [Hc'|Hc'].
    + apply Hv. right. by apply (Hclosed c' d).
    + apply list_elem_of_singleton in Hc' as ->. by apply Hall.
  - intros c' Hc'. apply Hv. right. by apply Hseeds.
Qed.

Lemma accessible_loop_spec (fuel : nat) : ∀ counted queue visited,
  queue_inv free [start] counted queue visited →
  (length counted ≤ 100)%nat →
  (100 < fuel + length counted)%nat →
  ∃ counted',
    reflexagent.accessible_loop fuel g queue visited (length counted)
      = Ok (length counted')
    ∧ (length counted' ≤ 100)%nat
    ∧ NoDup counted'
    ∧ (∀ c, c ∈ counted' → connected free [start] c)
    ∧ ((length counted' < 100)%nat → ∀ c, connected free [start] c → c ∈ counted').
Proof.
  induction fuel as [|fuel IH]; intros counted queue visited Hinv Hle Hfuel; [lia|].
  assert (Hndc : NoDup counted).
  { pose proof (qinv_nodup _ _ _ _ _ Hinv) as Hnd. by apply NoDup_app in Hnd as [? _]. }
  assert (Hcc : ∀ c, c ∈ counted → connected free [start] c).
  { intros c Hc. apply (qinv_connected _ _ _ _ _ Hinv). apply elem_of_app. by left. }
  destruct queue as [|[x y] queue]; cbn [reflexagent.accessible_loop].
  { exists counted. repeat split; try done.
    intros _ c Hc. by apply (queue_inv_complete _ _ _ _ _ Hinv). }
  unfold reflexagent.max_iterations.
  destruct (decide (100 ≤ length counted)%nat) as [Hfull|Hroom].
  { exists counted. repeat split; try done. lia. }
  destruct (visit_spec x y [right; left; down; up] queue visited)
    as (news & v' & He & Hnd & Hv & Hnews & Hall).
  change (direction_moves <$> [right; left; down; up]) with reflexagent.directions in He.
  rewrite He. cbn [mbind result_bind].
  assert (Hlen : S (length counted) = length (counted ++ [(x, y)])).
  { rewrite length_app. cbn [length]. lia. }
  rewrite Hlen. apply IH; [|lia|lia].
  apply (queue_inv_pop _ _ _ _ _ _ Hinv Hnd Hv Hnews).
  intros d. apply Hall. destruct d; repeat constructor.
Qed.

Lemma bfs_accessible_spaces_spec (fuel : nat) :
  (100 < fuel)%nat →
  ∃ counted,
    reflexagent._bfs_accessible_spaces fuel g start.1 start.2 = Ok (length counted)
    ∧ (length counted ≤ 100)%nat
    ∧ NoDup counted
    ∧ (∀ c, c ∈ counted → connected free [start] c)
    ∧ ((length counted < 100)%nat → ∀ c, connected free [start] c → c ∈ counted).
Proof.
  intros Hfuel. unfold reflexagent._bfs_accessible_spaces.
  replace (start.1, start.2) with start by by destruct start.
  apply (accessible_loop_spec fuel [] [start] {[start]}); cbn [length]; [|lia|lia].
  split.
  - apply NoDup_singleton.
  - intros c. cbn [app]. by rewrite elem_of_singleton, list_elem_of_singleton.
  - intros c Hc. exists 0%nat. by apply reach_seed.
  - intros c d Hc. by apply elem_of_nil in Hc.
  - intros c Hc. apply list_elem_of_singleton in Hc as ->. by apply elem_of_singleton.
Qed.

End accessible_proofs.

Lemma off_screen (g : Game) (px py : Z) :
  bool_decide (px < 0 ∨ px >= get_width (surface g) ∨ py < 0 ∨ py >= get_height (surface g))
  = negb (on_screen g px py).
Proof.
  unfold on_screen. destruct (bool_decide_reflect (0 ≤ px < get_width (surface g)
    ∧ 0 ≤ py < get_height (surface g))) as [H|H]; cbn [negb].
  - apply bool_decide_eq_false_2. lia.
  - apply bool_decide_eq_true_2. lia.
Qed.

Lemma push_unvisited_spec (c : cell) (v : gset cell) (ds : list Direction) : ∀ stack,
  ∃ news,
    allagents.GoalBasedAgent.push_unvisited c (direction_moves <$> ds) stack v
      = news ++ stack
    ∧ (length news ≤ length ds)%nat
    ∧ (∀ n, n ∈ news → ∃ d, n = step c d)
    ∧ (∀ d, d ∈ ds → step c d ∈ v ∨ step c d ∈ news ++ stack).
Proof.
  induction ds as [|d ds IH]; intros stack.
  { exists []. repeat split; try done.
    - intros n Hn. by apply elem_of_nil in Hn.
    - intros d Hd. by apply elem_of_nil in Hd. }
  rewrite fmap_cons. destruct (direction_moves d) as [dx dy] eqn:Ed.
  cbn [allagents.GoalBasedAgent.push_unvisited].
  assert (Hstep : step c d = (c.1 + dx, c.2 + dy)).
  { unfold step. rewrite Ed. done. }
  rewrite <- Hstep.
  destruct (decide (_ ∈ v)) as [Hin|Hnin].
  - destruct (IH stack) as (news & He & Hlen & Hnews & Hall).
    exists news. split; [exact He|]. split; [cbn [length]; lia|]. split; [exact Hnews|].
    intros d0 Hd0. apply elem_of_cons in Hd0 as [->|Hd0]; [by left|by apply Hall].
  - destruct (IH (step c d :: stack)) as (news & He & Hlen & Hnews & Hall).
    exists (news ++ [step c d]). rewrite <- app_assoc. split; [exact He|].
    split; [rewrite length_app; cbn [length]; lia|]. split.
    + intros n Hn. apply elem_of_app in Hn as [Hn|Hn]; [by apply Hnews|].
      apply list_elem_of_singleton in Hn as ->. by exists d.
    + intros d0 Hd0. apply elem_of_cons in Hd0 as [->|Hd0]; [|by apply Hall].
      right. apply elem_of_app. right. by left.
Qed.

Section stack_fill_proofs.

Variable g : Game.
Variable start : cell.
Hypothesis snake_consistent : Snake.consistent (snake g).

Local Abbreviation free := (vacant (range 0 (Snake.length (snake g) - 1)) g).
Local Abbreviation seeds := (if free start then [start] else []).
Local Abbreviation inv := (stack_inv free seeds).

Lemma seeds_free c : c ∈ seeds → c = start ∧ free start = true.
Proof.
  destruct (free start) eqn:E; intros Hc.
  - by apply list_elem_of_singleton in Hc.
  - by apply elem_of_nil in Hc.
Qed.

Lemma stack_inv_drop (c : cell) (counted stack : list cell) (v : gset cell) :
  inv counted (c :: stack) v → c ∈ v ∨ free c = false → inv counted stack v.
Proof.
  intros [Hnd Hvis Hconn Hpend Hclosed Hseeds] Hc. split; try done.
  - intros c' Hc'. apply Hpend. by right.
  - intros c' d Hc' Hf. destruct (Hclosed c' d Hc' Hf) as [?|Hin]; [by left|].
    apply elem_of_cons in Hin as [Heq|?]; [|by right].
    rewrite Heq in *. destruct Hc as [?|Hc]; [by left|congruence].
  - intros c' Hc'. destruct (Hseeds c' Hc') as [?|Hin]; [by left|].
    apply elem_of_cons in Hin as [Heq|?]; [|by right].
    apply seeds_free in Hc' as [-> Hf]. subst c.
    destruct Hc as [?|Hc]; [by left|congruence].
Qed.

Lemma stack_inv_count (c : cell) (counted stack news : list cell) (v : gset cell) :
  inv counted (c :: stack) v → c ∉ v → free c = true →
  (∀ n, n ∈ news → ∃ d, n = step c d) →
  (∀ d, step c d ∈ {[c]} ∪ v ∨ step c d ∈ news ++ stack) →
  inv (counted ++ [c]) (news ++ stack) ({[c]} ∪ v).
Proof.
  intros [Hnd Hvis Hconn Hpend Hclosed Hseeds] Hnew Hfree Hnews Hall.
  assert (Hc : connected free seeds c) by (apply Hpend; [by left|done]).
  split.
  - apply NoDup_app. split; [done|]. split; [|apply NoDup_singleton].
    intros c' Hc' Heq. apply list_elem_of_singleton in Heq as ->. by apply Hnew, Hvis.
  - intros c'. rewrite elem_of_union, elem_of_singleton, elem_of_app,
      list_elem_of_singleton, Hvis. tauto.
  - intros c' Hc'. apply elem_of_app in Hc' as [Hc'|Hc']; [by apply Hconn|].
    by apply list_elem_of_singleton in Hc' as ->.
  - intros c' Hc' Hf. apply elem_of_app in Hc' as [Hc'|Hc'].
    + destruct (Hnews c' Hc') as [d ->]. destruct Hc as [k Hk].
      exists (S k). by apply reach_step.
    + apply Hpend; [by right|done].
  - intros c' d Hc' Hf. apply elem_of_app in Hc' as [Hc'|Hc'].
    + destruct (Hclosed c' d Hc' Hf) as [Hin|Hin].
      * left. by apply elem_of_union_r.
      * apply elem_of_cons in Hin as [->|Hin].
        -- left. by apply elem_of_union_l, elem_of_singleton.
        -- right. apply elem_of_app. by right.
    + apply list_elem_of_singleton in Hc' as ->. apply Hall.
  - intros c' Hc'. destruct (Hseeds c' Hc') as [Hin|Hin].
    + left. by apply elem_of_union_r.
    + apply elem_of_cons in Hin as [->|Hin].
      * left. by apply elem_of_union_l, elem_of_singleton.
      * right. apply elem_of_app. by right.
Qed.

Lemma stack_loop_spec (fuel : nat) : ∀ counted stack visited,
  inv counted stack visited →
  (length counted ≤ 100)%nat →
  (length stack + 4 * (100 - length counted) < fuel)%nat →
  ∃ counted',
    allagents.GoalBasedAgent.count_loop fuel g stack visited (length counted)
      = Ok (length counted')
    ∧ (length counted' ≤ 100)%nat
    ∧ NoDup counted'
    ∧ (∀ c, c ∈ counted' → connected free seeds c)
    ∧ ((length counted' < 100)%nat → ∀ c, connected free seeds c → c ∈ counted').
Proof.
  induction fuel as [|fuel IH]; intros counted stack visited Hinv Hle Hfuel; [lia|].
  destruct stack as [|[x y] stack]; cbn [allagents.GoalBasedAgent.count_loop].
  { exists counted. split; [done|]. split; [done|].
    split; [apply (sinv_nodup _ _ _ _ _ Hinv)|].
    split; [apply (sinv_connected _ _ _ _ _ Hinv)|].
    intros _ c Hc. by apply (stack_inv_complete _ _ _ _ _ Hinv). }
  cbn [length] in Hfuel.
  destruct (decide (100 ≤ length counted)%nat) as [Hfull|Hroom].
  { exists counted. split; [done|]. split; [done|].
    split; [apply (sinv_nodup _ _ _ _ _ Hinv)|].
    split; [apply (sinv_connected _ _ _ _ _ Hinv)|]. lia. }
  destruct (decide ((x, y) ∈ visited)) as [Hin|Hnin].
  { apply IH; [|done|lia]. apply (stack_inv_drop (x, y)); [done|by left]. }
  rewrite off_screen.
  destruct (on_screen g x y) eqn:Hon; cbn [negb].
  2:{ apply IH; [|done|lia]. apply (stack_inv_drop (x, y)); [done|right].
      unfold vacant. cbn [fst snd]. by rewrite Hon. }
  rewrite occupies_pure; [|done|intros i Hi; apply range_lt in Hi; lia].
  cbn [mbind result_bind].
  destruct (body_at (snake g) x y _) eqn:Hb.
  { apply IH; [|done|lia]. apply (stack_inv_drop (x, y)); [done|right].
    unfold vacant. cbn [fst snd]. by rewrite Hon, Hb. }
  destruct (push_unvisited_spec (x, y) ({[(x, y)]} ∪ visited) [right; left; down; up] stack)
    as (news & He & Hlen & Hnews & Hall).
  change (direction_moves <$> [right; left; down; up])
    with [(SIZE, 0); (- SIZE, 0); (0, SIZE); (0, - SIZE)] in He.
  rewrite He.
  assert (Hcount : S (length counted) = length (counted ++ [(x, y)])).
  { rewrite length_app. cbn [length]. lia. }
  rewrite Hcount. apply IH.
  - apply stack_inv_count; try done.
    + unfold vacant. cbn [fst snd]. by rewrite Hon, Hb.
    + intros d. apply Hall. destruct d; repeat constructor.
  - lia.
  - rewrite length_app. cbn [length] in Hlen. lia.
Qed.

Lemma count_available_space_dfs_spec (fuel : nat) :
  (401 < fuel)%nat →
  ∃ counted,
    allagents.GoalBasedAgent.count_available_space fuel g start.1 start.2
      = Ok (length counted)
    ∧ (length counted ≤ 100)%nat
    ∧ NoDup counted
    ∧ (∀ c, c ∈ counted → connected free seeds c)
    ∧ ((length counted < 100)%nat → ∀ c, connected free seeds c → c ∈ counted).
Proof.
  intros Hfuel. unfold allagents.GoalBasedAgent.count_available_space.
  replace (start.1, start.2) with start by by destruct start.
  apply (stack_loop_spec fuel [] [start] ∅); cbn [length]; [|lia|lia].
  split.
  - constructor.
  - intros c. rewrite elem_of_empty, elem_of_nil. tauto.
  - intros c Hc. by apply elem_of_nil in Hc.
  - intros c Hc Hf. apply list_elem_of_singleton in Hc as ->.
    exists 0%nat. apply reach_seed. rewrite Hf. by left.
  - intros c d Hc. by apply elem_of_nil in Hc.
  - intros c Hc. right. apply seeds_free in Hc as [-> _]. by left.
Qed.

End stack_fill_proofs.

Lemma vacant_with_obstacle (idx idx' : list nat) (g : Game) (ox oy : Z) (c : cell) :
  Snake.consistent (snake g) →
  (∀ i, i ∈ idx → i ∈ idx' ∧ (i < Snake.length (snake g))%nat) →
  vacant idx' (with_obstacle g ox oy) c = true → vacant idx g c = true.
Proof.
  intros [Hx Hy] Hidx. unfold vacant. intros H.
  apply andb_true_iff in H as [Hon Hb]. apply andb_true_iff. split; [exact Hon|].
  apply negb_true_iff. apply negb_true_iff in Hb.
  destruct (body_at (snake g) c.1 c.2 idx) eqn:E; [|done].
  rewrite <- Hb. symmetry. unfold body_at in *.
  apply existsb_exists in E as (i & Hi & Hhit). apply existsb_exists.
  apply list_elem_of_In, Hidx in Hi as [Hi Hlt].
  exists i. split; [by apply list_elem_of_In|].
  unfold Snake.segment in *. simpl. rewrite !lookup_app_l by lia. exact Hhit.
Qed.

Lemma elem_of_range (a b i : nat) : (a ≤ i < b)%nat → i ∈ range a b.
Proof. intros H. unfold range. apply list_elem_of_In, in_seq. lia. Qed.

Lemma accessible_antitone (g : Game) (ox oy start_x start_y : Z) (fuel : nat) :
  Snake.consistent (snake g) → (100 < fuel)%nat →
  ∃ n n',
    reflexagent._bfs_accessible_spaces fuel g start_x start_y = Ok n
    ∧ reflexagent._bfs_accessible_spaces fuel (with_obstacle g ox oy) start_x start_y
      = Ok n'
    ∧ (n' ≤ n)%nat.
Proof.
  intros Hc Hfuel.
  destruct (bfs_accessible_spaces_spec g (start_x, start_y) Hc fuel Hfuel)
    as (cells & He & Hle & Hnd & Hconn & Hall).
  destruct (bfs_accessible_spaces_spec (with_obstacle g ox oy) (start_x, start_y)
              (with_obstacle_consistent g ox oy Hc) fuel Hfuel)
    as (cells' & He' & Hle' & Hnd' & Hconn' & Hall').
  exists (length cells), (length cells'). split; [exact He|]. split; [exact He'|].
  eapply (capped_count_le _ _ 100); [|exact Hnd'|exact Hconn'|exact Hle'|exact Hall|exact Hle].
  intros c [k Hk]. exists k. eapply reach_weaken; [| |exact Hk]; [|done].
  intros c'. apply vacant_with_obstacle; [done|].
  intros i Hi. apply range_lt in Hi. split; [|lia]. apply elem_of_range. simpl. lia.
Qed.

Lemma count_available_space_dfs_antitone (g : Game) (ox oy x y : Z) (fuel : nat) :
  Snake.consistent (snake g) → (401 < fuel)%nat →
  ∃ n n',
    allagents.GoalBasedAgent.count_available_space fuel g x y = Ok n
    ∧ allagents.GoalBasedAgent.count_available_space fuel (with_obstacle g ox oy) x y
      = Ok n'
    ∧ (n' ≤ n)%nat.
Proof.
  intros Hc Hfuel.
  assert (Hsub : ∀ c,
    vacant (range 0 (Snake.length (snake (with_obstacle g ox oy)) - 1))
      (with_obstacle g ox oy) c = true →
    vacant (range 0 (Snake.length (snake g) - 1)) g c = true).
  { intros c. apply vacant_with_obstacle; [done|].
    intros i Hi. apply range_lt in Hi. split; [|lia]. apply elem_of_range. simpl. lia. }
  destruct (count_available_space_dfs_spec g (x, y) Hc fuel Hfuel)
    as (cells & He & Hle & Hnd & Hconn & Hall).
  destruct (count_available_space_dfs_spec (with_obstacle g ox oy) (x, y)
              (with_obstacle_consistent g ox oy Hc) fuel Hfuel)
    as (cells' & He' & Hle' & Hnd' & Hconn' & Hall').
  exists (length cells), (length cells'). split; [exact He|]. split; [exact He'|].
  eapply (capped_count_le _ _ 100); [|exact Hnd'|exact Hconn'|exact Hle'|exact Hall|exact Hle].
  intros c [k Hk]. exists k. eapply reach_weaken; [exact Hsub| |exact Hk].
  intros c' Hc'.
  destruct (vacant _ (with_obstacle g ox oy) (x, y)) eqn:E; [|by apply elem_of_nil in Hc'].
  rewrite (Hsub _ E). exact Hc'.
Qed.

(** C6. Adding one obstacle cell, an extra body segment, never increases
    the count of a bounded flood fill from a fixed start: for
    [_count_available_space] of ai.py, whatever the depth cap, for
    [count_available_space] of allagents.py and for [_bfs_accessible_spaces]
    of reflexagent.py, both capped at 100 cells, the two calls return and the
    count with the obstacle is at most the count without it. *)
Theorem flood_fill_antitone (g : Game) (ox oy start_x start_y : Z)
    (max_depth fuel : nat) :
  Snake.consistent (snake g) →
  ((2 * max_depth + 1) * (2 * max_depth + 1) < fuel)%nat →
  (401 < fuel)%nat →
  (∃ n n',
    ai._count_available_space fuel g start_x start_y max_depth = Ok n
    ∧ ai._count_available_space fuel (with_obstacle g ox oy) start_x start_y max_depth
      = Ok n'
    ∧ (n' ≤ n)%nat)
  ∧ (∃ n n',
    allagents.GoalBasedAgent.count_available_space fuel g start_x start_y = Ok n
    ∧ allagents.GoalBasedAgent.count_available_space fuel (with_obstacle g ox oy)
        start_x start_y = Ok n'
    ∧ (n' ≤ n)%nat)
  ∧ (∃ n n',
    reflexagent._bfs_accessible_spaces fuel g start_x start_y = Ok n
    ∧ reflexagent._bfs_accessible_spaces fuel (with_obstacle g ox oy) start_x start_y
      = Ok n'
    ∧ (n' ≤ n)%nat).
Proof.
  intros Hc Hfuel Hfuel'.
  split; [|split;
    [by apply count_available_space_dfs_antitone|apply accessible_antitone; [done|lia]]].
  destruct (count_available_space_spec g (start_x, start_y) max_depth Hc fuel Hfuel)
    as (cells & He & Hnd & Hcells).
  destruct (count_available_space_spec (with_obstacle g ox oy) (start_x, start_y)
              max_depth (with_obstacle_consistent g ox oy Hc) fuel Hfuel)
    as (cells' & He' & Hnd' & Hcells').
  exists (length cells), (length cells'). split; [exact He|]. split; [exact He'|].
  apply submseteq_length, NoDup_submseteq; [done|].
  intros c Hin. apply Hcells. apply Hcells' in Hin as (k & Hk & Hr).
  exists k. split; [done|]. eapply reach_mono; [|exact Hr].
  intros c'. by apply passable_with_obstacle.
Qed.

Lemma flood_fill_antitone_witness :
  let g := mkGame (Snake.mk down 3 [160; 160; 160] [120; 80; 40]) 320 560 display in
  (∃ n n',
    ai._count_available_space 402 g 200 120 8 = Ok n
    ∧ ai._count_available_space 402 (with_obstacle g 240 120) 200 120 8 = Ok n'
    ∧ (n' ≤ n)%nat)
  ∧ (∃ n n',
    allagents.GoalBasedAgent.count_available_space 402 g 200 120 = Ok n
    ∧ allagents.GoalBasedAgent.count_available_space 402 (with_obstacle g 240 120)
        200 120 = Ok n'
    ∧ (n' ≤ n)%nat)
  ∧ (∃ n n',
    reflexagent._bfs_accessible_spaces 402 g 200 120 = Ok n
    ∧ reflexagent._bfs_accessible_spaces 402 (with_obstacle g 240 120) 200 120 = Ok n'
    ∧ (n' ≤ n)%nat).
Proof.
  intros g. apply (flood_fill_antitone g 240 120 200 120 8 402).
  - split; reflexivity.
  - simpl. lia.
  - lia.
Defined.

(** ** ai.py: the fallback of the search agent *)

Lemma path_end_passable g start d c n : path g start d c n → passable 1 g c = true.
Proof. induction 1; done. Qed.

Section fallback_proofs.

Variable math_sqrt : Z → Q.
Variable g : Game.
Hypothesis snake_consistent : Snake.consistent (snake g).

Lemma min_body_distance_total (next_x next_y : Z) (idx : list nat) : ∀ acc,
  (∀ i, i ∈ idx → (i < Snake.length (snake g))%nat) →
  ∃ r, ai.min_body_distance math_sqrt (snake g) next_x next_y idx acc = Ok r.
Proof.
  induction idx as [|i idx IH]; intros acc Hidx; simpl; [eauto|].
  destruct (segment_lookup (snake g) i snake_consistent) as (xi & yi & Hxi & Hyi & _).
  { apply Hidx. by left. }
  unfold getitem. rewrite Hxi, Hyi. simpl. apply IH.
  intros j Hj. apply Hidx. by right.
Qed.

Lemma utility_score_total (fuel : nat) (next_x next_y ax ay : Z) :
  (289 < fuel)%nat →
  ∃ score, ai._utility_score math_sqrt fuel g next_x next_y ax ay = Ok score.
Proof.
  intros Hfuel. unfold ai._utility_score.
  destruct (min_body_distance_total next_x next_y
              (range 1 (Snake.length (snake g))) None) as [mbd ->].
  { intros i Hi. apply range_lt in Hi. lia. }
  cbn [mbind result_bind].
  destruct (count_available_space_spec g (next_x, next_y) 8 snake_consistent fuel)
    as (cells & He & _); [simpl; lia|].
  simpl in He. rewrite He. cbn [mbind result_bind]. eauto.
Qed.

Lemma best_scored_total (fuel : nat) (head : cell) (vds : list Direction) :
  (289 < fuel)%nat →
  ∀ best score, ∃ r, ai.best_scored math_sqrt fuel g head vds best score = Ok r.
Proof.
  intros Hfuel. induction vds as [|d vds IH]; intros best score; simpl; [eauto|].
  destruct (utility_score_total fuel (head.1 + (direction_moves d).1)
              (head.2 + (direction_moves d).2) (apple_x g) (apple_y g) Hfuel)
    as [sc ->].
  cbn [mbind result_bind]. destruct (Qltb score sc); apply IH.
Qed.

Lemma safety_first_total (fuel : nat) (hx hy : Z) (vds : list Direction) :
  Snake.segment (snake g) 0 = Some (hx, hy) → (289 < fuel)%nat →
  ∃ g', ai._safety_first_agent math_sqrt fuel g vds = Ok g'.
Proof.
  intros Hhead Hfuel. apply head_segment in Hhead as [Hx Hy].
  unfold ai._safety_first_agent. rewrite Hx, Hy. cbn [mbind result_bind].
  destruct (best_scored_total fuel (hx, hy) vds Hfuel None (-1)) as [r ->].
  cbn [mbind result_bind]. eauto.
Qed.

End fallback_proofs.

(** C7. When no path leads from the head to the apple, [_bfs_pathfind]
    returns [None] and never a direction, and [smart_agent_bfs] returns
    normally: with a valid direction at hand its result is that of the
    fallback [_safety_first_agent]; with none it leaves the game as it is. *)
Theorem bfs_unreachable_falls_back (math_sqrt : Z → Q) (g : Game) (fuel : nat)
    (hx hy : Z) :
  Snake.consistent (snake g) →
  Snake.segment (snake g) 0 = Some (hx, hy) →
  (962 ≤ fuel)%nat →
  (∀ d n, ¬ path g (hx, hy) d (apple_x g, apple_y g) n) →
  ∃ vds g',
    ai.safe_directions g (hx, hy) ai.directions = Ok vds
    ∧ ai._bfs_pathfind fuel g hx hy (apple_x g) (apple_y g) vds = Ok None
    ∧ ai.smart_agent_bfs math_sqrt fuel g = Ok g'
    ∧ (vds = [] → g' = g)
    ∧ (vds ≠ [] → ai._safety_first_agent math_sqrt fuel g vds = Ok g').
Proof.
  intros Hc Hhead Hfuel Hno.
  destruct (safe_directions_spec g (hx, hy) ai.directions Hc directions_nodup)
    as (vds & Hsafe & Hnd & Hvds).
  destruct (bfs_pathfind_spec g (hx, hy) (apple_x g, apple_y g) vds Hc fuel Hnd)
    as (r & Hr & Hpost).
  { intros d Hd. by apply Hvds in Hd as (_ & _ & ?). }
  { unfold ai.max_depth. lia. }
  simpl in Hr. destruct r as [d|].
  { destruct Hpost as (m & _ & Hp & _). by apply Hno in Hp. }
  destruct (safety_first_total math_sqrt g Hc fuel hx hy vds Hhead) as [g1 Hg1]; [lia|].
  pose proof Hhead as Hh. apply head_segment in Hh as [Hx Hy].
  exists vds. unfold ai.smart_agent_bfs. rewrite Hx, Hy. cbn [mbind result_bind].
  rewrite Hsafe. cbn [mbind result_bind].
  destruct vds as [|d vds].
  - exists g. repeat split; done.
  - rewrite Hr. cbn [mbind result_bind]. exists g1. repeat split; done.
Qed.

Lemma bfs_unreachable_falls_back_witness :
  let g := mkGame (Snake.mk down 3 [160; 160; 160] [120; 80; 40]) 160 80 display in
  let math_sqrt := λ z, inject_Z (Z.sqrt z) in
  ∃ vds g',
    ai.safe_directions g (160, 120) ai.directions = Ok vds
    ∧ ai._bfs_pathfind 962 g 160 120 160 80 vds = Ok None
    ∧ ai.smart_agent_bfs math_sqrt 962 g = Ok g'
    ∧ (vds = [] → g' = g)
    ∧ (vds ≠ [] → ai._safety_first_agent math_sqrt 962 g vds = Ok g').
Proof.
  intros g math_sqrt.
  apply (bfs_unreachable_falls_back math_sqrt g 962 160 120).
  - split; reflexivity.
  - reflexivity.
  - lia.
  - intros d n Hp. apply path_end_passable in Hp. vm_compute in Hp. discriminate.
Defined.

Lemma walk_invariant_witness :
  ∃ s', Snake.walk (Snake.mk left 3 [80; 120; 160] [40; 40; 40]) = Ok s'
    ∧ Snake.direction s' = left
    ∧ Snake.length s' = 3%nat
    ∧ Snake.consistent s'
    ∧ (∀ i, (0 < i < 3)%nat →
         Snake.segment s' i
         = Snake.segment (Snake.mk left 3 [80; 120; 160] [40; 40; 40]) (i - 1))
    ∧ (∃ hx hy,
         Snake.segment (Snake.mk left 3 [80; 120; 160] [40; 40; 40]) 0 = Some (hx, hy)
         ∧ Snake.segment s' 0 = Some (hx - SIZE, hy)).
Proof.
  apply (walk_invariant (Snake.mk left 3 [80; 120; 160] [40; 40; 40])).
  - split; reflexivity.
  - simpl. lia.
Defined.

(** ** learning.py: the update of the Q-table *)

Lemma direction_map_rev_total (n : Z) :
  0 ≤ n ≤ 3 → ∃ d, learning.direction_map_rev n = Ok d.
Proof.
  intros Hn. unfold learning.direction_map_rev.
  repeat case_decide; eauto. lia.
Qed.

(** The actions kept by [get_valid_actions_for_state] are those that do not
    reverse the heading of the state and whose danger bit is 0. *)
Lemma valid_from_spec (current : Direction) (dangers : Z * Z * Z * Z) :
  ∃ valid, learning.valid_from current dangers 0 learning.actions = Ok valid
    ∧ ∀ i, i ∈ valid ↔
        ∃ name, learning.actions !! i = Some name
              ∧ name ≠ opposite current
              ∧ learning.tuple4_item dangers i = Ok 0.
Proof.
  destruct dangers as [[[a b] c] d]. unfold learning.actions.
  destruct current; cbn;
    destruct (decide (a = 0)) as [->|?], (decide (b = 0)) as [->|?],
             (decide (c = 0)) as [->|?], (decide (d = 0)) as [->|?];
    (eexists; split; [reflexivity|]);
    intros i; (split;
      [ intros Hi;
        repeat (apply elem_of_cons in Hi as [->|Hi]);
        try (by apply elem_of_nil in Hi);
        (eexists; split; [reflexivity|]; split; [discriminate|reflexivity])
      | intros (name & Hname & Hne & Hd);
        destruct i as [|[|[|[|i]]]]; cbn in Hname, Hd; simplify_eq;
        set_solver ]).
Qed.

Lemma ensure_row_self (table : gmap learning.State (list Q)) (key : learning.State) :
  ∃ row, learning.ensure_row table key !! key = Some row
    ∧ (table !! key = Some row
       ∨ (table !! key = None ∧ row = replicate learning.n_actions 0%Q)).
Proof.
  unfold learning.ensure_row. destruct (table !! key) as [row|] eqn:E.
  - exists row. split; [done|]. by left.
  - eexists. rewrite lookup_insert_eq. split; [done|]. by right.
Qed.

Lemma ensure_row_keeps (table : gmap learning.State (list Q)) (key k : learning.State) row :
  table !! k = Some row → learning.ensure_row table key !! k = Some row.
Proof.
  intros Hk. unfold learning.ensure_row. destruct (table !! key) eqn:E; [done|].
  rewrite lookup_insert_ne; [done|]. intros ->. congruence.
Qed.

Lemma ensure_row_wf (table : gmap learning.State (list Q)) (key : learning.State) :
  (∀ k row, table !! k = Some row → length row = learning.n_actions) →
  ∀ k row, learning.ensure_row table key !! k = Some row →
           length row = learning.n_actions.
Proof.
  intros Hwf k row. unfold learning.ensure_row.
  destruct (table !! key) eqn:E; [apply Hwf|].
  destruct (decide (key = k)) as [->|Hne].
  - rewrite lookup_insert_eq. intros [= <-]. reflexivity.
  - rewrite lookup_insert_ne by done. apply Hwf.
Qed.

Lemma gather_total (row : list Q) (idx : list nat) :
  (∀ i, i ∈ idx → (i < length row)%nat) →
  learning.gather row idx = Ok (omap (λ i, row !! i) idx).
Proof.
  induction idx as [|i idx IH]; intros Hidx; simpl; [done|].
  destruct (lookup_lt_is_Some_2 row i) as [v Hv]; [apply Hidx; by left|].
  unfold getitem. rewrite Hv. simpl. rewrite IH; [done|].
  intros j Hj. apply Hidx. by right.
Qed.

Lemma learning_update_spec (a : learning.QLearningAgent) (state : learning.State)
    (action : nat) (reward : Q) (next_state : learning.State) (done : bool) :
  (∀ k row, learning.q_table a !! k = Some row → length row = learning.n_actions) →
  (action < learning.n_actions)%nat →
  0 ≤ next_state.2 ≤ 3 →
  ∃ row next_row valid q,
    let table := learning.ensure_row (learning.ensure_row (learning.q_table a) state)
                   next_state in
    table !! state = Some row
    ∧ table !! next_state = Some next_row
    ∧ row !! action = Some q
    ∧ learning.get_valid_actions_for_state next_state = Ok valid
    ∧ (∀ i, i ∈ valid ↔
         ∃ name heading, learning.actions !! i = Some name
           ∧ learning.direction_map_rev next_state.2 = Ok heading
           ∧ name ≠ opposite heading
           ∧ learning.tuple4_item next_state.1.2 i = Ok 0)
    ∧ learning.update_q_table a state action reward next_state done
      = Ok (learning.set_q_table a
              (<[state :=
                   <[action :=
                       q_step (learning.learning_rate a) q
                         (q_target (learning.discount_factor a) reward done
                            (match valid with
                             | [] => 0%Q
                             | _ => pymax_list 0 (omap (λ i, next_row !! i) valid)
                             end))]> row]> table)).
Proof.
  intros Hwf Haction Hdir.
  set (t1 := learning.ensure_row (learning.q_table a) state).
  set (table := learning.ensure_row t1 next_state).
  destruct (ensure_row_self (learning.q_table a) state) as (row & Hrow1 & _).
  pose proof (ensure_row_keeps t1 next_state state row Hrow1) as Hrow.
  destruct (ensure_row_self t1 next_state) as (next_row & Hnext & _).
  fold table in Hrow, Hnext.
  assert (Hwf2 : ∀ k r, table !! k = Some r → length r = learning.n_actions).
  { apply ensure_row_wf. by apply ensure_row_wf. }
  destruct (lookup_lt_is_Some_2 row action) as [q Hq]; [by rewrite (Hwf2 _ _ Hrow)|].
  destruct next_state as [[[rx ry] dangers] dir]. simpl in Hdir.
  destruct (direction_map_rev_total dir Hdir) as [heading Hheading].
  destruct (valid_from_spec heading dangers) as (valid & Hvalid & Hlegal).
  exists row, next_row, valid, q. cbn zeta.
  split; [done|]. split; [done|]. split; [done|].
  assert (Hget : learning.get_valid_actions_for_state (rx, ry, dangers, dir) = Ok valid).
  { unfold learning.get_valid_actions_for_state. rewrite Hheading. exact Hvalid. }
  split; [done|]. split.
  { intros i. rewrite Hlegal. simpl. split.
    - intros (name & ? & ? & ?). by exists name, heading.
    - intros (name & heading' & ? & Hh & ? & ?). rewrite Hheading in Hh.
      injection Hh as <-. by exists name. }
  unfold learning.update_q_table. fold t1. fold table.
  unfold learning.row_of. rewrite Hrow. cbn [mbind result_bind].
  unfold getitem at 1. rewrite Hq. cbn [mbind result_bind].
  assert (Hset : ∀ v, setitem row action v = Ok (<[action := v]> row)).
  { intros v. unfold setitem. rewrite (Hwf2 _ _ Hrow).
    destruct (decide (action < learning.n_actions)%nat); [done|lia]. }
  destruct done; cbn [mbind result_bind].
  { rewrite Hset. done. }
  rewrite Hget. cbn [mbind result_bind].
  destruct valid as [|i valid]; cbn [mbind result_bind].
  { rewrite Hset. done. }
  rewrite Hnext. cbn [mbind result_bind].
  rewrite gather_total.
  2:{ intros j Hj. apply Hlegal in Hj as (name & Hname & _).
      rewrite (Hwf2 _ _ Hnext). apply lookup_lt_Some in Hname. exact Hname. }
  cbn [mbind result_bind]. rewrite Hset. done.
Qed.

Lemma simplereflex_update_spec (l : simplereflex.Learner) (state : simplereflex.State)
    (action : Direction) (reward : Q) (next_state : option simplereflex.State)
    (terminal : bool) :
  let l' := simplereflex._update_q_table l state action reward next_state terminal in
  simplereflex.q_table l' !! (state, action)
  = Some (if terminal then reward
          else q_step (simplereflex.alpha l)
                 (simplereflex.q_get (simplereflex.q_table l) (Some state) action)
                 (q_target (simplereflex.gamma l) reward false
                    (pymax_list 0
                       (simplereflex.q_get (simplereflex.q_table l) next_state
                          <$> [left; right; up; down]))))
  ∧ ∀ key, key ≠ (state, action) →
      simplereflex.q_table l' !! key = simplereflex.q_table l !! key.
Proof.
  cbn zeta. unfold simplereflex._update_q_table. cbn [simplereflex.q_table]. split.
  - rewrite lookup_insert_eq. destruct terminal; reflexivity.
  - intros key Hkey. by rewrite lookup_insert_ne.
Qed.

(** C2, the counterexample: in simplereflex.py the maximum runs over all four
    actions.  From the next state the action [down] reverses the heading and
    is flagged dangerous, yet its Q-value 100 enters the update: the stored
    value is 8.9, where the rule with the maximum over legal actions gives
    -0.1. *)
Lemma update_uses_illegal_action :
  let s' : simplereflex.State :=
    (false, false, false, false, false, false, false, true, up) in
  let s : simplereflex.State :=
    (false, false, false, false, false, false, false, false, up) in
  let l := simplereflex.mkLearner {[(s', down) := 100%Q]} (1 # 10) (9 # 10) in
  let legal_max :=
    pymax_list 0 (simplereflex.q_get (simplereflex.q_table l) (Some s')
                    <$> filter (λ a, legal s' a = true) [left; right; up; down]) in
  legal s' down = false
  ∧ ∃ v, simplereflex.q_table
           (simplereflex._update_q_table l s left (-1) (Some s') false) !! (s, left)
         = Some v
       ∧ (v == 89 # 10)%Q
       ∧ (q_step (1 # 10) 0 (q_target (9 # 10) (-1) false legal_max) == - (1 # 10))%Q
       ∧ ¬ (v == q_step (1 # 10) 0 (q_target (9 # 10) (-1) false legal_max))%Q.
Proof.
  cbn zeta. split; [reflexivity|].
  eexists. split; [vm_compute; reflexivity|].
  split; [reflexivity|]. split; [reflexivity|].
  intros H. vm_compute in H. discriminate.
Qed.

(** C2, amended.  [update_q_table] of learning.py stores
    [Q(s,a) + alpha * (target - Q(s,a))] where the target is [r] on a
    terminal transition and otherwise [r + gamma * m], [m] being the maximum
    of [Q(s',a')] over the actions that do not reverse the heading of [s']
    and whose danger bit is 0, and 0 when no action is legal; unseen states
    start from a row of zeros.  [_update_q_table] of simplereflex.py takes
    the maximum over all four actions, and on a terminal transition it
    stores a value computed from [r] alone. *)
Theorem q_update_rule (a : learning.QLearningAgent) (state : learning.State)
    (action : nat) (reward : Q) (next_state : learning.State) (done : bool)
    (l : simplereflex.Learner) (st : simplereflex.State) (act : Direction)
    (r : Q) (next_st : option simplereflex.State) (terminal : bool) :
  (∀ k row, learning.q_table a !! k = Some row → length row = learning.n_actions) →
  (action < learning.n_actions)%nat →
  0 ≤ next_state.2 ≤ 3 →
  (∃ row next_row valid q,
    let table := learning.ensure_row (learning.ensure_row (learning.q_table a) state)
                   next_state in
    table !! state = Some row
    ∧ table !! next_state = Some next_row
    ∧ row !! action = Some q
    ∧ learning.get_valid_actions_for_state next_state = Ok valid
    ∧ (∀ i, i ∈ valid ↔
         ∃ name heading, learning.actions !! i = Some name
           ∧ learning.direction_map_rev next_state.2 = Ok heading
           ∧ name ≠ opposite heading
           ∧ learning.tuple4_item next_state.1.2 i = Ok 0)
    ∧ learning.update_q_table a state action reward next_state done
      = Ok (learning.set_q_table a
              (<[state :=
                   <[action :=
                       q_step (learning.learning_rate a) q
                         (q_target (learning.discount_factor a) reward done
                            (match valid with
                             | [] => 0%Q
                             | _ => pymax_list 0 (omap (λ i, next_row !! i) valid)
                             end))]> row]> table)))
  ∧ (let l' := simplereflex._update_q_table l st act r next_st terminal in
     simplereflex.q_table l' !! (st, act)
     = Some (if terminal then r
             else q_step (simplereflex.alpha l)
                    (simplereflex.q_get (simplereflex.q_table l) (Some st) act)
                    (q_target (simplereflex.gamma l) r false
                       (pymax_list 0
                          (simplereflex.q_get (simplereflex.q_table l) next_st
                             <$> [left; right; up; down]))))
     ∧ ∀ key, key ≠ (st, act) →
         simplereflex.q_table l' !! key = simplereflex.q_table l !! key).
Proof.
  intros Hwf Haction Hdir. split.
  - by apply learning_update_spec.
  - apply simplereflex_update_spec.
Qed.

Lemma q_update_rule_witness :
  let s : learning.State := (1, 0, (0, 0, 1, 0), 3) in
  let s' : learning.State := (0, 0, (0, 1, 1, 0), 0) in
  let st : simplereflex.State :=
    (false, false, false, false, false, false, false, false, up) in
  ∃ a', learning.update_q_table learning.init s 3 10 s' false = Ok a'
      ∧ is_Some (simplereflex.q_table
                   (simplereflex._update_q_table simplereflex.init st left (-1) None true)
                 !! (st, left)).
Proof.
  intros s s' st.
  destruct (q_update_rule learning.init s 3 10 s' false
              simplereflex.init st left (-1) None true)
    as [(row & next_row & valid & q & _ & _ & _ & _ & _ & Hupd) [Hstored _]].
  - intros k row H. change (learning.q_table learning.init) with (∅ : gmap learning.State (list Q)) in H.
    by rewrite lookup_empty in H.
  - unfold learning.n_actions. simpl. lia.
  - simpl. lia.
  - eexists. split; [exact Hupd|]. rewrite Hstored. eauto.
Defined.

(** ** The decay of epsilon *)

Lemma Qltb_lt (a b : Q) : Qltb a b = true ↔ (a < b)%Q.
Proof.
  unfold Qltb. rewrite negb_true_iff. split.
  - intros H. apply Qnot_le_lt. intros Hle. apply Qle_bool_iff in Hle. congruence.
  - intros H. destruct (Qle_bool b a) eqn:E; [|done].
    apply Qle_bool_iff in E. exfalso. by apply (Qlt_not_le a b).
Qed.

Lemma Qltb_ge (a b : Q) : Qltb a b = false ↔ (b <= a)%Q.
Proof.
  unfold Qltb. rewrite negb_false_iff. apply Qle_bool_iff.
Qed.

(** Once epsilon is at or below the minimum, [train_episode] leaves it
    where it is. *)
Lemma decay_epsilon_stuck (a : learning.QLearningAgent) (k : nat) :
  (learning.epsilon a <= learning.epsilon_min a)%Q →
  Nat.iter k learning.decay_epsilon a = a.
Proof.
  intros Hle. induction k as [|k IH]; simpl; [done|]. rewrite IH.
  unfold learning.decay_epsilon. apply Qltb_ge in Hle. by rewrite Hle.
Qed.

(** The step that crosses the floor: the guard compares before the
    multiplication, so nothing holds the product above the minimum. *)
Lemma decay_epsilon_crosses (a : learning.QLearningAgent) :
  (learning.epsilon_min a < learning.epsilon a)%Q →
  (learning.epsilon a * learning.epsilon_decay a < learning.epsilon_min a)%Q →
  (learning.epsilon (learning.decay_epsilon a)
   < learning.epsilon_min (learning.decay_epsilon a))%Q.
Proof.
  intros Hgt Hlt. unfold learning.decay_epsilon.
  apply Qltb_lt in Hgt. rewrite Hgt. simpl. exact Hlt.
Qed.

(** The decay of allagents.py, [max(min_epsilon, epsilon * epsilon_decay)],
    keeps the floor. *)
Lemma pymax_floor (lo v : Q) : (lo <= pymax lo v)%Q.
Proof.
  unfold pymax. destruct (Qltb lo v) eqn:E.
  - apply Qltb_lt in E. by apply Qlt_le_weak.
  - apply Qle_refl.
Qed.

(** The powers of the default decay 0.999 against the default minimum 0.01,
    evaluated on machine integers. *)
Lemma pow_gap :
  1000 ^ Z.of_nat 4602 < 999 ^ Z.of_nat 4602 * 100
  ∧ 999 ^ Z.of_nat 4603 * 100 < 1000 ^ Z.of_nat 4603.
Proof.
  assert (H1 : BigZ.ltb (BigZ.pow 1000 4602) (BigZ.mul (BigZ.pow 999 4602) 100) = true)
    by (vm_compute; reflexivity).
  assert (H2 : BigZ.ltb (BigZ.mul (BigZ.pow 999 4603) 100) (BigZ.pow 1000 4603) = true)
    by (vm_compute; reflexivity).
  rewrite BigZ.spec_ltb, BigZ.spec_mul, !BigZ.spec_pow in H1, H2.
  apply Z.ltb_lt in H1, H2.
  change (BigZ.to_Z 4602) with (Z.of_nat 4602) in H1.
  change (BigZ.to_Z 4603) with (Z.of_nat 4603) in H2.
  change (BigZ.to_Z 1000) with 1000 in H1, H2.
  change (BigZ.to_Z 999) with 999 in H1, H2.
  change (BigZ.to_Z 100) with 100 in H1, H2.
  split; [exact H1 | exact H2].
Qed.

Lemma pow_gap_down (n m : nat) :
  (m ≤ n)%nat →
  1000 ^ Z.of_nat n < 999 ^ Z.of_nat n * 100 →
  1000 ^ Z.of_nat m < 999 ^ Z.of_nat m * 100.
Proof.
  induction 1 as [|n Hle IH]; [done|]. intros H. apply IH.
  rewrite Nat2Z.inj_succ, !Z.pow_succ_r in H by lia.
  assert (0 < 1000 ^ Z.of_nat n) by (apply Z.pow_pos_nonneg; lia).
  lia.
Qed.

(** As long as the guard holds, the default agent's epsilon after [n]
    episodes is [999^n / 1000^n]. *)
Lemma decay_init_iter (n : nat) :
  (∀ i, (i < n)%nat → 1000 ^ Z.of_nat i < 999 ^ Z.of_nat i * 100) →
  Nat.iter n learning.decay_epsilon learning.init
  = learning.set_epsilon learning.init
      (Qmake (999 ^ Z.of_nat n) (Z.to_pos (1000 ^ Z.of_nat n))).
Proof.
  induction n as [|n IH]; intros Hguard; [reflexivity|].
  rewrite Nat.iter_succ. rewrite IH by (intros i Hi; apply Hguard; lia).
  assert (Hpos : 0 < 1000 ^ Z.of_nat n) by (apply Z.pow_pos_nonneg; lia).
  unfold learning.decay_epsilon.
  cbn [learning.set_epsilon learning.epsilon learning.epsilon_min
       learning.epsilon_decay learning.init learning.learning_rate
       learning.discount_factor learning.q_table].
  replace (Qltb (1 # 100) (Qmake (999 ^ Z.of_nat n) (Z.to_pos (1000 ^ Z.of_nat n))))
    with true.
  2:{ symmetry. apply Qltb_lt. unfold Qlt. cbn [Qnum Qden].
      rewrite Z2Pos.id by done. specialize (Hguard n). lia. }
  unfold learning.set_epsilon. cbn [learning.learning_rate learning.discount_factor
    learning.epsilon_decay learning.epsilon_min learning.q_table].
  f_equal. unfold Qmult. cbn [Qnum Qden].
  rewrite Nat2Z.inj_succ, !Z.pow_succ_r by lia. f_equal; [lia|].
  rewrite (Z.mul_comm 1000). rewrite Z2Pos.inj_mul by lia. done.
Qed.

(** One episode after the last one that passes the guard, epsilon is below
    the minimum for good. *)
Lemma epsilon_below_after (n : nat) :
  1000 ^ Z.of_nat n < 999 ^ Z.of_nat n * 100 →
  999 ^ Z.of_nat (S n) * 100 < 1000 ^ Z.of_nat (S n) →
  let a := Nat.iter (S n) learning.decay_epsilon learning.init in
  (learning.epsilon a < learning.epsilon_min a)%Q
  ∧ learning.epsilon_min a = (1 # 100)%Q
  ∧ ∀ k, Nat.iter k learning.decay_epsilon a = a.
Proof.
  intros Hup Hdown a.
  assert (Ha : a = learning.set_epsilon learning.init
                     (Qmake (999 ^ Z.of_nat (S n)) (Z.to_pos (1000 ^ Z.of_nat (S n))))).
  { apply decay_init_iter. intros i Hi. apply (pow_gap_down n); [lia|exact Hup]. }
  assert (Hpos : 0 < 1000 ^ Z.of_nat (S n)) by (apply Z.pow_pos_nonneg; lia).
  assert (Hlt : (learning.epsilon a < learning.epsilon_min a)%Q).
  { rewrite Ha. unfold learning.set_epsilon.
    cbn [learning.epsilon learning.epsilon_min learning.init].
    unfold Qlt. cbn [Qnum Qden]. rewrite Z2Pos.id by exact Hpos.
    generalize dependent (999 ^ Z.of_nat (S n)).
    generalize dependent (1000 ^ Z.of_nat (S n)). intros. lia. }
  split; [done|]. split; [by rewrite Ha|].
  intros k. apply decay_epsilon_stuck. by apply Qlt_le_weak.
Qed.

(** C4, the failing input: the agent as [QLearningAgent.__init__] builds it
    (epsilon 1.0, decay 0.999, minimum 0.01).  After 4603 episodes, fewer than
    the 10000 one training run lasts, epsilon is strictly below
    [epsilon_min], and it stays there for ever. *)
Theorem epsilon_drops_below_minimum :
  let a := Nat.iter 4603 learning.decay_epsilon learning.init in
  (learning.epsilon a < learning.epsilon_min a)%Q
  ∧ learning.epsilon_min a = (1 # 100)%Q
  ∧ ∀ k, Nat.iter k learning.decay_epsilon a = a.
Proof.
  exact (epsilon_below_after 4602 (proj1 pow_gap) (proj2 pow_gap)).
Qed.

(** ** Rewards *)

Lemma pymax_0_bounds (v : Q) :
  (0 <= pymax 0 v)%Q ∧ ((v <= 2)%Q → (pymax 0 v <= 2)%Q).
Proof.
  split; [apply pymax_floor|]. intros Hv. unfold pymax.
  destruct (Qltb 0 v); [done|]. discriminate.
Qed.

Lemma manhattan_nonneg (x1 y1 x2 y2 : Z) :
  0 ≤ allagents._calculate_manhattan_distance x1 y1 x2 y2.
Proof.
  unfold allagents._calculate_manhattan_distance, SIZE.
  pose proof (Z.div_pos (Z.abs (x2 - x1)) 40). pose proof (Z.div_pos (Z.abs (y2 - y1)) 40).
  lia.
Qed.

Lemma getlast_total {A} (l : list A) :
  (1 ≤ length l)%nat → ∃ v, allagents.getlast l = Ok v.
Proof.
  intros Hl. unfold allagents.getlast. destruct (last l) eqn:E; [eauto|].
  apply last_None in E. subst l. simpl in Hl. lia.
Qed.

Lemma head_total (s : Snake.t) :
  Snake.consistent s → (1 ≤ Snake.length s)%nat →
  ∃ hx hy, Snake.segment s 0 = Some (hx, hy)
    ∧ getitem (Snake.x s) 0 = Ok hx ∧ getitem (Snake.y s) 0 = Ok hy.
Proof.
  intros Hc Hl. destruct (segment_lookup s 0 Hc) as (hx & hy & Hx & Hy & Hseg); [lia|].
  exists hx, hy. unfold getitem. rewrite Hx, Hy. done.
Qed.

(** The reward of allagents.py after an apple: 100 and the shaping terms. *)
Lemma allagents_apple_reward (a : allagents.LearningAgent.t) (g : Game) :
  Snake.consistent (snake g) → (1 ≤ Snake.length (snake g))%nat →
  allagents.LearningAgent.last_score a < Z.of_nat (Snake.length (snake g)) - 1 →
  ∃ r a', allagents.LearningAgent.get_reward a g = Ok (r, a')
    ∧ (90 <= r)%Q ∧ (r <= 102)%Q.
Proof.
  intros Hc Hl Hscore. pose proof Hc as [Hx Hy].
  destruct (head_total _ Hc Hl) as (hx & hy & _ & Hhx & Hhy).
  destruct (getlast_total (Snake.x (snake g))) as [tx Htx]; [lia|].
  destruct (getlast_total (Snake.y (snake g))) as [ty Hty]; [lia|].
  unfold allagents.LearningAgent.get_reward.
  rewrite Hhx, Hhy. cbn [mbind result_bind].
  destruct (decide (Z.of_nat (Snake.length (snake g)) - 1
                    > allagents.LearningAgent.last_score a)); [|lia].
  set (d := allagents._calculate_manhattan_distance hx hy (apple_x g) (apple_y g)).
  assert (Hd : (0 <= inject_Z d)%Q).
  { change 0%Q with (inject_Z 0). rewrite <- Zle_Qle. apply manhattan_nonneg. }
  destruct (pymax_0_bounds (2 - inject_Z d * (1 # 2))) as [Hlo Hhi].
  assert (Hhi' : (pymax 0 (2 - inject_Z d * (1 # 2)) <= 2)%Q) by (apply Hhi; lra).
  set (m := pymax 0 (2 - inject_Z d * (1 # 2))) in *.
  rewrite Htx, Hty.
  repeat case_decide; cbn [mbind result_bind]; repeat case_decide;
    (eexists; eexists; split; [reflexivity|]; split; lra).
Qed.

(** C3, the counterexample: the learning agent of allagents.py has just
    eaten the apple at the left wall; the next apple is far away.  The
    reward is 100 and the wall penalty: 95. *)
Lemma apple_reward_below_100 :
  let g := mkGame (Snake.mk left 2 [0; -1] [120; -1]) 400 400 display in
  let a := allagents.LearningAgent.init in
  allagents.LearningAgent.last_score a < Z.of_nat (Snake.length (snake g)) - 1
  ∧ ∃ r a', allagents.LearningAgent.get_reward a g = Ok (r, a')
       ∧ (r == 95)%Q ∧ (r < 100)%Q.
Proof.
  cbn zeta. split; [simpl; lia|].
  assert (H : ∀ a, allagents.LearningAgent.last_score a = 0 →
            allagents.LearningAgent.get_reward a
              (mkGame (Snake.mk left 2 [0; -1] [120; -1]) 400 400 display)
            = Ok ((100 + pymax 0 (2 - inject_Z 17 * (1 # 2)) - 5)%Q,
                  allagents.LearningAgent.set_last_score a 1)).
  { intros a Ha. unfold allagents.LearningAgent.get_reward. rewrite Ha. reflexivity. }
  eexists. eexists. split; [apply H; reflexivity|]. split; reflexivity.
Qed.

(** C3, amended.  In learning.py a collision is rewarded with -500 and an
    apple eaten without a collision with 1000.  In allagents.py the reward
    after an apple is 100 plus the shaping terms, between 90 and 102, and
    [get_reward] has no collision term. *)
Theorem rewards_of_goal_and_collision (g : Game) (old_state new_state : learning.State)
    (action : nat) (ate_apple : bool) (a : allagents.LearningAgent.t) (g' : Game) :
  Snake.consistent (snake g') → (1 ≤ Snake.length (snake g'))%nat →
  allagents.LearningAgent.last_score a < Z.of_nat (Snake.length (snake g')) - 1 →
  learning.get_reward g old_state action new_state true ate_apple = Ok (-500)
  ∧ learning.get_reward g old_state action new_state false true = Ok 1000
  ∧ ∃ r a', allagents.LearningAgent.get_reward a g' = Ok (r, a')
      ∧ (90 <= r)%Q ∧ (r <= 102)%Q.
Proof.
  intros Hc Hl Hscore. split; [reflexivity|]. split; [reflexivity|].
  by apply allagents_apple_reward.
Qed.

Lemma rewards_of_goal_and_collision_witness :
  let g := mkGame (Snake.mk left 2 [0; -1] [120; -1]) 400 400 display in
  let s : learning.State := (1, 0, (0, 0, 1, 0), 2) in
  learning.get_reward g s 2 s true false = Ok (-500)
  ∧ learning.get_reward g s 2 s false true = Ok 1000
  ∧ ∃ r a', allagents.LearningAgent.get_reward allagents.LearningAgent.init g = Ok (r, a')
      ∧ (90 <= r)%Q ∧ (r <= 102)%Q.
Proof.
  intros g s.
  apply (rewards_of_goal_and_collision g s s 2 false allagents.LearningAgent.init g).
  - split; reflexivity.
  - simpl. lia.
  - simpl. lia.
Defined.

(** ** allagents.py: the learning agent and the unbound name *)

Lemma potential_move_passable_xy (g : Game) (px py : Z) :
  Snake.consistent (snake g) →
  _is_potential_move_colliding g px py = Ok (negb (passable 1 g (px, py))).
Proof. intros Hc. apply (potential_move_passable g (px, py) Hc). Qed.

Lemma potential_head_ok (g : Game) (hx hy : Z) (d : Direction) :
  getitem (Snake.x (snake g)) 0 = Ok hx → getitem (Snake.y (snake g)) 0 = Ok hy →
  _get_potential_head g d
  = Ok (hx + (direction_moves d).1, hy + (direction_moves d).2).
Proof. intros Hx Hy. unfold _get_potential_head. rewrite Hx, Hy. done. Qed.

Lemma danger_bit_total (g : Game) (d : Direction) :
  Snake.consistent (snake g) → (1 ≤ Snake.length (snake g))%nat →
  ∃ b, allagents.LearningAgent.danger_bit g d = Ok b.
Proof.
  intros Hc Hl. destruct (head_total _ Hc Hl) as (hx & hy & _ & Hx & Hy).
  unfold allagents.LearningAgent.danger_bit.
  rewrite (potential_head_ok g hx hy d Hx Hy). cbn [mbind result_bind].
  rewrite potential_move_passable_xy by done. cbn [mbind result_bind].
  eauto.
Qed.

Lemma get_state_total (g : Game) :
  Snake.consistent (snake g) → (1 ≤ Snake.length (snake g))%nat →
  ∃ st, allagents.LearningAgent.get_state g = Ok st.
Proof.
  intros Hc Hl. pose proof Hc as [Hx Hy].
  destruct (head_total _ Hc Hl) as (hx & hy & _ & Hhx & Hhy).
  destruct (getlast_total (Snake.x (snake g))) as [tx Htx]; [lia|].
  destruct (getlast_total (Snake.y (snake g))) as [ty Hty]; [lia|].
  unfold allagents.LearningAgent.get_state.
  rewrite Hhx, Hhy, Htx, Hty. cbn [mbind result_bind].
  destruct (danger_bit_total g left Hc Hl) as [b1 ->].
  destruct (danger_bit_total g right Hc Hl) as [b2 ->].
  destruct (danger_bit_total g up Hc Hl) as [b3 ->].
  destruct (danger_bit_total g down Hc Hl) as [b4 ->].
  cbn [mbind result_bind]. eauto.
Qed.

Lemma get_reward_total (a : allagents.LearningAgent.t) (g : Game) :
  Snake.consistent (snake g) → (1 ≤ Snake.length (snake g))%nat →
  ∃ r a', allagents.LearningAgent.get_reward a g = Ok (r, a')
    ∧ allagents.LearningAgent.last a' = allagents.LearningAgent.last a.
Proof.
  intros Hc Hl. pose proof Hc as [Hx Hy].
  destruct (head_total _ Hc Hl) as (hx & hy & _ & Hhx & Hhy).
  destruct (getlast_total (Snake.x (snake g))) as [tx Htx]; [lia|].
  destruct (getlast_total (Snake.y (snake g))) as [ty Hty]; [lia|].
  unfold allagents.LearningAgent.get_reward.
  rewrite Hhx, Hhy, Htx, Hty. cbn [mbind result_bind].
  destruct (decide (5 < Snake.length (snake g))%nat); cbn [mbind result_bind];
    eexists; eexists; (split; [reflexivity|done]).
Qed.

Lemma first_safe_total (g : Game) (ds : list Direction) :
  Snake.consistent (snake g) → (1 ≤ Snake.length (snake g))%nat →
  ∃ g', allagents.LearningAgent.first_safe g ds = Ok g'.
Proof.
  intros Hc Hl. destruct (head_total _ Hc Hl) as (hx & hy & _ & Hx & Hy).
  induction ds as [|d ds IH]; simpl; [eauto|].
  rewrite (potential_head_ok g hx hy d Hx Hy). cbn [mbind result_bind].
  rewrite potential_move_passable_xy by done. cbn [mbind result_bind].
  destruct (negb _); eauto.
Qed.

Lemma allowed_actions_lt (heading : Direction) (n : nat) :
  n ∈ allagents.LearningAgent.allowed_actions heading → (n < 4)%nat.
Proof.
  destruct heading; simpl; intros H;
    repeat (apply elem_of_cons in H as [->|H]; [lia|]); by apply elem_of_nil in H.
Qed.

Lemma choose_action_lt (rnd : allagents.LearningAgent.Draw)
    (a : allagents.LearningAgent.t) (g : Game) (st : allagents.LearningAgent.State) :
  (allagents.LearningAgent.choose_action rnd a g st < 4)%nat.
Proof.
  unfold allagents.LearningAgent.choose_action, allagents.LearningAgent.get_best_action.
  destruct (Qltb _ _).
  - destruct (_ !! _) as [n|] eqn:E; simpl; [|lia].
    apply (allowed_actions_lt (Snake.direction (snake g))).
    apply list_elem_of_lookup. eauto.
  - destruct (Snake.direction (snake g)); simpl;
      repeat (destruct (Qltb _ _); simpl); lia.
Qed.

Lemma update_q_table_raises (outer : gmap string allagents.LearningAgent.value)
    (a : allagents.LearningAgent.t) (old_state new_state : allagents.LearningAgent.State)
    (action : nat) (reward : Q) :
  outer !! "state"%string = None →
  allagents.LearningAgent.update_q_table outer a old_state action reward new_state
  = Raise NameError.
Proof.
  intros Houter. unfold allagents.LearningAgent.update_q_table,
    allagents.LearningAgent.load_global.
  replace (allagents.LearningAgent.module_globals !! "state"%string)
    with (@None allagents.LearningAgent.value) by (vm_compute; reflexivity).
  rewrite Houter. reflexivity.
Qed.

(** C10. The name [state] is bound neither in [update_q_table] nor at
    module level (nor, by hypothesis, by the star import and the builtins):
    every call raises NameError.  A first [make_move] (no previous state)
    completes and records its state; the next one reaches [update_q_table]
    and raises NameError, whatever the game state and the random draws. *)
Theorem update_q_table_always_raises_NameError
    (outer : gmap string allagents.LearningAgent.value)
    (rnd1 rnd2 : allagents.LearningAgent.Draw)
    (a : allagents.LearningAgent.t) (g g2 : Game) :
  outer !! "state"%string = None →
  Snake.consistent (snake g) → (1 ≤ Snake.length (snake g))%nat →
  Snake.consistent (snake g2) → (1 ≤ Snake.length (snake g2))%nat →
  allagents.LearningAgent.last a = None →
  (∀ a0 old_state action reward new_state,
     allagents.LearningAgent.update_q_table outer a0 old_state action reward new_state
     = Raise NameError)
  ∧ ∃ a1 g1,
      allagents.LearningAgent.make_move outer rnd1 a g = Ok (a1, g1)
      ∧ allagents.LearningAgent.make_move outer rnd2 a1 g2 = Raise NameError.
Proof.
  intros Houter Hc Hl Hc2 Hl2 Hlast.
  split; [intros; by apply update_q_table_raises|].
  destruct (get_state_total g Hc Hl) as [st Hst].
  destruct (head_total _ Hc Hl) as (hx & hy & _ & Hx & Hy).
  pose proof (choose_action_lt rnd1 a g st) as Hact.
  destruct (lookup_lt_is_Some_2 [left; right; up; down]
              (allagents.LearningAgent.choose_action rnd1 a g st)) as [d Hd];
    [simpl; lia|].
  destruct (first_safe_total g [left; right; up; down] Hc Hl) as [gs Hgs].
  assert (Hfirst : ∃ g1, allagents.LearningAgent.make_move outer rnd1 a g
            = Ok (allagents.LearningAgent.finish_move a st
                    (allagents.LearningAgent.choose_action rnd1 a g st), g1)).
  { unfold allagents.LearningAgent.make_move. rewrite Hst. cbn [mbind result_bind].
    rewrite Hlast. cbn [mbind result_bind]. unfold getitem at 1. rewrite Hd.
    cbn [mbind result_bind].
    rewrite (potential_head_ok g hx hy d Hx Hy). cbn [mbind result_bind].
    rewrite potential_move_passable_xy by done. cbn [mbind result_bind].
    destruct (negb _); cbn [mbind result_bind].
    - rewrite Hlast. cbn [mbind result_bind]. rewrite Hgs. cbn [mbind result_bind]. eauto.
    - eauto. }
  destruct Hfirst as [g1 Hfirst]. eexists. exists g1. split; [exact Hfirst|].
  destruct (get_state_total g2 Hc2 Hl2) as [st2 Hst2].
  destruct (get_reward_total
              (allagents.LearningAgent.finish_move a st
                 (allagents.LearningAgent.choose_action rnd1 a g st)) g2 Hc2 Hl2)
    as (r & a' & Hr & _).
  unfold allagents.LearningAgent.make_move. rewrite Hst2. cbn [mbind result_bind].
  cbn [allagents.LearningAgent.last allagents.LearningAgent.finish_move].
  rewrite Hr. cbn [mbind result_bind].
  rewrite update_q_table_raises by done. reflexivity.
Qed.

Lemma update_q_table_always_raises_NameError_witness :
  let outer : gmap string allagents.LearningAgent.value :=
    list_to_map [("KEYDOWN", allagents.LearningAgent.VInt 768);
                 ("QUIT", allagents.LearningAgent.VInt 256);
                 ("max", allagents.LearningAgent.VObject "max");
                 ("print", allagents.LearningAgent.VObject "print")]%string in
  let g := mkGame Snake.init 120 120 display in
  let g2 := mkGame (Snake.mk down 1 [40] [80]) 120 120 display in
  let rnd := allagents.LearningAgent.mkDraw (1 # 2) 0 in
  ∃ a1 g1,
    allagents.LearningAgent.make_move outer rnd allagents.LearningAgent.init g
    = Ok (a1, g1)
    ∧ allagents.LearningAgent.make_move outer rnd a1 g2 = Raise NameError.
Proof.
  intros outer g g2 rnd.
  apply (update_q_table_always_raises_NameError outer rnd rnd
           allagents.LearningAgent.init g g2).
  - vm_compute. reflexivity.
  - split; reflexivity.
  - simpl. lia.
  - split; reflexivity.
  - simpl. lia.
  - reflexivity.
Defined.

(** ** allagents.py: the utility-based agent *)

Lemma elem_of_candidates (heading d : Direction) :
  d ∈ allagents.candidates heading ↔ d ≠ opposite heading.
Proof.
  destruct heading, d; unfold allagents.candidates; simpl;
    (split; [intros H; try discriminate; exfalso; set_solver | intros H; try done; set_solver]).
Qed.

Lemma escape_routes_total (g : Game) (ds : list Direction) :
  Snake.consistent (snake g) → (1 ≤ Snake.length (snake g))%nat →
  ∀ count, ∃ c, allagents.UtilityBasedAgent.escape_routes g ds count = Ok c ∧ count ≤ c.
Proof.
  intros Hc Hl. destruct (head_total _ Hc Hl) as (hx & hy & _ & Hx & Hy).
  induction ds as [|d ds IH]; intros count; simpl.
  - exists count. split; [done|lia].
  - rewrite (potential_head_ok g hx hy d Hx Hy). cbn [mbind result_bind].
    rewrite potential_move_passable_xy by done. cbn [mbind result_bind].
    destruct (negb _).
    + apply IH.
    + destruct (IH (count + 1)) as (c & -> & ?). exists c. split; [done|lia].
Qed.

Lemma on_screen_bounds (g : Game) (px py : Z) :
  on_screen g px py = true →
  0 ≤ px < get_width (surface g) ∧ 0 ≤ py < get_height (surface g).
Proof. unfold on_screen. intros H. by apply bool_decide_eq_true in H. Qed.

Lemma passable_on_screen (g : Game) (c : cell) :
  passable 1 g c = true → on_screen g c.1 c.2 = true.
Proof. unfold passable. intros H. by apply andb_true_iff in H as [? _]. Qed.

(** A colliding direction weighs exactly -10000; on the 1000 x 800 display
    with the apple on it, a collision-free one weighs more. *)
Lemma calculate_utility_spec (a : allagents.UtilityBasedAgent.t) (g : Game)
    (hx hy : Z) (d : Direction) :
  Snake.consistent (snake g) →
  Snake.segment (snake g) 0 = Some (hx, hy) →
  surface g = display →
  on_screen g (apple_x g) (apple_y g) = true →
  ∃ u, allagents.UtilityBasedAgent.calculate_utility a g d = Ok u
    ∧ (passable 1 g (step (hx, hy) d) = false → u = -10000)
    ∧ (passable 1 g (step (hx, hy) d) = true → -10000 < u).
Proof.
  intros Hc Hhead Hsurf Happle.
  assert (Hl : (1 ≤ Snake.length (snake g))%nat).
  { destruct Hc as [Hx _]. unfold Snake.segment in Hhead.
    destruct (Snake.x (snake g) !! 0%nat) eqn:E; [|done].
    apply lookup_lt_Some in E. lia. }
  pose proof Hc as [Hlx Hly].
  apply head_segment in Hhead as [Hx Hy].
  unfold allagents.UtilityBasedAgent.calculate_utility.
  rewrite (potential_head_ok g hx hy d Hx Hy). cbn [mbind result_bind].
  rewrite potential_move_passable_xy by done. cbn [mbind result_bind].
  change (hx + (direction_moves d).1, hy + (direction_moves d).2) with (step (hx, hy) d).
  destruct (passable 1 g (step (hx, hy) d)) eqn:Hp; cbn [negb].
  2:{ exists (-10000). split; [done|]. split; [done|discriminate]. }
  unfold allagents.UtilityBasedAgent.count_escape_routes.
  destruct (escape_routes_total g [left; right; up; down] Hc Hl 0) as (e & -> & He).
  cbn [mbind result_bind].
  apply passable_on_screen, on_screen_bounds in Hp. apply on_screen_bounds in Happle.
  rewrite Hsurf in *. cbn [get_width get_height display] in *.
  set (nx := (step (hx, hy) d).1) in *. set (ny := (step (hx, hy) d).2) in *.
  change (hx + (direction_moves d).1) with nx. change (hy + (direction_moves d).2) with ny.
  assert (Hdist : 0 ≤ allagents._calculate_manhattan_distance nx ny (apple_x g) (apple_y g)
                  ≤ 43).
  { unfold allagents._calculate_manhattan_distance, SIZE.
    pose proof (Z.div_pos (Z.abs (apple_x g - nx)) 40).
    pose proof (Z.div_pos (Z.abs (apple_y g - ny)) 40).
    assert (Z.abs (apple_x g - nx) / 40 < 25) by (apply Z.div_lt_upper_bound; lia).
    assert (Z.abs (apple_y g - ny) / 40 < 20) by (apply Z.div_lt_upper_bound; lia).
    lia. }
  assert (Hwall : 0 ≤ Z.min (Z.min nx (1000 - nx)) (Z.min ny (800 - ny)) / SIZE).
  { unfold SIZE. apply Z.div_pos; lia. }
  set (dist := allagents._calculate_manhattan_distance nx ny (apple_x g) (apple_y g)) in *.
  set (wall := Z.min (Z.min nx (1000 - nx)) (Z.min ny (800 - ny)) / SIZE) in *.
  destruct (decide (10 < Snake.length (snake g))%nat).
  - destruct (getlast_total (Snake.x (snake g))) as [tx ->]; [lia|].
    destruct (getlast_total (Snake.y (snake g))) as [ty ->]; [lia|].
    cbn [mbind result_bind]. eexists. split; [reflexivity|].
    split; [discriminate|]. intros _. repeat case_decide; lia.
  - eexists. split; [reflexivity|].
    split; [discriminate|]. intros _. repeat case_decide; lia.
Qed.

(** The scan keeps a direction of greatest utility. *)
Lemma best_of_spec (a : allagents.UtilityBasedAgent.t) (g : Game) (ds : list Direction) :
  (∀ d, ∃ u, allagents.UtilityBasedAgent.calculate_utility a g d = Ok u) →
  ∀ bd bu, allagents.UtilityBasedAgent.calculate_utility a g bd = Ok bu →
  ∃ bd' bu', allagents.UtilityBasedAgent.best_of a g ds bd bu = Ok (bd', bu')
    ∧ allagents.UtilityBasedAgent.calculate_utility a g bd' = Ok bu'
    ∧ bd' ∈ bd :: ds
    ∧ bu ≤ bu'
    ∧ ∀ d u, d ∈ ds → allagents.UtilityBasedAgent.calculate_utility a g d = Ok u →
             u ≤ bu'.
Proof.
  intros Htotal. induction ds as [|d ds IH]; intros bd bu Hbd; simpl.
  - exists bd, bu. split; [done|]. split; [done|]. split; [by left|].
    split; [lia|]. intros d u Hd. by apply elem_of_nil in Hd.
  - destruct (Htotal d) as [u Hu]. rewrite Hu. cbn [mbind result_bind].
    destruct (decide (u > bu)) as [Hgt|Hle].
    + destruct (IH d u Hu) as (bd' & bu' & He & Hb & Hin & Hle' & Hmax).
      exists bd', bu'. split; [done|]. split; [done|].
      split; [set_solver|]. split; [lia|].
      intros d' u' Hd' Hu'. apply elem_of_cons in Hd' as [->|Hd'].
      * rewrite Hu in Hu'. injection Hu' as <-. done.
      * by apply (Hmax d').
    + destruct (IH bd bu Hbd) as (bd' & bu' & He & Hb & Hin & Hle' & Hmax).
      exists bd', bu'. split; [done|]. split; [done|].
      split; [set_solver|]. split; [lia|].
      intros d' u' Hd' Hu'. apply elem_of_cons in Hd' as [->|Hd'].
      * rewrite Hu in Hu'. injection Hu' as <-. lia.
      * by apply (Hmax d').
Qed.

Lemma turn_sets_direction (d : Direction) (s : Snake.t) :
  d ≠ opposite (Snake.direction s) → Snake.direction (turn d s) = d.
Proof.
  destruct d, s as [[] n xs ys]; simpl;
    unfold Snake.move_left, Snake.move_right, Snake.move_up, Snake.move_down; simpl;
    intros H; repeat case_decide; simpl; done.
Qed.

(** C5, the counterexample: the snake runs down along the left wall with
    its body on the right, and two turn requests have set its heading to
    [up].  Only [down] is collision-free, but it reverses the heading and is
    no candidate: the agent chooses [left], into the wall. *)
Lemma utility_agent_picks_lethal_direction :
  let g := mkGame (Snake.mk up 4 [0; 0; 40; 40] [80; 40; 40; 80]) 400 400 display in
  let a := allagents.UtilityBasedAgent.mk None in
  passable 1 g (step (0, 80) down) = true
  ∧ passable 1 g (step (0, 80) left) = false
  ∧ ∃ g', allagents.UtilityBasedAgent.make_move a g
          = Ok (allagents.UtilityBasedAgent.mk (Some left), g')
        ∧ Snake.direction (snake g') = left.
Proof.
  cbn zeta. split; [reflexivity|]. split; [reflexivity|].
  eexists. split; [vm_compute; reflexivity|]. reflexivity.
Qed.

(** C5, amended.  On the 1000 x 800 display with the apple on it, whenever
    a direction other than the reverse of the heading is collision-free
    (its next head cell is on the screen and off the body segments), the
    direction [make_move] chooses is collision-free, is not the reverse of
    the heading, and becomes the snake's heading. *)
Theorem utility_agent_avoids_collision (a : allagents.UtilityBasedAgent.t) (g : Game)
    (hx hy : Z) (d0 : Direction) :
  Snake.consistent (snake g) →
  Snake.segment (snake g) 0 = Some (hx, hy) →
  surface g = display →
  on_screen g (apple_x g) (apple_y g) = true →
  d0 ≠ opposite (Snake.direction (snake g)) →
  passable 1 g (step (hx, hy) d0) = true →
  ∃ d g', allagents.UtilityBasedAgent.make_move a g
          = Ok (allagents.UtilityBasedAgent.mk (Some d), g')
        ∧ d ≠ opposite (Snake.direction (snake g))
        ∧ passable 1 g (step (hx, hy) d) = true
        ∧ Snake.direction (snake g') = d.
Proof.
  intros Hc Hhead Hsurf Happle Hd0 Hp0.
  pose proof (calculate_utility_spec a g hx hy) as Hcalc.
  assert (Htotal : ∀ d, ∃ u, allagents.UtilityBasedAgent.calculate_utility a g d = Ok u).
  { intros d. destruct (Hcalc d) as (u & Hu & _); eauto. }
  assert (Hcand : ∃ first rest,
            allagents.candidates (Snake.direction (snake g)) = first :: rest).
  { destruct (Snake.direction (snake g)); unfold allagents.candidates; simpl; eauto. }
  destruct Hcand as (first & rest & Hcand).
  destruct (Htotal first) as [u1 Hu1].
  destruct (best_of_spec a g rest Htotal first u1 Hu1)
    as (bd & bu & Hbest & Hbu & Hin & Hge & Hmax).
  rewrite <- Hcand in Hin.
  destruct (Hcalc d0) as (u0 & Hu0 & _ & Hfree0); [done..|].
  assert (Hu0' : u0 ≤ bu).
  { assert (Hd0' : d0 ∈ first :: rest).
    { rewrite <- Hcand. by apply elem_of_candidates. }
    apply elem_of_cons in Hd0' as [->|Hd0'].
    - rewrite Hu1 in Hu0. injection Hu0 as <-. done.
    - by apply (Hmax d0). }
  exists bd, (ai.set_snake g (turn bd (snake g))).
  assert (Hbd : bd ≠ opposite (Snake.direction (snake g))) by by apply elem_of_candidates.
  split; [|split; [done|split]].
  - unfold allagents.UtilityBasedAgent.make_move. rewrite Hcand.
    change (drop 1 (first :: rest)) with rest.
    unfold getitem. cbn [lookup list_lookup mbind result_bind].
    rewrite Hu1. cbn [mbind result_bind]. rewrite Hbest. done.
  - destruct (Hcalc bd) as (u & Hu & Hblocked & _); [done..|].
    rewrite Hbu in Hu. injection Hu as <-.
    destruct (passable 1 g (step (hx, hy) bd)) eqn:Hp; [done|].
    specialize (Hblocked eq_refl). specialize (Hfree0 Hp0). lia.
  - simpl. by apply turn_sets_direction.
Qed.

Lemma utility_agent_avoids_collision_witness :
  let g := mkGame (Snake.mk down 3 [160; 160; 160] [120; 80; 40]) 320 560 display in
  ∃ d g', allagents.UtilityBasedAgent.make_move (allagents.UtilityBasedAgent.mk None) g
          = Ok (allagents.UtilityBasedAgent.mk (Some d), g')
        ∧ d ≠ opposite down
        ∧ passable 1 g (step (160, 120) d) = true
        ∧ Snake.direction (snake g') = d.
Proof.
  intros g.
  apply (utility_agent_avoids_collision (allagents.UtilityBasedAgent.mk None) g
           160 120 down).
  - split; reflexivity.
  - reflexivity.
  - reflexivity.
  - reflexivity.
  - discriminate.
  - reflexivity.
Defined.

(** * Part III: further properties of the code *)

(** ** The snake and the referee *)

Lemma increase_length_consistent (s : Snake.t) :
  Snake.consistent s → Snake.consistent (Snake.increase_length s).
Proof.
  intros [Hx Hy]. unfold Snake.consistent, Snake.increase_length. cbn.
  rewrite !length_app. cbn. lia.
Qed.

Lemma segment_placeholder (s : Snake.t) :
  Snake.consistent s →
  Snake.segment (Snake.increase_length s) (Snake.length s) = Some (-1, -1).
Proof.
  intros [Hx Hy]. unfold Snake.segment, Snake.increase_length. cbn.
  rewrite !lookup_app_r by lia. rewrite Hx, Hy, Nat.sub_diag. done.
Qed.

Lemma head_hits_pure (s : Snake.t) (h : cell) (idx : list nat) :
  Snake.consistent s → Snake.segment s 0 = Some h →
  (∀ i, i ∈ idx → (i < Snake.length s)%nat) →
  head_hits s idx = Ok (body_hit s h.1 h.2 idx).
Proof.
  intros Hc Hh. induction idx as [|i idx IH]; intros Hidx; [done|].
  destruct (segment_lookup s i Hc) as (xi & yi & _ & _ & Hseg).
  { apply Hidx. by left. }
  rewrite (head_hits_cons s h (xi, yi) i idx Hh Hseg).
  cbn [body_hit existsb]. rewrite Hseg. cbn [fst snd].
  destruct (is_collision h.1 h.2 xi yi); [done|].
  cbn [orb]. apply IH. intros j Hj. apply Hidx. by right.
Qed.

Lemma body_hit_false (s : Snake.t) (px py : Z) (idx : list nat) :
  body_hit s px py idx = false ↔
  ∀ i c, i ∈ idx → Snake.segment s i = Some c → is_collision px py c.1 c.2 = false.
Proof.
  unfold body_hit. split.
  - intros H i c Hi Hs.
    destruct (is_collision px py c.1 c.2) eqn:E; [|done].
    rewrite <- H. symmetry. apply existsb_exists. exists i.
    split; [by apply list_elem_of_In|]. rewrite Hs. by destruct c.
  - intros H. apply not_true_is_false. intros Hex.
    apply existsb_exists in Hex as (i & Hi & Hhit). apply list_elem_of_In in Hi.
    destruct (Snake.segment s i) as [[xi yi]|] eqn:Hs; [|done].
    specialize (H i (xi, yi) Hi Hs). cbn in H. congruence.
Qed.

(** X1. the walk that follows [increase_length] overwrites the placeholder
    [(-1, -1)]: every segment behind the head, the new last one included,
    takes the place of its predecessor, and the head advances one cell. *)
Theorem grown_segment_takes_tail (s : Snake.t) :
  Snake.consistent s → (1 ≤ Snake.length s)%nat →
  ∃ s' h, Snake.walk (Snake.increase_length s) = Ok s'
    ∧ Snake.consistent s'
    ∧ Snake.length s' = S (Snake.length s)
    ∧ Snake.segment s 0 = Some h
    ∧ Snake.segment s' 0 = Some (step h (Snake.direction s))
    ∧ ∀ i, (0 < i ≤ Snake.length s)%nat → Snake.segment s' i = Snake.segment s (i - 1).
Proof.
  intros Hc Hl.
  destruct (walk_spec (Snake.increase_length s)) as (s' & Hw & Hd & Hlen & Hc' & Hseg & Hhead).
  { by apply increase_length_consistent. }
  { cbn. lia. }
  destruct Hhead as (hx & hy & Hh & Hh').
  rewrite segment_increase_length in Hh by (done || lia).
  exists s', (hx, hy). split; [done|]. split; [done|].
  split; [rewrite Hlen; cbn; lia|]. split; [done|]. split; [exact Hh'|].
  intros i Hi. rewrite Hseg by (cbn; lia).
  apply segment_increase_length; [done|lia].
Qed.

Lemma grown_segment_takes_tail_witness :
  ∃ s' h, Snake.walk (Snake.increase_length (Snake.mk right 2 [80; 40] [40; 40])) = Ok s'
    ∧ Snake.consistent s'
    ∧ Snake.length s' = 3%nat
    ∧ Snake.segment (Snake.mk right 2 [80; 40] [40; 40]) 0 = Some h
    ∧ Snake.segment s' 0 = Some (step h right)
    ∧ ∀ i, (0 < i ≤ 2)%nat →
        Snake.segment s' i = Snake.segment (Snake.mk right 2 [80; 40] [40; 40]) (i - 1).
Proof.
  apply (grown_segment_takes_tail (Snake.mk right 2 [80; 40] [40; 40])).
  - split; reflexivity.
  - simpl. lia.
Defined.

Lemma shift_short (j : nat) (xs ys : list Z) :
  (length xs < S (S j) ∨ length ys < S (S j))%nat →
  Snake.shift (S j) xs ys = Raise IndexError.
Proof.
  intros H. cbn [Snake.shift]. unfold getitem, setitem.
  destruct (xs !! j) as [xv|] eqn:Ex; [|done]. cbn [mbind result_bind].
  destruct (decide (S j < length xs)%nat) as [Hx|Hx]; [|done]. cbn [mbind result_bind].
  destruct (ys !! j) as [yv|] eqn:Ey; [|done]. cbn [mbind result_bind].
  destruct (decide (S j < length ys)%nat) as [Hy|Hy]; [|done]. lia.
Qed.

(** X2. [walk] raises [IndexError] whenever a coordinate list is shorter than
    the [length] field of a snake of two or more segments. *)
Theorem walk_short_lists_raise (s : Snake.t) :
  (2 ≤ Snake.length s)%nat →
  (length (Snake.x s) < Snake.length s ∨ length (Snake.y s) < Snake.length s)%nat →
  Snake.walk s = Raise IndexError.
Proof.
  intros Hl Hshort. unfold Snake.walk.
  destruct (Snake.length s) as [|[|j]] eqn:El; [lia|lia|].
  replace (S (S j) - 1)%nat with (S j) by lia.
  rewrite shift_short by done. done.
Qed.

Lemma walk_short_lists_raise_witness :
  Snake.walk (Snake.mk down 3 [40; 40] [80; 40; 0]) = Raise IndexError.
Proof.
  apply (walk_short_lists_raise (Snake.mk down 3 [40; 40] [80; 40; 0])).
  - simpl. lia.
  - left. simpl. lia.
Defined.

(** X3. on cells of the grid (coordinates that are multiples of [SIZE])
    [is_collision] is equality of cells. *)
Theorem is_collision_on_grid (i1 j1 i2 j2 : Z) :
  is_collision (i1 * SIZE) (j1 * SIZE) (i2 * SIZE) (j2 * SIZE) = true
  ↔ i1 = i2 ∧ j1 = j2.
Proof.
  unfold is_collision, SIZE.
  destruct (bool_decide_reflect (i1 * 40 >= i2 * 40 ∧ i1 * 40 < i2 * 40 + 40)) as [Hx|Hx];
    [destruct (bool_decide_reflect (j1 * 40 >= j2 * 40 ∧ j1 * 40 < j2 * 40 + 40))
       as [Hy|Hy]|]; split; intros H; try discriminate; try done; lia.
Qed.

(** X4. right after [increase_length], as [play] calls it before
    [self_collision], a snake of three or more segments whose head touches
    the origin cell is reported as colliding with itself whatever its body:
    the placeholder [(-1, -1)] overlaps the head. *)
Theorem placeholder_hits_origin (s : Snake.t) (hx hy : Z) :
  Snake.consistent s → (3 ≤ Snake.length s)%nat →
  Snake.segment s 0 = Some (hx, hy) →
  -1 ≤ hx < 39 → -1 ≤ hy < 39 →
  self_collision (Snake.increase_length s) = Ok true.
Proof.
  intros Hc Hl Hh Hx Hy. unfold self_collision, self_collision_from.
  rewrite (head_hits_pure _ (hx, hy)).
  - f_equal. unfold body_hit. apply existsb_exists. exists (Snake.length s). split.
    + apply list_elem_of_In, elem_of_range. cbn. lia.
    + rewrite segment_placeholder by done. unfold is_collision, SIZE. cbn [fst snd].
      rewrite !bool_decide_eq_true_2 by lia. done.
  - by apply increase_length_consistent.
  - rewrite segment_increase_length by (done || lia). done.
  - intros i Hi. apply range_lt in Hi. lia.
Qed.

Lemma placeholder_hits_origin_witness :
  self_collision (Snake.increase_length (Snake.mk up 3 [0; 0; 0] [0; 40; 80])) = Ok true.
Proof.
  apply (placeholder_hits_origin (Snake.mk up 3 [0; 0; 0] [0; 40; 80]) 0 0).
  - split; reflexivity.
  - simpl. lia.
  - reflexivity.
  - lia.
  - lia.
Defined.

(** ** The apple *)

Lemma apple_move_spec (a : Apple.t) :
  (Apple.count a < 30)%nat →
  ∃ a', Apple.move a = Ok a'
    ∧ Apple.count a' = ((Apple.count a + 1) mod 30)%nat
    ∧ (Apple.count a' < 30)%nat
    ∧ 0 < Apple.x a' < 1000 ∧ 0 < Apple.y a' < 800
    ∧ Apple.x a' mod SIZE = 0 ∧ Apple.y a' mod SIZE = 0.
Proof.
  destruct a as [x y n]. cbn [Apple.count]. intros Hn.
  do 30 (destruct n as [|n];
    [eexists; split; [reflexivity|]; cbn; repeat split; (reflexivity || lia)|]).
  lia.
Qed.

(** X5. [Apple.move] never fails while its counter is below the length of
    the lists, which it keeps so; the apple lands on a cell of the grid,
    strictly inside the 1000 x 800 display and never on the origin cell. *)
Theorem apple_move_stays_on_grid (a : Apple.t) :
  (Apple.count a < 30)%nat →
  ∃ a', Apple.move a = Ok a'
    ∧ Apple.count a' = ((Apple.count a + 1) mod 30)%nat
    ∧ (Apple.count a' < 30)%nat
    ∧ 0 < Apple.x a' < 1000 ∧ 0 < Apple.y a' < 800
    ∧ Apple.x a' mod SIZE = 0 ∧ Apple.y a' mod SIZE = 0.
Proof. exact (apple_move_spec a). Qed.

Lemma apple_move_stays_on_grid_witness :
  ∃ a', Apple.move Apple.init = Ok a'
    ∧ Apple.count a' = ((Apple.count Apple.init + 1) mod 30)%nat
    ∧ (Apple.count a' < 30)%nat
    ∧ 0 < Apple.x a' < 1000 ∧ 0 < Apple.y a' < 800
    ∧ Apple.x a' mod SIZE = 0 ∧ Apple.y a' mod SIZE = 0.
Proof. apply (apple_move_stays_on_grid Apple.init). simpl. lia. Defined.

(** Past the end of its lists [Apple.move] raises [IndexError]. *)
Lemma apple_move_out_of_range (a : Apple.t) :
  (30 ≤ Apple.count a)%nat → Apple.move a = Raise IndexError.
Proof.
  intros Hn. unfold Apple.move, getitem.
  rewrite (lookup_ge_None_2 Apple.x_list) by (cbn; lia). done.
Qed.

(** ** One step of the game (ai.py) *)

Lemma check_wall_collision_spec (g : Game) (hx hy : Z) :
  Snake.segment (snake g) 0 = Some (hx, hy) →
  check_wall_collision g = Ok (negb (on_screen g hx hy)).
Proof.
  intros Hh. apply head_segment in Hh as [Hx Hy]. unfold check_wall_collision.
  rewrite Hx, Hy. cbn [mbind result_bind]. unfold on_screen.
  destruct (bool_decide_reflect (0 ≤ hx < get_width (surface g)
    ∧ 0 ≤ hy < get_height (surface g))) as [H|H]; cbn [negb].
  - rewrite !bool_decide_eq_false_2 by lia. done.
  - destruct (bool_decide_reflect (hx < 0 ∨ hx >= get_width (surface g))); [done|].
    rewrite bool_decide_eq_true_2 by lia. done.
Qed.

Lemma pymax_bounds (lo v hi : Q) :
  (lo <= hi)%Q → (v <= hi)%Q → (lo <= pymax lo v <= hi)%Q.
Proof.
  intros H1 H2. split; [apply pymax_floor|]. unfold pymax.
  destruct (Qltb lo v); done.
Qed.

Section play_proofs.

Variable w : ai_game.World.
Hypothesis snake_consistent : Snake.consistent (snake (ai_game.game w)).
Hypothesis snake_nonempty : (1 ≤ Snake.length (snake (ai_game.game w)))%nat.
Hypothesis apple_in_range : (ai_game.apple_count w < 30)%nat.

Local Abbreviation g := (ai_game.game w).

(** The world that [play] judges: the snake has walked and, on the apple,
    grown. *)
Lemma play_before_referee :
  ∃ s1 h w1,
    Snake.walk (snake g) = Ok s1
    ∧ Snake.segment (snake g) 0 = Some h
    ∧ Snake.segment s1 0 = Some (step h (Snake.direction (snake g)))
    ∧ Snake.consistent s1 ∧ Snake.length s1 = Snake.length (snake g)
    ∧ (∀ i, (0 < i < Snake.length (snake g))%nat →
         Snake.segment s1 i = Snake.segment (snake g) (i - 1))
    ∧ (snake (ai_game.game w1) = s1
       ∧ ai_game.apple_count w1 = ai_game.apple_count w
       ∧ apple_x (ai_game.game w1) = apple_x g ∧ apple_y (ai_game.game w1) = apple_y g
       ∧ ai_game.game_speed w1 = ai_game.game_speed w
       ∨ snake (ai_game.game w1) = Snake.increase_length s1
         ∧ (ai_game.apple_count w1 < 30)%nat
         ∧ (∀ lo, (lo <= 5 # 100)%Q → (5 # 100 <= ai_game.game_speed w)%Q →
              (lo <= ai_game.game_speed w1 <= ai_game.game_speed w)%Q))
    ∧ surface (ai_game.game w1) = surface g
    ∧ ai_game.play w =
        (collided ← self_collision (snake (ai_game.game w1));
         if collided : bool then Ok (ai_game.GameOver "Collision Occurred")
         else
           wall ← check_wall_collision (ai_game.game w1);
           if wall : bool then Ok (ai_game.GameOver "Wall Collision!")
           else Ok (ai_game.Continues w1)).
Proof.
  destruct (walk_spec (snake g) snake_consistent snake_nonempty)
    as (s1 & Hw & Hd & Hlen & Hc1 & Hseg & hx & hy & Hh & Hh1).
  pose proof (head_segment _ _ _ Hh1) as [Hx1 Hy1].
  unfold ai_game.play. rewrite Hw. cbn [mbind result_bind].
  rewrite Hx1, Hy1. cbn [mbind result_bind].
  destruct (is_collision _ _ (apple_x g) (apple_y g)).
  - destruct (apple_move_spec (Apple.mk (apple_x g) (apple_y g) (ai_game.apple_count w)))
      as (a' & Ha & _ & Hcount & _); [done|].
    rewrite Ha. cbn [mbind result_bind].
    set (speed := if decide (Snake.length (Snake.increase_length s1) mod 5 = 0)%nat
                  then pymax (5 # 100) (ai_game.game_speed w - (4 # 100))
                  else ai_game.game_speed w).
    exists s1, (hx, hy),
      (ai_game.mkWorld
         (mkGame (Snake.increase_length s1) (Apple.x a') (Apple.y a') (surface g))
         (Apple.count a') speed).
    do 6 (split; [done|]). split; [|split; reflexivity].
    right. cbn. split; [done|]. split; [done|]. intros lo Hlo Hsp.
    unfold speed. destruct (decide _); [|lra].
    destruct (pymax_bounds (5 # 100) (ai_game.game_speed w - (4 # 100))
                (ai_game.game_speed w)); lra.
  - cbn [mbind result_bind].
    exists s1, (hx, hy),
      (ai_game.mkWorld (ai.set_snake g s1) (ai_game.apple_count w) (ai_game.game_speed w)).
    do 6 (split; [done|]). split; [|split; reflexivity].
    left. cbn. done.
Qed.

End play_proofs.

Lemma play_referee_total (s : Snake.t) :
  Snake.consistent s → (1 ≤ Snake.length s)%nat → ∃ b, self_collision s = Ok b.
Proof.
  intros Hc Hl. apply head_hits_total; [done..|].
  apply Forall_forall. intros i Hi. apply range_lt in Hi. lia.
Qed.

(** X6. on a consistent snake and an apple counter within its lists, [play]
    never fails with an error of its own: it either returns or raises one of
    its two game-over exceptions.  When it returns, the snake is still
    consistent and has grown by at most one segment, the apple counter is
    still within the lists, the head is on the screen, and [game_speed] has
    not increased and has not dropped below 0.05. *)
Theorem play_keeps_invariants (w : ai_game.World) :
  Snake.consistent (snake (ai_game.game w)) →
  (1 ≤ Snake.length (snake (ai_game.game w)))%nat →
  (ai_game.apple_count w < 30)%nat →
  (5 # 100 <= ai_game.game_speed w)%Q →
  ∃ r, ai_game.play w = Ok r
    ∧ match r with
      | ai_game.Continues w' =>
          Snake.consistent (snake (ai_game.game w'))
          ∧ (Snake.length (snake (ai_game.game w))
             ≤ Snake.length (snake (ai_game.game w'))
             ≤ S (Snake.length (snake (ai_game.game w))))%nat
          ∧ (ai_game.apple_count w' < 30)%nat
          ∧ (5 # 100 <= ai_game.game_speed w' <= ai_game.game_speed w)%Q
          ∧ surface (ai_game.game w') = surface (ai_game.game w)
          ∧ ∃ hx hy, Snake.segment (snake (ai_game.game w')) 0 = Some (hx, hy)
                   ∧ on_screen (ai_game.game w') hx hy = true
      | ai_game.GameOver message =>
          message = "Collision Occurred"%string ∨ message = "Wall Collision!"%string
      end.
Proof.
  intros Hc Hl Hcount Hspeed.
  destruct (play_before_referee w Hc Hl Hcount)
    as (s1 & h & w1 & Hw & Hh & Hh1 & Hc1 & Hlen & Hseg & Hcase & Hsurf & Hplay).
  assert (Hfacts : Snake.consistent (snake (ai_game.game w1))
    ∧ (Snake.length (snake (ai_game.game w))
       ≤ Snake.length (snake (ai_game.game w1))
       ≤ S (Snake.length (snake (ai_game.game w))))%nat
    ∧ (ai_game.apple_count w1 < 30)%nat
    ∧ (5 # 100 <= ai_game.game_speed w1 <= ai_game.game_speed w)%Q
    ∧ Snake.segment (snake (ai_game.game w1)) 0
      = Some (step h (Snake.direction (snake (ai_game.game w))))).
  { destruct Hcase as [(Hs & Ha & _ & _ & Hsp)|(Hs & Ha & Hsp)]; rewrite Hs.
    - rewrite Ha, Hsp. split; [done|]. split; [lia|]. split; [done|].
      split; [split; [done|apply Qle_refl]|done].
    - split; [by apply increase_length_consistent|].
      split; [cbn; lia|]. split; [done|].
      split; [apply Hsp; [lra|done]|].
      rewrite segment_increase_length by (done || lia). done. }
  destruct Hfacts as (Hc' & Hl' & Hcount' & Hsp' & Hhead').
  destruct (play_referee_total (snake (ai_game.game w1))) as [b Hb]; [done|lia|].
  rewrite Hplay, Hb. cbn [mbind result_bind].
  destruct b; [eexists; split; [reflexivity|]; by left|].
  destruct (step h (Snake.direction (snake (ai_game.game w)))) as [nx ny] eqn:En.
  rewrite (check_wall_collision_spec _ nx ny Hhead'). cbn [mbind result_bind].
  destruct (on_screen (ai_game.game w1) nx ny) eqn:Hon; cbn [negb].
  - eexists. split; [reflexivity|]. cbn beta iota.
    do 5 (split; [done|]). eauto.
  - eexists. split; [reflexivity|]. by right.
Qed.

Lemma play_keeps_invariants_witness :
  ∃ r, ai_game.play ai_game.init = Ok r
    ∧ match r with
      | ai_game.Continues w' =>
          Snake.consistent (snake (ai_game.game w'))
          ∧ (Snake.length (snake (ai_game.game ai_game.init))
             ≤ Snake.length (snake (ai_game.game w'))
             ≤ S (Snake.length (snake (ai_game.game ai_game.init))))%nat
          ∧ (ai_game.apple_count w' < 30)%nat
          ∧ (5 # 100 <= ai_game.game_speed w' <= ai_game.game_speed ai_game.init)%Q
          ∧ surface (ai_game.game w') = surface (ai_game.game ai_game.init)
          ∧ ∃ hx hy, Snake.segment (snake (ai_game.game w')) 0 = Some (hx, hy)
                   ∧ on_screen (ai_game.game w') hx hy = true
      | ai_game.GameOver message =>
          message = "Collision Occurred"%string ∨ message = "Wall Collision!"%string
      end.
Proof.
  apply (play_keeps_invariants ai_game.init).
  - split; reflexivity.
  - simpl. lia.
  - simpl. lia.
  - vm_compute. discriminate.
Defined.

(** X7. the prediction agrees with the referee.  When
    [_is_potential_move_colliding] reports the cell ahead of the head as
    free, and that cell does not touch the placeholder [(-1, -1)], [play]
    returns: no game-over exception is raised, and the head is on that cell. *)
Theorem safe_move_survives (w : ai_game.World) (hx hy : Z) :
  Snake.consistent (snake (ai_game.game w)) →
  Snake.segment (snake (ai_game.game w)) 0 = Some (hx, hy) →
  (ai_game.apple_count w < 30)%nat →
  let nxt := step (hx, hy) (Snake.direction (snake (ai_game.game w))) in
  _is_potential_move_colliding (ai_game.game w) nxt.1 nxt.2 = Ok false →
  is_collision nxt.1 nxt.2 (-1) (-1) = false →
  ∃ w', ai_game.play w = Ok (ai_game.Continues w')
      ∧ Snake.segment (snake (ai_game.game w')) 0 = Some nxt.
Proof.
  intros Hc Hh Hcount nxt Hsafe Hplace.
  assert (Hl : (1 ≤ Snake.length (snake (ai_game.game w)))%nat).
  { destruct Hc as [Hx _]. unfold Snake.segment in Hh.
    destruct (Snake.x (snake (ai_game.game w)) !! 0%nat) eqn:E; [|done].
    apply lookup_lt_Some in E. lia. }
  rewrite potential_move_passable in Hsafe by done.
  assert (Hp : passable 1 (ai_game.game w) nxt = true).
  { destruct (passable 1 (ai_game.game w) nxt); [done|]. cbn in Hsafe. congruence. }
  clear Hsafe. unfold passable in Hp. apply andb_true_iff in Hp as [Hon Hbody].
  apply negb_true_iff in Hbody. pose proof (proj1 (body_hit_false _ _ _ _) Hbody) as Hfree.
  destruct (play_before_referee w Hc Hl Hcount)
    as (s1 & h & w1 & Hw & Hh0 & Hh1 & Hc1 & Hlen & Hseg & Hcase & Hsurf & Hplay).
  rewrite Hh in Hh0. injection Hh0 as <-. fold nxt in Hh1.
  assert (Hold : ∀ i c, (3 ≤ i < Snake.length (snake (ai_game.game w)))%nat →
            Snake.segment s1 i = Some c → is_collision nxt.1 nxt.2 c.1 c.2 = false).
  { intros i c Hi Hs. rewrite Hseg in Hs by lia.
    apply (Hfree (i - 1)%nat); [|done]. apply elem_of_range. lia. }
  assert (Hnew : Snake.consistent (snake (ai_game.game w1))
    ∧ Snake.segment (snake (ai_game.game w1)) 0 = Some nxt
    ∧ self_collision (snake (ai_game.game w1)) = Ok false).
  { destruct Hcase as [(Hs & _)|(Hs & _)]; rewrite Hs.
    - split; [done|]. split; [done|]. unfold self_collision, self_collision_from.
      rewrite (head_hits_pure s1 nxt) by
        (done || (intros i Hi; apply range_lt in Hi; lia)).
      f_equal. apply body_hit_false. intros i c Hi Hs1. apply range_lt in Hi.
      apply (Hold i); [lia|done].
    - assert (Hh2 : Snake.segment (Snake.increase_length s1) 0 = Some nxt).
      { rewrite segment_increase_length by (done || lia). done. }
      split; [by apply increase_length_consistent|]. split; [done|].
      unfold self_collision, self_collision_from.
      rewrite (head_hits_pure _ nxt);
        [|by apply increase_length_consistent|done
         |intros i Hi; apply range_lt in Hi;
          cbn [Snake.length Snake.increase_length] in Hi |- *; lia].
      f_equal. apply body_hit_false. intros i c Hi Hs1. apply range_lt in Hi.
      cbn [Snake.length Snake.increase_length] in Hi. destruct (decide (i = Snake.length s1)) as [->|Hne].
      + rewrite segment_placeholder in Hs1 by done. injection Hs1 as <-. exact Hplace.
      + rewrite segment_increase_length in Hs1 by (done || lia).
        apply (Hold i); [lia|done]. }
  destruct Hnew as (Hc' & Hhead' & Hself).
  exists w1. split; [|done]. rewrite Hplay, Hself. cbn [mbind result_bind].
  destruct nxt as [nx ny] eqn:En.
  rewrite (check_wall_collision_spec _ nx ny Hhead'). cbn [mbind result_bind].
  unfold on_screen in *. rewrite Hsurf. cbn [fst snd] in Hon. rewrite Hon. done.
Qed.

Lemma safe_move_survives_witness :
  let w := ai_game.mkWorld
             (mkGame (Snake.mk right 3 [120; 80; 40] [40; 40; 40]) 160 40 display)
             0 (30 # 100) in
  ∃ w', ai_game.play w = Ok (ai_game.Continues w')
      ∧ Snake.segment (snake (ai_game.game w')) 0 = Some (step (120, 40) right).
Proof.
  intros w. apply (safe_move_survives w 120 40).
  - split; reflexivity.
  - reflexivity.
  - simpl. lia.
  - reflexivity.
  - reflexivity.
Defined.

(** X8. a step whose cell ahead is off the screen ends the game: [play]
    raises one of its game-over exceptions. *)
Theorem wall_move_ends_game (w : ai_game.World) (hx hy : Z) :
  Snake.consistent (snake (ai_game.game w)) →
  Snake.segment (snake (ai_game.game w)) 0 = Some (hx, hy) →
  (ai_game.apple_count w < 30)%nat →
  let nxt := step (hx, hy) (Snake.direction (snake (ai_game.game w))) in
  on_screen (ai_game.game w) nxt.1 nxt.2 = false →
  ∃ message, ai_game.play w = Ok (ai_game.GameOver message).
Proof.
  intros Hc Hh Hcount nxt Hoff.
  assert (Hl : (1 ≤ Snake.length (snake (ai_game.game w)))%nat).
  { destruct Hc as [Hx _]. unfold Snake.segment in Hh.
    destruct (Snake.x (snake (ai_game.game w)) !! 0%nat) eqn:E; [|done].
    apply lookup_lt_Some in E. lia. }
  destruct (play_before_referee w Hc Hl Hcount)
    as (s1 & h & w1 & Hw & Hh0 & Hh1 & Hc1 & Hlen & Hseg & Hcase & Hsurf & Hplay).
  rewrite Hh in Hh0. injection Hh0 as <-. fold nxt in Hh1.
  assert (Hnew : Snake.consistent (snake (ai_game.game w1))
    ∧ (1 ≤ Snake.length (snake (ai_game.game w1)))%nat
    ∧ Snake.segment (snake (ai_game.game w1)) 0 = Some nxt).
  { destruct Hcase as [(Hs & _)|(Hs & _)]; rewrite Hs.
    - split; [done|]. split; [lia|done].
    - split; [by apply increase_length_consistent|]. split; [cbn; lia|].
      rewrite segment_increase_length by (done || lia). done. }
  destruct Hnew as (Hc' & Hl' & Hhead').
  destruct (play_referee_total _ Hc' Hl') as [b Hb].
  rewrite Hplay, Hb. cbn [mbind result_bind]. destruct b; [eauto|].
  destruct nxt as [nx ny] eqn:En.
  rewrite (check_wall_collision_spec _ nx ny Hhead'). cbn [mbind result_bind].
  unfold on_screen in *. rewrite Hsurf. cbn [fst snd] in Hoff. rewrite Hoff. eauto.
Qed.

Lemma wall_move_ends_game_witness :
  let w := ai_game.mkWorld
             (mkGame (Snake.mk left 2 [0; 40] [40; 40]) 160 40 display) 0 (30 # 100) in
  ∃ message, ai_game.play w = Ok (ai_game.GameOver message).
Proof.
  intros w. apply (wall_move_ends_game w 0 40).
  - split; reflexivity.
  - reflexivity.
  - simpl. lia.
  - reflexivity.
Defined.

(** ** The agents of ai.py *)

Lemma turn_body (d : Direction) (s : Snake.t) :
  Snake.x (turn d s) = Snake.x s ∧ Snake.y (turn d s) = Snake.y s
  ∧ Snake.length (turn d s) = Snake.length s.
Proof.
  destruct d; cbn [turn];
    unfold Snake.move_left, Snake.move_right, Snake.move_up, Snake.move_down;
    case_decide; done.
Qed.

Lemma turn_direction (d : Direction) (s : Snake.t) :
  Snake.direction (turn d s)
  = if decide (d = opposite (Snake.direction s)) then Snake.direction s else d.
Proof.
  destruct d, (Snake.direction s) eqn:E; cbn [turn];
    unfold Snake.move_left, Snake.move_right, Snake.move_up, Snake.move_down;
    rewrite E; done.
Qed.

Lemma best_scored_mem (math_sqrt : Z → Q) (g : Game) (fuel : nat) (head : cell)
    (vds : list Direction) :
  Snake.consistent (snake g) → (289 < fuel)%nat →
  ∀ best score, ∃ r,
    ai.best_scored math_sqrt fuel g head vds best score = Ok r
    ∧ (r = best ∨ ∃ d, r = Some d ∧ d ∈ vds).
Proof.
  intros Hc Hfuel. induction vds as [|d vds IH]; intros best score;
    cbn [ai.best_scored]; [eauto|].
  destruct (utility_score_total math_sqrt g Hc fuel (step head d).1 (step head d).2
              (apple_x g) (apple_y g) Hfuel) as [sc ->].
  cbn [mbind result_bind]. destruct (Qltb score sc).
  - destruct (IH (Some d) sc) as (r & -> & [->|(d' & -> & Hd')]).
    + exists (Some d). split; [done|]. right. exists d. split; [done|by left].
    + exists (Some d'). split; [done|]. right. exists d'. split; [done|by right].
  - destruct (IH best score) as (r & -> & [->|(d' & -> & Hd')]).
    + eauto.
    + exists (Some d'). split; [done|]. right. exists d'. split; [done|by right].
Qed.

(** X9. [smart_agent_bfs] returns and changes nothing but the heading, and
    the only headings it turns to are those whose cell ahead is free and that
    do not reverse the snake. *)
Theorem smart_agent_turns_only_to_free_cells (math_sqrt : Z → Q) (fuel : nat)
    (g : Game) (hx hy : Z) :
  Snake.consistent (snake g) →
  Snake.segment (snake g) 0 = Some (hx, hy) →
  (962 ≤ fuel)%nat →
  ∃ g', ai.smart_agent_bfs math_sqrt fuel g = Ok g'
    ∧ Snake.x (snake g') = Snake.x (snake g)
    ∧ Snake.y (snake g') = Snake.y (snake g)
    ∧ Snake.length (snake g') = Snake.length (snake g)
    ∧ apple_x g' = apple_x g ∧ apple_y g' = apple_y g ∧ surface g' = surface g
    ∧ (Snake.direction (snake g') = Snake.direction (snake g)
       ∨ Snake.direction (snake g') ≠ opposite (Snake.direction (snake g))
         ∧ passable 1 g (step (hx, hy) (Snake.direction (snake g'))) = true).
Proof.
  intros Hc Hh Hfuel. pose proof (head_segment _ _ _ Hh) as [Hx Hy].
  assert (Hturn : ∀ d (vds : list Direction),
    (∀ d, d ∈ vds ↔ d ∈ ai.directions ∧ d ≠ opposite (Snake.direction (snake g))
                    ∧ passable 1 g (step (hx, hy) d) = true) →
    d ∈ vds →
    let g' := ai.set_snake g (turn d (snake g)) in
    Snake.x (snake g') = Snake.x (snake g)
    ∧ Snake.y (snake g') = Snake.y (snake g)
    ∧ Snake.length (snake g') = Snake.length (snake g)
    ∧ apple_x g' = apple_x g ∧ apple_y g' = apple_y g ∧ surface g' = surface g
    ∧ (Snake.direction (snake g') = Snake.direction (snake g)
       ∨ Snake.direction (snake g') ≠ opposite (Snake.direction (snake g))
         ∧ passable 1 g (step (hx, hy) (Snake.direction (snake g'))) = true)).
  { intros d vds Hvds Hd. apply Hvds in Hd as (_ & Hrev & Hp). cbn.
    destruct (turn_body d (snake g)) as (-> & -> & ->).
    do 6 (split; [done|]). right. rewrite turn_direction.
    destruct (decide (d = opposite (Snake.direction (snake g)))); done. }
  unfold ai.smart_agent_bfs. rewrite Hx, Hy. cbn [mbind result_bind].
  destruct (safe_directions_spec g (hx, hy) ai.directions Hc directions_nodup)
    as (vds & -> & Hnd & Hvds).
  cbn [mbind result_bind]. destruct vds as [|v vds].
  { exists g. do 7 (split; [done|]). by left. }
  destruct (bfs_pathfind_spec g (hx, hy) (apple_x g, apple_y g) (v :: vds) Hc fuel Hnd)
    as (r & Hr & Hspec).
  { intros d Hd. by apply Hvds in Hd as (_ & _ & ?). }
  { unfold ai.max_depth. lia. }
  cbn [fst snd] in Hr. rewrite Hr. cbn [mbind result_bind].
  destruct r as [d|].
  { destruct Hspec as (m & Hd & _). eexists. split; [reflexivity|]. by eapply Hturn. }
  unfold ai._safety_first_agent. rewrite Hx, Hy. cbn [mbind result_bind].
  destruct (best_scored_mem math_sqrt g fuel (hx, hy) (v :: vds) Hc ltac:(lia) None (-1)%Q)
    as (bd & -> & [->|(d & -> & Hd)]).
  - cbn [mbind result_bind turn_opt]. exists (ai.set_snake g (snake g)).
    split; [done|]. cbn. do 6 (split; [done|]). by left.
  - cbn [mbind result_bind turn_opt]. eexists. split; [reflexivity|]. by eapply Hturn.
Qed.

Lemma smart_agent_turns_only_to_free_cells_witness :
  let g := mkGame (Snake.mk down 1 [160] [80]) 160 40 display in
  let math_sqrt := λ z : Z, inject_Z (Z.sqrt z) in
  ∃ g', ai.smart_agent_bfs math_sqrt 962 g = Ok g'
    ∧ Snake.x (snake g') = Snake.x (snake g)
    ∧ Snake.y (snake g') = Snake.y (snake g)
    ∧ Snake.length (snake g') = Snake.length (snake g)
    ∧ apple_x g' = apple_x g ∧ apple_y g' = apple_y g ∧ surface g' = surface g
    ∧ (Snake.direction (snake g') = Snake.direction (snake g)
       ∨ Snake.direction (snake g') ≠ opposite (Snake.direction (snake g))
         ∧ passable 1 g (step (160, 80) (Snake.direction (snake g'))) = true).
Proof.
  intros g math_sqrt. apply (smart_agent_turns_only_to_free_cells math_sqrt 962 g 160 80).
  - split; reflexivity.
  - reflexivity.
  - lia.
Defined.

(** X10. [agent_bikram] looks at the apple only.  With the head off the apple
    and a whole number of cells away from it along both axes, the direction
    it requests leads exactly one cell closer to the apple in Manhattan
    distance. *)
Theorem agent_bikram_heads_for_apple (g : Game) (hx hy : Z) :
  Snake.segment (snake g) 0 = Some (hx, hy) →
  (hx, hy) ≠ (apple_x g, apple_y g) →
  (SIZE | hx - apple_x g) → (SIZE | hy - apple_y g) →
  ∃ d, ai_game.agent_bikram g = Ok (ai.set_snake g (turn d (snake g)))
     ∧ Z.abs ((step (hx, hy) d).1 - apple_x g) + Z.abs ((step (hx, hy) d).2 - apple_y g)
       = Z.abs (hx - apple_x g) + Z.abs (hy - apple_y g) - SIZE.
Proof.
  intros Hh Hne [kx Hkx] [ky Hky]. apply head_segment in Hh as [Hx Hy].
  unfold ai_game.agent_bikram. rewrite Hx, Hy. cbn [mbind result_bind].
  unfold SIZE in *.
  destruct (decide (hx - apple_x g = 0)) as [Hx0|Hx0].
  - assert (hy ≠ apple_y g) by (intros ->; apply Hne; f_equal; lia).
    destruct (decide (hy - apple_y g >= 0)).
    + exists up. split; [done|]. cbn. unfold SIZE. lia.
    + exists down. split; [done|]. cbn. unfold SIZE. lia.
  - destruct (decide (hx - apple_x g >= 0)).
    + exists left. split; [done|]. cbn. unfold SIZE. lia.
    + destruct (decide (hx - apple_x g <= 0)); [|lia].
      exists right. split; [done|]. cbn. unfold SIZE. lia.
Qed.

Lemma agent_bikram_heads_for_apple_witness :
  let g := mkGame (Snake.mk down 1 [40] [40]) 120 120 display in
  ∃ d, ai_game.agent_bikram g = Ok (ai.set_snake g (turn d (snake g)))
     ∧ Z.abs ((step (40, 40) d).1 - apple_x g) + Z.abs ((step (40, 40) d).2 - apple_y g)
       = Z.abs (40 - apple_x g) + Z.abs (40 - apple_y g) - SIZE.
Proof.
  intros g. apply (agent_bikram_heads_for_apple g 40 40).
  - reflexivity.
  - discriminate.
  - exists (-2). reflexivity.
  - exists (-2). reflexivity.
Defined.

(** ** The flood fills *)

Lemma reach_no_seeds (free : cell → bool) (k0 : nat) (c : cell) (k : nat) :
  ¬ reach free [] k0 c k.
Proof. induction 1 as [c Hc|]; [by apply elem_of_nil in Hc|done]. Qed.

(** X11. [count_available_space] of allagents.py returns the number of cells
    joined to the start by free cells (on the screen, off every segment but
    the last), cut off at 100; it is 0 exactly when the start itself is not
    free. *)
Theorem goal_agent_counts_free_component (g : Game) (x y : Z) (fuel : nat) :
  Snake.consistent (snake g) → (401 < fuel)%nat →
  let free := vacant (range 0 (Snake.length (snake g) - 1)) g in
  let seeds := if free (x, y) then [(x, y)] else [] in
  ∃ cells,
    allagents.GoalBasedAgent.count_available_space fuel g x y = Ok (length cells)
    ∧ NoDup cells
    ∧ (length cells ≤ 100)%nat
    ∧ (∀ c, c ∈ cells → connected free seeds c)
    ∧ ((length cells < 100)%nat → ∀ c, connected free seeds c → c ∈ cells)
    ∧ (length cells = 0%nat ↔ free (x, y) = false).
Proof.
  intros Hc Hfuel free seeds.
  destruct (count_available_space_dfs_spec g (x, y) Hc fuel Hfuel)
    as (cells & He & Hle & Hnd & Hconn & Hall).
  exists cells. do 5 (split; [done|]). split.
  - intros Hlen. destruct (free (x, y)) eqn:Hf; [|done].
    assert (Hin : (x, y) ∈ cells).
    { apply Hall; [lia|]. exists 0%nat. apply reach_seed.
      cbn [fst snd]. fold free. rewrite Hf. by left. }
    destruct cells; [by apply elem_of_nil in Hin|done].
  - intros Hf. destruct cells as [|c cells]; [done|].
    destruct (Hconn c) as [k Hk]; [by left|].
    cbn [fst snd] in Hk. fold free in Hk. rewrite Hf in Hk.
    by apply reach_no_seeds in Hk.
Qed.

Lemma goal_agent_counts_free_component_witness :
  let g := mkGame (Snake.mk down 3 [40; 40; 40] [120; 80; 40]) 0 0 (mkSurface 120 160) in
  let free := vacant (range 0 (Snake.length (snake g) - 1)) g in
  let seeds := if free (0, 0) then [(0, 0)] else [] in
  ∃ cells,
    allagents.GoalBasedAgent.count_available_space 402 g 0 0 = Ok (length cells)
    ∧ NoDup cells
    ∧ (length cells ≤ 100)%nat
    ∧ (∀ c, c ∈ cells → connected free seeds c)
    ∧ ((length cells < 100)%nat → ∀ c, connected free seeds c → c ∈ cells)
    ∧ (length cells = 0%nat ↔ free (0, 0) = false).
Proof.
  intros g. apply (goal_agent_counts_free_component g 0 0 402).
  - split; reflexivity.
  - lia.
Defined.

(** X12. [_bfs_accessible_spaces] of reflexagent.py counts its start cell
    without testing it, then the cells joined to it by free cells (on the
    screen, off the segments behind the head), and stops at 100: the count
    lies between 1 and 100 and is exact below 100. *)
Theorem accessible_spaces_counts_component (g : Game) (start_x start_y : Z) (fuel : nat) :
  Snake.consistent (snake g) → (100 < fuel)%nat →
  let free := vacant (range 1 (Snake.length (snake g))) g in
  ∃ cells,
    reflexagent._bfs_accessible_spaces fuel g start_x start_y = Ok (length cells)
    ∧ NoDup cells
    ∧ (1 ≤ length cells ≤ 100)%nat
    ∧ (∀ c, c ∈ cells → connected free [(start_x, start_y)] c)
    ∧ ((length cells < 100)%nat →
         ∀ c, connected free [(start_x, start_y)] c → c ∈ cells).
Proof.
  intros Hc Hfuel free.
  destruct (bfs_accessible_spaces_spec g (start_x, start_y) Hc fuel Hfuel)
    as (cells & He & Hle & Hnd & Hconn & Hall).
  exists cells. do 2 (split; [done|]). split; [|done]. split; [|done].
  destruct (decide (length cells < 100)%nat) as [Hlt|]; [|lia].
  assert (Hin : (start_x, start_y) ∈ cells).
  { apply Hall; [done|]. exists 0%nat. apply reach_seed. by left. }
  destruct cells; [by apply elem_of_nil in Hin|cbn; lia].
Qed.

Lemma accessible_spaces_counts_component_witness :
  let g := mkGame (Snake.mk down 3 [40; 40; 40] [120; 80; 40]) 0 0 (mkSurface 120 160) in
  let free := vacant (range 1 (Snake.length (snake g))) g in
  ∃ cells,
    reflexagent._bfs_accessible_spaces 101 g 40 80 = Ok (length cells)
    ∧ NoDup cells
    ∧ (1 ≤ length cells ≤ 100)%nat
    ∧ (∀ c, c ∈ cells → connected free [(40, 80)] c)
    ∧ ((length cells < 100)%nat → ∀ c, connected free [(40, 80)] c → c ∈ cells).
Proof.
  intros g. apply (accessible_spaces_counts_component g 40 80 101).
  - split; reflexivity.
  - lia.
Defined.

(** X13. [_count_available_space] of ai.py returns the number of cells that
    at most [max_depth] steps over passable cells (on the screen, off the
    whole body) join to the start; the start is counted untested, so the
    count is at least 1, and it is at most [(2 * max_depth + 1) ^ 2]. *)
Theorem count_available_space_counts_reachable (g : Game) (start_x start_y : Z)
    (max_depth fuel : nat) :
  Snake.consistent (snake g) →
  ((2 * max_depth + 1) * (2 * max_depth + 1) < fuel)%nat →
  ∃ cells,
    ai._count_available_space fuel g start_x start_y max_depth = Ok (length cells)
    ∧ NoDup cells
    ∧ (1 ≤ length cells ≤ (2 * max_depth + 1) * (2 * max_depth + 1))%nat
    ∧ ∀ c, c ∈ cells ↔
        ∃ k, (k ≤ max_depth)%nat ∧ reach (passable 0 g) [(start_x, start_y)] 0 c k.
Proof.
  intros Hc Hfuel.
  destruct (count_available_space_spec g (start_x, start_y) max_depth Hc fuel Hfuel)
    as (cells & He & Hnd & Hcells).
  exists cells. do 2 (split; [done|]). split; [|done]. split.
  - assert (Hin : (start_x, start_y) ∈ cells).
    { apply Hcells. exists 0%nat. split; [lia|]. apply reach_seed. by left. }
    destruct cells; [by apply elem_of_nil in Hin|cbn; lia].
  - rewrite <- (square_length (start_x, start_y) max_depth).
    apply submseteq_length, NoDup_submseteq; [done|].
    intros c Hin. apply Hcells in Hin as (k & Hk & Hr).
    apply (within_square (start_x, start_y) c k max_depth); [|done].
    apply (reach_within (passable 0 g) [(start_x, start_y)] 0); [|done].
    intros c' Hc'. apply list_elem_of_singleton in Hc' as ->.
    exists 0, 0. split; [cbn; f_equal; lia|lia].
Qed.

Lemma count_available_space_counts_reachable_witness :
  let g := mkGame (Snake.mk down 3 [160; 160; 160] [120; 80; 40]) 320 560 display in
  ∃ cells,
    ai._count_available_space 290 g 200 120 8 = Ok (length cells)
    ∧ NoDup cells
    ∧ (1 ≤ length cells ≤ (2 * 8 + 1) * (2 * 8 + 1))%nat
    ∧ ∀ c, c ∈ cells ↔
        ∃ k, (k ≤ 8)%nat ∧ reach (passable 0 g) [(200, 120)] 0 c k.
Proof.
  intros g. apply (count_available_space_counts_reachable g 200 120 8 290).
  - split; reflexivity.
  - simpl. lia.
Defined.

(** ** reflexagent.py: the utility agent *)

Lemma xadd_above (a b : xfloat) : above a → above b → above (xadd a b).
Proof. destruct a, b; done. Qed.

Lemma xscale_above (a : xfloat) (w : Q) : above a → (0 < w)%Q → above (xscale a w).
Proof.
  destruct a; try done. intros _ Hw. cbn.
  by rewrite (proj2 (Qltb_lt 0 w) Hw).
Qed.

Lemma xgt_above (u : xfloat) : above u → xgt u NegInf = true.
Proof. destruct u; done. Qed.

Lemma xgt_NegInf (b : xfloat) : xgt NegInf b = false.
Proof. destruct b; done. Qed.

Section shortest_path_proofs.

Variable g : Game.
Variable start target : cell.
Hypothesis snake_consistent : Snake.consistent (snake g).

Local Abbreviation free := (vacant (range 1 (Snake.length (snake g))) g).

Lemma probe_spec (x y : Z) (dist : nat) (ds : list Direction) : ∀ q v,
  ∃ r, reflexagent.probe g target x y dist (direction_moves <$> ds) q v = Ok r
    ∧ match r with
      | inl n => n = S dist ∧ ∃ d, step (x, y) d = target
      | inr (q', _) =>
          ∃ news, q' = q ++ news
            ∧ ∀ e, e ∈ news → e.2 = S dist ∧ free e.1 = true ∧ ∃ d, e.1 = step (x, y) d
      end.
Proof.
  induction ds as [|d ds IH]; intros q v.
  { eexists. split; [reflexivity|]. exists []. rewrite app_nil_r. split; [done|].
    intros e He. by apply elem_of_nil in He. }
  rewrite fmap_cons. destruct (direction_moves d) as [dx dy] eqn:Ed.
  cbn [reflexagent.probe].
  assert (Hstep : step (x, y) d = (x + dx, y + dy)) by (unfold step; by rewrite Ed).
  destruct (decide (x + dx = target.1 ∧ y + dy = target.2)) as [[H1 H2]|_].
  { eexists. split; [reflexivity|]. split; [lia|]. exists d. rewrite Hstep.
    destruct target. cbn in *. congruence. }
  destruct (on_screen g (x + dx) (y + dy)) eqn:Hon; cbn [negb]; [|apply IH].
  destruct (decide (_ ∈ v)) as [_|_]; [apply IH|].
  rewrite occupies_pure; [|done|intros i Hi; apply range_lt in Hi; lia].
  cbn [mbind result_bind].
  destruct (body_at (snake g) (x + dx) (y + dy) _) eqn:Hb; [apply IH|].
  destruct (IH (q ++ [(x + dx, y + dy, (dist + 1)%nat)]) ({[(x + dx, y + dy)]} ∪ v))
    as (r & -> & Hr).
  eexists. split; [reflexivity|]. destruct r as [n|[q' v']]; [done|].
  destruct Hr as (news & -> & Hnews).
  exists ((x + dx, y + dy, (dist + 1)%nat) :: news). rewrite <- app_assoc. split; [done|].
  intros e He. apply elem_of_cons in He as [->|He]; [|by apply Hnews].
  cbn [fst snd]. split; [lia|]. split; [|by exists d].
  unfold vacant. cbn [fst snd]. by rewrite Hon, Hb.
Qed.

Lemma shortest_loop_spec (fuel : nat) : ∀ queue visited iterations,
  (∀ e, e ∈ queue → reach free [start] 0 e.1 e.2) →
  (iterations ≤ 200)%nat → (200 < fuel + iterations)%nat →
  ∃ r, reflexagent.shortest_loop fuel g target queue visited iterations = Ok r
    ∧ match r with
      | Some n => ∃ c d m, n = S m ∧ reach free [start] 0 c m ∧ step c d = target
      | None => True
      end.
Proof.
  induction fuel as [|fuel IH]; intros queue visited iterations Hq Hit0 Hfuel; [lia|].
  cbn [reflexagent.shortest_loop]. destruct queue as [|[[x y] dist] queue]; [by eexists|].
  destruct (decide (200 ≤ iterations)%nat) as [_|Hit]; [by eexists|].
  destruct (probe_spec x y dist [right; left; down; up] queue visited) as (r & Hr & Hspec).
  change (direction_moves <$> [right; left; down; up]) with reflexagent.directions in Hr.
  rewrite Hr. cbn [mbind result_bind].
  assert (Hxy : reach free [start] 0 (x, y) dist) by (apply (Hq (x, y, dist)); by left).
  destruct r as [n|[q' v']].
  - destruct Hspec as (-> & d & Hd). eexists. split; [reflexivity|].
    exists (x, y), d, dist. done.
  - destruct Hspec as (news & -> & Hnews). apply IH; [|lia|lia].
    intros e He. apply elem_of_app in He as [He|He].
    + apply Hq. by right.
    + destruct e as [c k]. destruct (Hnews _ He) as (Hk & Hf & d & Hd).
      cbn [fst snd] in *. subst k c. by apply reach_step.
Qed.

End shortest_path_proofs.

Lemma bfs_shortest_path_spec (g : Game) (start_x start_y target_x target_y : Z)
    (fuel : nat) :
  Snake.consistent (snake g) → (200 < fuel)%nat →
  let free := vacant (range 1 (Snake.length (snake g))) g in
  ∃ r, reflexagent._bfs_shortest_path fuel g start_x start_y target_x target_y = Ok r
    ∧ (r = Some 0%nat ↔ (start_x, start_y) = (target_x, target_y))
    ∧ ∀ n, r = Some (S n) →
        ∃ c d, reach free [(start_x, start_y)] 0 c n ∧ step c d = (target_x, target_y).
Proof.
  intros Hc Hfuel free. unfold reflexagent._bfs_shortest_path.
  destruct (decide (start_x = target_x ∧ start_y = target_y)) as [[-> ->]|Hne].
  { eexists. split; [reflexivity|]. split; [done|]. intros n Hn. discriminate. }
  destruct (shortest_loop_spec g (start_x, start_y) (target_x, target_y) Hc fuel
              [(start_x, start_y, 0%nat)] {[(start_x, start_y)]} 0%nat)
    as (r & Hr & Hspec).
  { intros e He. apply list_elem_of_singleton in He as ->. apply reach_seed. by left. }
  { lia. }
  { lia. }
  exists r. split; [done|]. split.
  - split.
    + intros ->. destruct Hspec as (c & d & m & Hm & _). discriminate.
    + intros [= -> ->]. tauto.
  - intros n ->. destruct Hspec as (c & d & m & [= ->] & Hreach & Hstep). eauto.
Qed.


(** X14. [_bfs_shortest_path] returns 0 exactly when start and target are the
    same cell.  Otherwise it returns, after at most 200 dequeued cells, either
    [None] or a length [m + 1] such that some cell [m] free steps from the
    start (on the screen, off the segments behind the head) is a neighbour of
    the target; the target itself is not tested. *)
Theorem bfs_shortest_path_sound (g : Game) (start_x start_y target_x target_y : Z)
    (fuel : nat) :
  Snake.consistent (snake g) → (200 < fuel)%nat →
  let free := vacant (range 1 (Snake.length (snake g))) g in
  ∃ r, reflexagent._bfs_shortest_path fuel g start_x start_y target_x target_y = Ok r
    ∧ (r = Some 0%nat ↔ (start_x, start_y) = (target_x, target_y))
    ∧ ∀ n, r = Some (S n) →
        ∃ c d, reach free [(start_x, start_y)] 0 c n ∧ step c d = (target_x, target_y).
Proof. apply bfs_shortest_path_spec. Qed.

Lemma bfs_shortest_path_sound_witness :
  let g := mkGame (Snake.mk down 3 [160; 160; 160] [120; 80; 40]) 320 560 display in
  let free := vacant (range 1 (Snake.length (snake g))) g in
  ∃ r, reflexagent._bfs_shortest_path 201 g 160 160 320 560 = Ok r
    ∧ (r = Some 0%nat ↔ (160, 160) = (320, 560))
    ∧ ∀ n, r = Some (S n) →
        ∃ c d, reach free [(160, 160)] 0 c n ∧ step c d = (320, 560).
Proof.
  intros g. apply (bfs_shortest_path_sound g 160 160 320 560 201).
  - split; reflexivity.
  - lia.
Defined.

Lemma determine_goals_spec (g : Game) (hx hy : Z) :
  Snake.segment (snake g) 0 = Some (hx, hy) →
  ∃ goals, reflexagent._determine_goals g = Ok goals
    ∧ (reflexagent.reach_apple goals == 1)%Q
    ∧ (8 # 10 <= reflexagent.avoid_death goals <= 1)%Q
    ∧ (6 # 10 <= reflexagent.maintain_space goals <= 8 # 10)%Q
    ∧ (reflexagent.efficient_movement goals == 3 # 10)%Q.
Proof.
  intros Hh. apply head_segment in Hh as [Hx Hy].
  unfold reflexagent._determine_goals. rewrite Hx, Hy. cbn [mbind result_bind].
  eexists. split; [reflexivity|].
  destruct (decide (10 < Snake.length (snake g))%nat);
    destruct (decide (_ < SIZE * 3)); cbn; repeat split; try reflexivity;
    try (apply Qle_bool_imp_le; reflexivity).
Qed.

Section utility_agent_proofs.

Variable math_sqrt : Z → Q.
Variable g : Game.
Variable hx hy : Z.
Variable fuel : nat.
Hypothesis snake_consistent : Snake.consistent (snake g).
Hypothesis head_at : Snake.segment (snake g) 0 = Some (hx, hy).
Hypothesis enough_fuel : (200 < fuel)%nat.

Lemma safety_utility_above (next_x next_y : Z) :
  ∃ u, reflexagent._calculate_safety_utility math_sqrt g next_x next_y = Ok u ∧ above u.
Proof.
  unfold reflexagent._calculate_safety_utility.
  destruct (min_body_distance_total math_sqrt g snake_consistent next_x next_y
              (range 1 (Snake.length (snake g))) None) as [mbd ->].
  { intros i Hi. apply range_lt in Hi. lia. }
  cbn [mbind result_bind]. eexists. split; [reflexivity|].
  destruct mbd as [m|]; cbn.
  - destruct (Qltb m _); done.
  - done.
Qed.

Lemma evaluate_action_utility_spec (goals : reflexagent.Goals) (d : Direction) :
  (0 < reflexagent.avoid_death goals)%Q →
  ∃ u, reflexagent._evaluate_action_utility math_sqrt fuel g d goals = Ok u
    ∧ (passable 1 g (step (hx, hy) d) = false → u = NegInf)
    ∧ (passable 1 g (step (hx, hy) d) = true → above u).
Proof.
  intros Hw. pose proof (head_segment _ _ _ head_at) as [Hx Hy].
  unfold reflexagent._evaluate_action_utility.
  rewrite (potential_head_ok g hx hy d Hx Hy). cbn [mbind result_bind].
  rewrite potential_move_passable_xy by done. cbn [mbind result_bind].
  change (hx + (direction_moves d).1, hy + (direction_moves d).2) with (step (hx, hy) d).
  destruct (passable 1 g (step (hx, hy) d)) eqn:Hp; cbn [negb].
  2:{ exists NegInf. split; [done|]. split; [done|discriminate]. }
  set (nx := hx + (direction_moves d).1). set (ny := hy + (direction_moves d).2).
  assert (Happle : ∃ au, reflexagent._calculate_apple_utility math_sqrt fuel g nx ny = Ok au).
  { unfold reflexagent._calculate_apple_utility.
    destruct (bfs_shortest_path_spec g nx ny (apple_x g) (apple_y g) fuel
                snake_consistent enough_fuel) as ([n|] & -> & _); cbn [mbind result_bind].
    - rewrite Hx, Hy. cbn [mbind result_bind]. eauto.
    - eauto. }
  destruct Happle as [au ->]. cbn [mbind result_bind].
  destruct (safety_utility_above nx ny) as (su & -> & Hsu). cbn [mbind result_bind].
  unfold reflexagent._calculate_space_utility.
  destruct (bfs_accessible_spaces_spec g (nx, ny) snake_consistent fuel) as (cells & Hcells & _);
    [lia|].
  cbn [fst snd] in Hcells. rewrite Hcells. cbn [mbind result_bind].
  unfold reflexagent._calculate_efficiency_utility. rewrite Hx, Hy.
  cbn [mbind result_bind].
  rewrite (potential_head_ok g hx hy d Hx Hy). cbn [mbind result_bind].
  eexists. split; [reflexivity|]. split; [discriminate|]. intros _.
  repeat apply xadd_above; try done. by apply xscale_above.
Qed.


Lemma evaluate_all_spec (goals : reflexagent.Goals) (ds : list Direction) :
  (0 < reflexagent.avoid_death goals)%Q →
  ∀ ba bu,
    (ba = None ∧ bu = NegInf) ∨ (∃ a, ba = Some a ∧ above bu) →
    ∃ ba' bu',
      reflexagent.evaluate_all math_sqrt fuel g goals ds ba bu = Ok (ba', bu')
      ∧ (ba' = ba ∨ ∃ a, ba' = Some a ∧ a ∈ ds ∧ passable 1 g (step (hx, hy) a) = true)
      ∧ (ba' = None → ba = None ∧ ∀ d, d ∈ ds → passable 1 g (step (hx, hy) d) = false).
Proof.
  intros Hw. induction ds as [|d ds IH]; intros ba bu Hinv.
  { cbn [reflexagent.evaluate_all]. exists ba, bu. split; [done|]. split; [by left|].
    intros ->. split; [done|]. intros d Hd. by apply elem_of_nil in Hd. }
  cbn [reflexagent.evaluate_all].
  destruct (evaluate_action_utility_spec goals d Hw) as (u & -> & Hblocked & Hfree).
  cbn [mbind result_bind].
  destruct (passable 1 g (step (hx, hy) d)) eqn:Hp.
  - specialize (Hfree eq_refl). destruct (xgt u bu) eqn:Hgt.
    + destruct (IH (Some d) u) as (ba' & bu' & -> & Hsel & Hnone); [right; eauto|].
      exists ba', bu'. split; [done|]. split.
      * right. destruct Hsel as [->|(a & -> & Ha & Hpa)].
        -- exists d. split; [done|]. split; [by left|done].
        -- exists a. split; [done|]. split; [by right|done].
      * intros ->. by destruct (Hnone eq_refl).
    + destruct Hinv as [[-> ->]|(a & -> & Habove)].
      { rewrite xgt_above in Hgt by done. discriminate. }
      destruct (IH (Some a) bu) as (ba' & bu' & -> & Hsel & Hnone); [right; eauto|].
      exists ba', bu'. split; [done|]. split.
      * destruct Hsel as [->|(a' & -> & Ha & Hpa)]; [by left|].
        right. exists a'. split; [done|]. split; [by right|done].
      * intros ->. by destruct (Hnone eq_refl).
  - rewrite (Hblocked eq_refl), xgt_NegInf.
    destruct (IH ba bu Hinv) as (ba' & bu' & -> & Hsel & Hnone).
    exists ba', bu'. split; [done|]. split.
    + destruct Hsel as [->|(a' & -> & Ha & Hpa)]; [by left|].
      right. exists a'. split; [done|]. split; [by right|done].
    + intros ->. destruct (Hnone eq_refl) as [-> Hds]. split; [done|].
      intros d' Hd'. apply elem_of_cons in Hd' as [->|Hd']; [done|by apply Hds].
Qed.

Lemma fallback_spec (ds : list Direction) :
  ∃ g', reflexagent.fallback g ds = Ok g'
    ∧ (g' = g ∧ (∀ d, d ∈ ds → passable 1 g (step (hx, hy) d) = false)
       ∨ ∃ a, a ∈ ds ∧ passable 1 g (step (hx, hy) a) = true
            ∧ g' = reflexagent._execute_action a g).
Proof.
  pose proof (head_segment _ _ _ head_at) as [Hx Hy].
  induction ds as [|d ds IH]; cbn [reflexagent.fallback].
  { exists g. split; [done|]. left. split; [done|]. intros d Hd. by apply elem_of_nil in Hd. }
  rewrite (potential_head_ok g hx hy d Hx Hy). cbn [mbind result_bind].
  rewrite potential_move_passable_xy by done. cbn [mbind result_bind].
  change (hx + (direction_moves d).1, hy + (direction_moves d).2) with (step (hx, hy) d).
  destruct (passable 1 g (step (hx, hy) d)) eqn:Hp; cbn [negb].
  - eexists. split; [reflexivity|]. right. exists d. split; [by left|done].
  - destruct IH as (g' & -> & [[-> Hall]|(a & Ha & Hpa & ->)]).
    + exists g. split; [done|]. left. split; [done|].
      intros d' Hd'. apply elem_of_cons in Hd' as [->|Hd']; [done|by apply Hall].
    + eexists. split; [reflexivity|]. right. exists a. split; [by right|done].
Qed.

End utility_agent_proofs.

Lemma valid_actions_spec (heading d : Direction) :
  d ∈ filter (λ action, action ≠ opposite heading) [left; right; up; down]
  ↔ d ≠ opposite heading.
Proof.
  rewrite list_elem_of_filter. split; [tauto|]. intros H. split; [done|].
  destruct d; repeat constructor.
Qed.

(** X15. [utility_agent] of reflexagent.py.  Whenever a direction other than
    the reverse of the heading is collision-free, the agent returns and turns
    the snake to a direction that is collision-free and is not the reverse of
    the heading. *)
Theorem reflex_utility_agent_avoids_collision (math_sqrt : Z → Q) (fuel : nat) (g : Game)
    (hx hy : Z) (d0 : Direction) :
  Snake.consistent (snake g) →
  Snake.segment (snake g) 0 = Some (hx, hy) →
  (200 < fuel)%nat →
  d0 ≠ opposite (Snake.direction (snake g)) →
  passable 1 g (step (hx, hy) d0) = true →
  ∃ d, reflexagent.utility_agent math_sqrt fuel g = Ok (ai.set_snake g (turn d (snake g)))
     ∧ d ≠ opposite (Snake.direction (snake g))
     ∧ passable 1 g (step (hx, hy) d) = true
     ∧ Snake.direction (turn d (snake g)) = d.
Proof.
  intros Hc Hh Hfuel Hd0 Hp0. unfold reflexagent.utility_agent.
  destruct (determine_goals_spec g hx hy Hh) as (goals & -> & _ & [Hw _] & _).
  cbn [mbind result_bind].
  destruct (evaluate_all_spec math_sqrt g hx hy fuel Hc Hh Hfuel goals
              (filter (λ action, action ≠ opposite (Snake.direction (snake g)))
                 [left; right; up; down]) ltac:(lra) None NegInf)
    as (ba & bu & -> & Hsel & Hnone); [by left|].
  cbn [mbind result_bind]. destruct ba as [a|].
  - destruct Hsel as [?|(a' & [= <-] & Ha & Hpa)]; [done|].
    apply valid_actions_spec in Ha. exists a. split; [done|]. split; [done|].
    split; [done|]. by apply turn_sets_direction.
  - destruct (Hnone eq_refl) as [_ Hall].
    rewrite (Hall d0) in Hp0; [done|]. by apply valid_actions_spec.
Qed.

Lemma reflex_utility_agent_avoids_collision_witness :
  let g := mkGame (Snake.mk down 3 [160; 160; 160] [120; 80; 40]) 320 560 display in
  let math_sqrt := λ z : Z, inject_Z (Z.sqrt z) in
  ∃ d, reflexagent.utility_agent math_sqrt 201 g = Ok (ai.set_snake g (turn d (snake g)))
     ∧ d ≠ opposite (Snake.direction (snake g))
     ∧ passable 1 g (step (160, 120) d) = true
     ∧ Snake.direction (turn d (snake g)) = d.
Proof.
  intros g math_sqrt.
  apply (reflex_utility_agent_avoids_collision math_sqrt 201 g 160 120 down).
  - split; reflexivity.
  - reflexivity.
  - lia.
  - discriminate.
  - reflexivity.
Defined.

(** X16. when every direction other than the reverse of the heading is
    blocked, [utility_agent] leaves the snake as it is: its emergency
    fallback can only request the reverse, which the snake ignores. *)
Theorem reflex_utility_agent_cornered (math_sqrt : Z → Q) (fuel : nat) (g : Game)
    (hx hy : Z) :
  Snake.consistent (snake g) →
  Snake.segment (snake g) 0 = Some (hx, hy) →
  (200 < fuel)%nat →
  (∀ d, d ≠ opposite (Snake.direction (snake g)) →
        passable 1 g (step (hx, hy) d) = false) →
  ∃ g', reflexagent.utility_agent math_sqrt fuel g = Ok g' ∧ snake g' = snake g.
Proof.
  intros Hc Hh Hfuel Hall. unfold reflexagent.utility_agent.
  destruct (determine_goals_spec g hx hy Hh) as (goals & -> & _ & [Hw _] & _).
  cbn [mbind result_bind].
  destruct (evaluate_all_spec math_sqrt g hx hy fuel Hc Hh Hfuel goals
              (filter (λ action, action ≠ opposite (Snake.direction (snake g)))
                 [left; right; up; down]) ltac:(lra) None NegInf)
    as (ba & bu & -> & Hsel & _); [by left|].
  cbn [mbind result_bind].
  destruct Hsel as [->|(a & -> & Ha & Hpa)].
  2:{ apply valid_actions_spec in Ha. by rewrite (Hall a Ha) in Hpa. }
  destruct (fallback_spec g hx hy Hc Hh [left; right; up; down])
    as (g' & -> & [[-> _]|(a & _ & Hpa & ->)]).
  - by exists g.
  - eexists. split; [reflexivity|].
    destruct (decide (a = opposite (Snake.direction (snake g)))) as [->|Hne].
    + cbn. destruct (snake g) as [dir len xs ys]. by destruct dir.
    + by rewrite (Hall a Hne) in Hpa.
Qed.

Lemma reflex_utility_agent_cornered_witness :
  let g := mkGame (Snake.mk up 4 [0; 0; 40; 40] [80; 40; 40; 80]) 400 400 display in
  let math_sqrt := λ z : Z, inject_Z (Z.sqrt z) in
  ∃ g', reflexagent.utility_agent math_sqrt 201 g = Ok g' ∧ snake g' = snake g.
Proof.
  intros g math_sqrt. apply (reflex_utility_agent_cornered math_sqrt 201 g 0 80).
  - split; reflexivity.
  - reflexivity.
  - lia.
  - intros d Hd. destruct d; try reflexivity. by destruct Hd.
Defined.

(** ** learning.py: the Q-table and the exploration rate *)

(** X17. for a state whose heading is one of 0..3,
    [get_valid_actions_for_state] returns indices below 4, each listed once:
    exactly the actions that do not reverse the heading stored in the state
    and whose danger bit is 0. *)
Theorem valid_actions_for_state_spec (st : learning.State) :
  0 ≤ st.2 ≤ 3 →
  ∃ heading valid,
    learning.direction_map_rev st.2 = Ok heading
    ∧ learning.get_valid_actions_for_state st = Ok valid
    ∧ NoDup valid
    ∧ ∀ i, i ∈ valid ↔
        ∃ name, learning.actions !! i = Some name ∧ name ≠ opposite heading
                ∧ learning.tuple4_item st.1.2 i = Ok 0.
Proof.
  destruct st as [[[ax ay] dangers] dir]. cbn [fst snd].
  intros Hdir. destruct (direction_map_rev_total dir Hdir) as [heading Hh].
  destruct (valid_from_spec heading dangers) as (valid & Hv & Hmem).
  exists heading, valid. split; [done|].
  unfold learning.get_valid_actions_for_state. rewrite Hh. cbn [mbind result_bind].
  split; [done|]. split; [|done].
  clear Hmem. destruct dangers as [[[d0 d1] d2] d3].
  unfold learning.actions in Hv. cbn in Hv.
  destruct heading; cbn in Hv;
    repeat (match type of Hv with context [decide ?P] => destruct (decide P) end);
    injection Hv as <-; repeat constructor; set_solver.
Qed.

Lemma valid_actions_for_state_spec_witness :
  let st : learning.State := (1, -1, (0, 1, 0, 0), 2) in
  ∃ heading valid,
     learning.direction_map_rev st.2 = Ok heading
     ∧ learning.get_valid_actions_for_state st = Ok valid
     ∧ NoDup valid
     ∧ ∀ i, i ∈ valid ↔
         ∃ name, learning.actions !! i = Some name ∧ name ≠ opposite heading
                 ∧ learning.tuple4_item st.1.2 i = Ok 0.
Proof.
  intros st. apply (valid_actions_for_state_spec st). simpl. lia.
Defined.

Lemma ensure_row_lookup (table : gmap learning.State (list Q)) (key k : learning.State) :
  learning.ensure_row table key !! k
  = if decide (k = key) then Some (default (replicate learning.n_actions 0%Q) (table !! key))
    else table !! k.
Proof.
  unfold learning.ensure_row. destruct (decide (k = key)) as [->|Hne].
  - destruct (table !! key) eqn:E; [by rewrite E|]. by rewrite lookup_insert_eq.
  - destruct (table !! key); [done|]. by rewrite lookup_insert_ne.
Qed.

(** X18. on a table whose rows have four entries, with an action below 4 and
    a next state whose heading is one of 0..3, [update_q_table] returns and
    keeps the table well formed.  It changes one entry only, that of
    [(state, action)]: the other entries of the row and every other row stay
    as they were, a missing row of [state] or [next_state] being created as
    zeros; the learning parameters are untouched. *)
Theorem update_q_table_frame (a : learning.QLearningAgent) (state : learning.State)
    (action : nat) (reward : Q) (next_state : learning.State) (done : bool) :
  (∀ k row, learning.q_table a !! k = Some row → length row = learning.n_actions) →
  (action < learning.n_actions)%nat →
  0 ≤ next_state.2 ≤ 3 →
  ∃ a' row',
    learning.update_q_table a state action reward next_state done = Ok a'
    ∧ (∀ k row, learning.q_table a' !! k = Some row → length row = learning.n_actions)
    ∧ learning.learning_rate a' = learning.learning_rate a
    ∧ learning.discount_factor a' = learning.discount_factor a
    ∧ learning.epsilon a' = learning.epsilon a
    ∧ learning.q_table a' !! state = Some row'
    ∧ (∀ i, i ≠ action →
         row' !! i
         = default (replicate learning.n_actions 0%Q) (learning.q_table a !! state) !! i)
    ∧ (∀ k, k ≠ state →
         learning.q_table a' !! k
         = if decide (k = next_state)
           then Some (default (replicate learning.n_actions 0%Q)
                        (learning.q_table a !! next_state))
           else learning.q_table a !! k).
Proof.
  intros Hwf Hact Hdir.
  destruct (learning_update_spec a state action reward next_state done Hwf Hact Hdir)
    as (row & next_row & valid & q & Hrow & Hnext & Hq & _ & _ & Hupd).
  cbn zeta in *. rewrite Hupd.
  set (table := learning.ensure_row (learning.ensure_row (learning.q_table a) state)
                  next_state) in *.
  assert (Hwf2 : ∀ k r, table !! k = Some r → length r = learning.n_actions).
  { apply ensure_row_wf. by apply ensure_row_wf. }
  eexists _, _. split; [reflexivity|]. cbn [learning.q_table learning.set_q_table
    learning.learning_rate learning.discount_factor learning.epsilon].
  split.
  { intros k r Hk. destruct (decide (k = state)) as [->|Hne].
    - rewrite lookup_insert_eq in Hk. injection Hk as <-.
      rewrite length_insert. by apply (Hwf2 state).
    - rewrite lookup_insert_ne in Hk by done. by apply (Hwf2 k). }
  do 3 (split; [done|]). split; [by rewrite lookup_insert_eq|]. split.
  - intros i Hi. rewrite list_lookup_insert_ne by done.
    unfold table in Hrow. rewrite ensure_row_lookup in Hrow.
    destruct (decide (state = next_state)) as [<-|Hne];
      rewrite ensure_row_lookup, decide_True in Hrow by done;
      injection Hrow as <-; done.
  - intros k Hk. rewrite lookup_insert_ne by done. unfold table.
    rewrite !ensure_row_lookup. rewrite (decide_False (P := k = state)) by done.
    destruct (decide (k = next_state)) as [->|Hne]; [|done].
    rewrite (decide_False (P := next_state = state)) by done. done.
Qed.

Lemma update_q_table_frame_witness :
  let s : learning.State := (1, 0, (0, 0, 0, 1), 1) in
  let s' : learning.State := (1, 0, (0, 0, 1, 0), 3) in
  ∃ a' row',
    learning.update_q_table learning.init s 3 10 s' false = Ok a'
    ∧ (∀ k row, learning.q_table a' !! k = Some row → length row = learning.n_actions)
    ∧ learning.learning_rate a' = learning.learning_rate learning.init
    ∧ learning.discount_factor a' = learning.discount_factor learning.init
    ∧ learning.epsilon a' = learning.epsilon learning.init
    ∧ learning.q_table a' !! s = Some row'
    ∧ (∀ i, i ≠ 3%nat →
         row' !! i
         = default (replicate learning.n_actions 0%Q)
             (learning.q_table learning.init !! s) !! i)
    ∧ (∀ k, k ≠ s →
         learning.q_table a' !! k
         = if decide (k = s')
           then Some (default (replicate learning.n_actions 0%Q)
                        (learning.q_table learning.init !! s'))
           else learning.q_table learning.init !! k).
Proof.
  intros s s'. apply (update_q_table_frame learning.init s 3 10 s' false).
  - intros k row Hk. simpl in Hk. done.
  - vm_compute. lia.
  - simpl. lia.
Defined.

Lemma update_bad_action (a : learning.QLearningAgent) (state : learning.State)
    (action : nat) (reward : Q) (next_state : learning.State) (done : bool) :
  (∀ k row, learning.q_table a !! k = Some row → length row = learning.n_actions) →
  (learning.n_actions ≤ action)%nat →
  learning.update_q_table a state action reward next_state done = Raise IndexError.
Proof.
  intros Hwf Hact. unfold learning.update_q_table.
  set (table := learning.ensure_row (learning.ensure_row (learning.q_table a) state)
                  next_state).
  assert (Hwf2 : ∀ k r, table !! k = Some r → length r = learning.n_actions).
  { apply ensure_row_wf. by apply ensure_row_wf. }
  destruct (ensure_row_self (learning.q_table a) state) as (row & Hrow1 & _).
  pose proof (ensure_row_keeps _ next_state state row Hrow1) as Hrow. fold table in Hrow.
  unfold learning.row_of. rewrite Hrow. cbn [mbind result_bind].
  unfold getitem. rewrite lookup_ge_None_2; [done|]. rewrite (Hwf2 _ _ Hrow). done.
Qed.

Lemma update_bad_heading (a : learning.QLearningAgent) (state : learning.State)
    (action : nat) (reward : Q) (next_state : learning.State) :
  (∀ k row, learning.q_table a !! k = Some row → length row = learning.n_actions) →
  (action < learning.n_actions)%nat →
  ¬ 0 ≤ next_state.2 ≤ 3 →
  learning.update_q_table a state action reward next_state false = Raise KeyError
  ∧ ∃ a', learning.update_q_table a state action reward next_state true = Ok a'.
Proof.
  intros Hwf Hact Hdir. unfold learning.update_q_table.
  set (table := learning.ensure_row (learning.ensure_row (learning.q_table a) state)
                  next_state).
  assert (Hwf2 : ∀ k r, table !! k = Some r → length r = learning.n_actions).
  { apply ensure_row_wf. by apply ensure_row_wf. }
  destruct (ensure_row_self (learning.q_table a) state) as (row & Hrow1 & _).
  pose proof (ensure_row_keeps _ next_state state row Hrow1) as Hrow. fold table in Hrow.
  unfold learning.row_of. rewrite Hrow. cbn [mbind result_bind].
  destruct (lookup_lt_is_Some_2 row action) as [q Hq]; [by rewrite (Hwf2 _ _ Hrow)|].
  unfold getitem. rewrite Hq. cbn [mbind result_bind]. split.
  - destruct next_state as [[[ax ay] dangers] dir]. cbn [snd] in Hdir.
    unfold learning.get_valid_actions_for_state, learning.direction_map_rev.
    repeat case_decide; try lia. done.
  - unfold setitem. rewrite decide_True by (rewrite (Hwf2 _ _ Hrow); done).
    cbn [mbind result_bind]. eauto.
Qed.

(** X19. the two errors of [update_q_table] on a table whose rows have four
    entries.  An action index of 4 or more raises [IndexError], on a terminal
    transition as on any other.  With an action below 4, a next state whose
    heading is not one of 0..3 raises [KeyError] on a transition that is not
    terminal; on a terminal one the next state is not inspected and the
    update goes through. *)
Theorem update_q_table_errors (a : learning.QLearningAgent) (state : learning.State)
    (action : nat) (reward : Q) (next_state : learning.State) :
  (∀ k row, learning.q_table a !! k = Some row → length row = learning.n_actions) →
  (learning.n_actions ≤ action)%nat ∨ ¬ 0 ≤ next_state.2 ≤ 3 →
  learning.update_q_table a state action reward next_state false
  = Raise (if decide (learning.n_actions ≤ action)%nat then IndexError else KeyError)
  ∧ match learning.update_q_table a state action reward next_state true with
    | Ok _ => (action < learning.n_actions)%nat
    | Raise e => e = IndexError ∧ (learning.n_actions ≤ action)%nat
    | OutOfFuel => False
    end.
Proof.
  intros Hwf Hbad. destruct (decide (learning.n_actions ≤ action)%nat) as [Hact|Hact].
  - rewrite !update_bad_action by done. done.
  - destruct Hbad as [Hbad|Hdir]; [done|].
    destruct (update_bad_heading a state action reward next_state Hwf) as [-> [a' ->]];
      [lia|done|]. split; [done|lia].
Qed.

Lemma update_q_table_errors_witness :
  let s : learning.State := (0, 0, (0, 0, 0, 0), 0) in
  let s' : learning.State := (0, 0, (0, 0, 0, 0), 7) in
  learning.update_q_table learning.init s 1 5 s' false
  = Raise (if decide (learning.n_actions ≤ 1)%nat then IndexError else KeyError)
  ∧ match learning.update_q_table learning.init s 1 5 s' true with
    | Ok _ => (1 < learning.n_actions)%nat
    | Raise e => e = IndexError ∧ (learning.n_actions ≤ 1)%nat
    | OutOfFuel => False
    end.
Proof.
  intros s s'. apply (update_q_table_errors learning.init s 1 5 s').
  - intros k row Hk. simpl in Hk. done.
  - right. simpl. lia.
Defined.




(** X21. the exploration rate of learning.py never grows, and its real floor
    is [epsilon_min * epsilon_decay]: with a decay factor between 0 and 1 and
    a rate that starts at or above a minimum that is not negative, every
    number of decay steps leaves the rate between [epsilon_min *
    epsilon_decay] and its starting value. *)
Theorem decay_epsilon_bounds (k : nat) (a : learning.QLearningAgent) :
  (0 <= learning.epsilon_decay a <= 1)%Q →
  (0 <= learning.epsilon_min a)%Q →
  (learning.epsilon_min a <= learning.epsilon a)%Q →
  let a' := Nat.iter k learning.decay_epsilon a in
  (learning.epsilon_min a * learning.epsilon_decay a <= learning.epsilon a')%Q
  ∧ (learning.epsilon a' <= learning.epsilon a)%Q
  ∧ learning.epsilon_min a' = learning.epsilon_min a
  ∧ learning.epsilon_decay a' = learning.epsilon_decay a
  ∧ learning.q_table a' = learning.q_table a.
Proof.
  intros Hdecay Hmin Hstart. cbn zeta.
  assert (Hfloor : (learning.epsilon_min a * learning.epsilon_decay a
                    <= learning.epsilon a)%Q) by nra.
  clear Hstart.
  induction k as [|k IH].
  { cbn. split; [done|]. split; [apply Qle_refl|done]. }
  change (Nat.iter (S k) learning.decay_epsilon a)
    with (learning.decay_epsilon (Nat.iter k learning.decay_epsilon a)).
  destruct IH as (Hlo & Hhi & Hm & Hd & Ht).
  set (b := Nat.iter k learning.decay_epsilon a) in *.
  unfold learning.decay_epsilon.
  destruct (Qltb (learning.epsilon_min b) (learning.epsilon b)) eqn:E.
  - apply Qltb_lt in E. rewrite Hm in E.
    cbn [learning.epsilon learning.set_epsilon learning.epsilon_min
         learning.epsilon_decay learning.q_table].
    rewrite Hd. split; [nra|]. split; [nra|]. done.
  - done.
Qed.

Lemma decay_epsilon_bounds_witness :
  let a' := Nat.iter 5 learning.decay_epsilon learning.init in
  (learning.epsilon_min learning.init * learning.epsilon_decay learning.init
   <= learning.epsilon a')%Q
  ∧ (learning.epsilon a' <= learning.epsilon learning.init)%Q
  ∧ learning.epsilon_min a' = learning.epsilon_min learning.init
  ∧ learning.epsilon_decay a' = learning.epsilon_decay learning.init
  ∧ learning.q_table a' = learning.q_table learning.init.
Proof.
  apply (decay_epsilon_bounds 5 learning.init).
  - split; vm_compute; discriminate.
  - vm_compute. discriminate.
  - vm_compute. discriminate.
Defined.

(** X22. the step reward of learning.py has two values on the grid.  With
    the head a whole number of cells away from the apple along both axes and
    a transition that neither ends the game nor eats the apple, [get_reward]
    returns 10 or -15; the branch that subtracts 5 for an unchanged distance
    is never taken. *)
Theorem learning_step_reward_on_grid (g : Game) (old_state new_state : learning.State)
    (action : nat) (hx hy : Z) :
  Snake.segment (snake g) 0 = Some (hx, hy) →
  (action < learning.n_actions)%nat →
  (SIZE | hx - apple_x g) → (SIZE | hy - apple_y g) →
  ∃ r, learning.get_reward g old_state action new_state false false = Ok r
     ∧ (r = 10 ∨ r = -15).
Proof.
  intros Hh Hact [kx Hkx] [ky Hky]. apply head_segment in Hh as [Hx Hy].
  unfold learning.get_reward. rewrite Hx, Hy. cbn [mbind result_bind].
  unfold learning.n_actions, learning.actions in *. cbn [length] in Hact.
  unfold SIZE in *.
  assert (Hsq : ∀ u k : Z, u = k * 40 →
            (u + 40) ^ 2 ≠ u ^ 2 ∧ (u - 40) ^ 2 ≠ u ^ 2).
  { intros u k ->. split; nia. }
  destruct (Hsq _ _ Hkx) as [Hx1 Hx2]. destruct (Hsq _ _ Hky) as [Hy1 Hy2].
  destruct action as [|[|[|[|?]]]]; [| | | |lia];
    cbn [getitem lookup list_lookup mbind result_bind];
    rewrite (potential_head_ok g hx hy _ Hx Hy); cbn [mbind result_bind];
    cbn [direction_moves fst snd]; unfold SIZE;
    repeat case_decide; eexists; (split; [reflexivity|]); try (by left); try (by right);
    exfalso.
  - replace (hy + -40 - apple_y g) with (hy - apple_y g - 40) in * by lia.
    replace (hx + 0 - apple_x g) with (hx - apple_x g) in * by lia. lia.
  - replace (hy + 40 - apple_y g) with (hy - apple_y g + 40) in * by lia.
    replace (hx + 0 - apple_x g) with (hx - apple_x g) in * by lia. lia.
  - replace (hx + -40 - apple_x g) with (hx - apple_x g - 40) in * by lia.
    replace (hy + 0 - apple_y g) with (hy - apple_y g) in * by lia. lia.
  - replace (hx + 40 - apple_x g) with (hx - apple_x g + 40) in * by lia.
    replace (hy + 0 - apple_y g) with (hy - apple_y g) in * by lia. lia.
Qed.

Lemma learning_step_reward_on_grid_witness :
  let g := mkGame (Snake.mk down 1 [40] [40]) 120 120 display in
  let s : learning.State := (1, 1, (0, 0, 0, 0), 1) in
  ∃ r, learning.get_reward g s 1 s false false = Ok r ∧ (r = 10 ∨ r = -15).
Proof.
  intros g s. apply (learning_step_reward_on_grid g s s 1 40 40).
  - reflexivity.
  - vm_compute. lia.
  - exists (-2). reflexivity.
  - exists (-2). reflexivity.
Defined.

(** ** learning.py: the agent in its game *)

Lemma learning_predict_pure (g : Game) (px py : Z) :
  Snake.consistent (snake g) →
  learning_game._is_potential_move_colliding g px py true
  = Ok (negb (on_screen g px py
              && negb (body_hit (snake g) px py
                         (range 1 (Snake.length (snake g) - 1))))).
Proof.
  intros Hc. unfold learning_game._is_potential_move_colliding.
  destruct (on_screen g px py); cbn [negb andb]; [|done].
  cbn zeta. cbn [andb]. rewrite negb_involutive. case_bool_decide as Hlen.
  - apply hits_body_pure; [done|]. intros i Hi. apply range_lt in Hi. lia.
  - unfold range. replace (Snake.length (snake g) - 1)%nat with 0%nat by lia.
    replace (Snake.length (snake g) - 1)%nat with 0%nat by lia. done.
Qed.

Lemma direction_map_round_trip (d : Direction) :
  learning.direction_map_rev (learning_game.direction_map d) = Ok d.
Proof. by destruct d. Qed.

Lemma danger_spec (g : Game) (px py : Z) :
  Snake.consistent (snake g) →
  ∃ b, learning_game.danger g px py = Ok b
     ∧ (b = 0 ∨ b = 1)
     ∧ (b = 0 ↔ learning_game._is_potential_move_colliding g px py true = Ok false).
Proof.
  intros Hc. unfold learning_game.danger. rewrite learning_predict_pure by done.
  cbn [mbind result_bind].
  destruct (negb _); eexists; (split; [reflexivity|]); split; auto; split; done.
Qed.

Lemma valid_loop_spec (g : Game) (hx hy : Z) (dangers : Z * Z * Z * Z) :
  Snake.consistent (snake g) →
  Snake.segment (snake g) 0 = Some (hx, hy) →
  (∀ i name, learning.actions !! i = Some name →
     ∃ b, learning.tuple4_item dangers i = Ok b
        ∧ (b = 0 ↔ learning_game._is_potential_move_colliding g
                     (step (hx, hy) name).1 (step (hx, hy) name).2 true = Ok false)) →
  ∀ names i, (∀ j name, names !! j = Some name → learning.actions !! (i + j)%nat = Some name) →
  ∃ valid,
    learning_game.valid_loop g i names = Ok valid
    ∧ learning.valid_from (Snake.direction (snake g)) dangers i names = Ok valid
    ∧ ∀ k, k ∈ valid ↔
        ∃ j name, k = (i + j)%nat ∧ names !! j = Some name
          ∧ name ≠ opposite (Snake.direction (snake g))
          ∧ learning_game._is_potential_move_colliding g
              (step (hx, hy) name).1 (step (hx, hy) name).2 true = Ok false.
Proof.
  intros Hc Hh Hbits. pose proof (head_segment _ _ _ Hh) as [Hx Hy].
  induction names as [|name names IH]; intros i Hnames.
  { exists []. split; [done|]. split; [done|]. intros k. split.
    - intros Hk. by apply elem_of_nil in Hk.
    - intros (j & n & _ & Hj & _). done. }
  cbn [learning_game.valid_loop learning.valid_from].
  destruct (IH (S i)) as (valid & Hv1 & Hv2 & Hmem).
  { intros j n Hj. replace (S i + j)%nat with (i + S j)%nat by lia. by apply Hnames. }
  assert (Hshift : ∀ k, k ∈ valid ↔
            ∃ j n, k = (i + j)%nat ∧ (name :: names) !! j = Some n ∧ j ≠ 0%nat
              ∧ n ≠ opposite (Snake.direction (snake g))
              ∧ learning_game._is_potential_move_colliding g
                  (step (hx, hy) n).1 (step (hx, hy) n).2 true = Ok false).
  { intros k. rewrite Hmem. split.
    - intros (j & n & -> & Hj & Hrest). exists (S j), n. split; [lia|]. done.
    - intros (j & n & -> & Hj & Hj0 & Hrest). destruct j as [|j]; [done|].
      exists j, n. split; [lia|]. done. }
  destruct (decide (name = opposite (Snake.direction (snake g)))) as [Hrev|Hrev].
  { exists valid. split; [done|]. split; [done|]. intros k. rewrite Hshift. split.
    - intros (j & n & -> & Hj & _ & Hrest). eauto.
    - intros (j & n & -> & Hj & Hn & Hp). exists j, n. split; [done|]. split; [done|].
      split; [|done]. intros ->. cbn in Hj. congruence. }
  destruct (Hbits i name) as (b & Hb & Hb0).
  { specialize (Hnames 0%nat name eq_refl). by rewrite Nat.add_0_r in Hnames. }
  rewrite (potential_head_ok g hx hy name Hx Hy). cbn [mbind result_bind].
  change (hx + (direction_moves name).1) with (step (hx, hy) name).1.
  change (hy + (direction_moves name).2) with (step (hx, hy) name).2.
  rewrite learning_predict_pure in * by done. rewrite Hb, Hv1, Hv2.
  cbn [mbind result_bind].
  set (safe := on_screen g (step (hx, hy) name).1 (step (hx, hy) name).2
               && negb (body_hit (snake g) (step (hx, hy) name).1 (step (hx, hy) name).2
                          (range 1 (Snake.length (snake g) - 1)))) in *.
  destruct safe eqn:Hsafe; cbn [negb] in *.
  - rewrite decide_True by (by apply Hb0).
    exists (i :: valid). split; [done|]. split; [done|]. intros k.
    rewrite elem_of_cons, Hshift. split.
    + intros [->|(j & n & -> & Hj & _ & Hrest)]; [|eauto].
      exists 0%nat, name. split; [lia|]. split; [done|]. split; [done|].
      rewrite learning_predict_pure by done. fold safe. by rewrite Hsafe.
    + intros (j & n & -> & Hj & Hn & Hp). destruct j as [|j].
      * left. lia.
      * right. exists (S j), n. rewrite learning_predict_pure in Hp by done. split; [done|].
        split; [done|]. split; [done|]. split; [done|].
        by rewrite learning_predict_pure.
  - rewrite decide_False by (intros H0; apply Hb0 in H0; discriminate).
    exists valid. split; [done|]. split; [done|]. intros k. rewrite Hshift. split.
    + intros (j & n & -> & Hj & _ & Hrest). eauto.
    + intros (j & n & -> & Hj & Hn & Hp). exists j, n. split; [done|]. split; [done|].
      split; [|done]. intros ->. cbn in Hj. injection Hj as <-.
      rewrite learning_predict_pure in Hp by done. fold safe in Hp.
      rewrite Hsafe in Hp. discriminate.
Qed.

Lemma learning_get_state_spec (g : Game) (hx hy : Z) :
  Snake.consistent (snake g) →
  Snake.segment (snake g) 0 = Some (hx, hy) →
  ∃ ax ay dangers,
    learning_game.get_state g
    = Ok (ax, ay, dangers, learning_game.direction_map (Snake.direction (snake g)))
    ∧ -1 ≤ ax ≤ 1 ∧ -1 ≤ ay ≤ 1
    ∧ (ax = 0 ↔ 0 ≤ apple_x g - hx < SIZE) ∧ (ay = 0 ↔ 0 ≤ apple_y g - hy < SIZE)
    ∧ ∀ i name, learning.actions !! i = Some name →
        ∃ b, learning.tuple4_item dangers i = Ok b
          ∧ (b = 0 ∨ b = 1)
          ∧ (b = 0 ↔ learning_game._is_potential_move_colliding g
                       (step (hx, hy) name).1 (step (hx, hy) name).2 true = Ok false).
Proof.
  intros Hc Hh. apply head_segment in Hh as [Hx Hy].
  unfold learning_game.get_state. rewrite Hx, Hy. cbn [mbind result_bind].
  destruct (danger_spec g hx (hy - SIZE) Hc) as (du & -> & Hdu & Hu).
  destruct (danger_spec g hx (hy + SIZE) Hc) as (dd & -> & Hdd & Hd).
  destruct (danger_spec g (hx - SIZE) hy Hc) as (dl & -> & Hdl & Hl).
  destruct (danger_spec g (hx + SIZE) hy Hc) as (dr & -> & Hdr & Hr).
  cbn [mbind result_bind]. eexists _, _, _. split; [reflexivity|].
  assert (Hdisc : ∀ u, let q := u / SIZE in
            let v := if decide (q > 0) then 1 else if decide (q < 0) then -1 else 0 in
            -1 ≤ v ≤ 1 ∧ (v = 0 ↔ 0 ≤ u < SIZE)).
  { intros u q v. unfold v, q, SIZE.
    pose proof (Z.div_mod u 40 ltac:(lia)). pose proof (Z.mod_pos_bound u 40 ltac:(lia)).
    repeat case_decide; lia. }
  destruct (Hdisc (apple_x g - hx)) as [? ?]. destruct (Hdisc (apple_y g - hy)) as [? ?].
  do 4 (split; [done|]).
  intros i name Hi. unfold learning.actions in Hi.
  destruct i as [|[|[|[|i]]]]; cbn in Hi; try done; injection Hi as <-;
    cbn [learning.tuple4_item step direction_moves fst snd];
    rewrite ?Z.add_0_r, ?Z.add_opp_r; eauto.
Qed.

(** X23. [get_state] returns on every consistent snake with a head.  Its two
    apple components are -1, 0 or 1 (0 when the apple is less than a cell
    ahead along that axis), every danger bit is 0 or 1 and is 0 exactly when
    [_is_potential_move_colliding(..., exclude_tail=True)] reports the cell
    in that direction as free, and the heading code decodes back to the
    snake's heading through [direction_map_rev]. *)
Theorem learning_get_state_well_formed (g : Game) (hx hy : Z) :
  Snake.consistent (snake g) →
  Snake.segment (snake g) 0 = Some (hx, hy) →
  ∃ st, learning_game.get_state g = Ok st
    ∧ -1 ≤ st.1.1.1 ≤ 1 ∧ -1 ≤ st.1.1.2 ≤ 1
    ∧ (st.1.1.1 = 0 ↔ 0 ≤ apple_x g - hx < SIZE)
    ∧ (st.1.1.2 = 0 ↔ 0 ≤ apple_y g - hy < SIZE)
    ∧ learning.direction_map_rev st.2 = Ok (Snake.direction (snake g))
    ∧ ∀ i name, learning.actions !! i = Some name →
        ∃ b, learning.tuple4_item st.1.2 i = Ok b
          ∧ (b = 0 ∨ b = 1)
          ∧ (b = 0 ↔ learning_game._is_potential_move_colliding g
                       (step (hx, hy) name).1 (step (hx, hy) name).2 true = Ok false).
Proof.
  intros Hc Hh.
  destruct (learning_get_state_spec g hx hy Hc Hh)
    as (ax & ay & dangers & -> & Hax & Hay & Hax0 & Hay0 & Hbits).
  eexists. split; [reflexivity|]. cbn [fst snd].
  do 4 (split; [done|]). split; [apply direction_map_round_trip|done].
Qed.

Lemma learning_get_state_well_formed_witness :
  let g := mkGame (Snake.mk right 3 [120; 80; 40] [40; 40; 40]) 320 560 display in
  ∃ st, learning_game.get_state g = Ok st
    ∧ -1 ≤ st.1.1.1 ≤ 1 ∧ -1 ≤ st.1.1.2 ≤ 1
    ∧ (st.1.1.1 = 0 ↔ 0 ≤ apple_x g - 120 < SIZE)
    ∧ (st.1.1.2 = 0 ↔ 0 ≤ apple_y g - 40 < SIZE)
    ∧ learning.direction_map_rev st.2 = Ok (Snake.direction (snake g))
    ∧ ∀ i name, learning.actions !! i = Some name →
        ∃ b, learning.tuple4_item st.1.2 i = Ok b
          ∧ (b = 0 ∨ b = 1)
          ∧ (b = 0 ↔ learning_game._is_potential_move_colliding g
                       (step (120, 40) name).1 (step (120, 40) name).2 true = Ok false).
Proof.
  intros g. apply (learning_get_state_well_formed g 120 40).
  - split; reflexivity.
  - reflexivity.
Defined.

Lemma learning_valid_actions_spec (g : Game) (hx hy : Z) :
  Snake.consistent (snake g) →
  Snake.segment (snake g) 0 = Some (hx, hy) →
  ∃ st valid,
    learning_game.get_state g = Ok st
    ∧ learning.get_valid_actions_for_state st = Ok valid
    ∧ learning_game.get_valid_actions g
      = Ok (match valid with [] => seq 0 learning.n_actions | _ => valid end)
    ∧ ∀ k, k ∈ valid ↔
        ∃ name, learning.actions !! k = Some name
          ∧ name ≠ opposite (Snake.direction (snake g))
          ∧ learning_game._is_potential_move_colliding g
              (step (hx, hy) name).1 (step (hx, hy) name).2 true = Ok false.
Proof.
  intros Hc Hh.
  destruct (learning_get_state_spec g hx hy Hc Hh)
    as (ax & ay & dangers & Hst & _ & _ & _ & _ & Hbits).
  destruct (valid_loop_spec g hx hy dangers Hc Hh) with (names := learning.actions) (i := 0%nat)
    as (valid & Hv1 & Hv2 & Hmem).
  { intros i name Hi. destruct (Hbits i name Hi) as (b & Hb & _ & Hb0). eauto. }
  { intros j name Hj. done. }
  exists (ax, ay, dangers, learning_game.direction_map (Snake.direction (snake g))), valid.
  split; [done|]. split.
  { unfold learning.get_valid_actions_for_state. rewrite direction_map_round_trip. done. }
  split.
  { unfold learning_game.get_valid_actions. rewrite Hv1. cbn [mbind result_bind].
    by destruct valid. }
  intros k. rewrite Hmem. split.
  - intros (j & name & -> & Hj & Hrest). exists name. done.
  - intros (name & Hk & Hrest). exists k, name. done.
Qed.

(** X24. the actions that [get_valid_actions_for_state] reads off a state
    built by [get_state] are the ones [get_valid_actions] computes on the
    game itself: the directions that do not reverse the heading and whose
    cell is predicted free.  They differ in one case only: with no such
    direction the first returns the empty list and the second falls back to
    all four actions. *)
Theorem state_actions_agree_with_game (g : Game) (hx hy : Z) :
  Snake.consistent (snake g) →
  Snake.segment (snake g) 0 = Some (hx, hy) →
  ∃ st valid,
    learning_game.get_state g = Ok st
    ∧ learning.get_valid_actions_for_state st = Ok valid
    ∧ learning_game.get_valid_actions g
      = Ok (match valid with [] => seq 0 learning.n_actions | _ => valid end)
    ∧ ∀ k, k ∈ valid ↔
        ∃ name, learning.actions !! k = Some name
          ∧ name ≠ opposite (Snake.direction (snake g))
          ∧ learning_game._is_potential_move_colliding g
              (step (hx, hy) name).1 (step (hx, hy) name).2 true = Ok false.
Proof. apply learning_valid_actions_spec. Qed.

Lemma state_actions_agree_with_game_witness :
  let g := mkGame (Snake.mk right 3 [120; 80; 40] [40; 40; 40]) 320 560 display in
  ∃ st valid,
    learning_game.get_state g = Ok st
    ∧ learning.get_valid_actions_for_state st = Ok valid
    ∧ learning_game.get_valid_actions g
      = Ok (match valid with [] => seq 0 learning.n_actions | _ => valid end)
    ∧ ∀ k, k ∈ valid ↔
        ∃ name, learning.actions !! k = Some name
          ∧ name ≠ opposite (Snake.direction (snake g))
          ∧ learning_game._is_potential_move_colliding g
              (step (120, 40) name).1 (step (120, 40) name).2 true = Ok false.
Proof.
  intros g. apply (state_actions_agree_with_game g 120 40).
  - split; reflexivity.
  - reflexivity.
Defined.

Lemma xgt_true_above (v best : xfloat) : xgt v best = true → above v.
Proof. destruct v, best; done. Qed.

Lemma argmax_from_spec (l : list xfloat) : ∀ i bi best,
  let r := argmax_from i bi best l in
  r = bi ∨ ∃ j v, r = (i + j)%nat ∧ l !! j = Some v ∧ above v.
Proof.
  induction l as [|v l IH]; intros i bi best; cbn [argmax_from]; [by left|].
  destruct (xgt v best) eqn:Hgt.
  - right. destruct (IH (S i) i v) as [->|(j & u & -> & Hj & Hu)].
    + exists 0%nat, v. split; [lia|]. split; [done|]. by eapply xgt_true_above.
    + exists (S j), u. split; [lia|]. done.
  - destruct (IH (S i) bi best) as [->|(j & u & -> & Hj & Hu)]; [by left|].
    right. exists (S j), u. split; [lia|]. done.
Qed.

Lemma argmax_from_NegInf (l : list xfloat) : ∀ i bi,
  (∃ j v, l !! j = Some v ∧ above v) →
  ∃ j v, argmax_from i bi NegInf l = (i + j)%nat ∧ l !! j = Some v ∧ above v.
Proof.
  induction l as [|v l IH]; intros i bi (j & u & Hj & Hu); [done|].
  cbn [argmax_from]. destruct (xgt v NegInf) eqn:Hgt.
  - destruct (argmax_from_spec l (S i) i v) as [->|(k & w & -> & Hk & Hw)].
    + exists 0%nat, v. split; [lia|]. split; [done|]. by eapply xgt_true_above.
    + exists (S k), w. split; [lia|]. done.
  - destruct j as [|j].
    { cbn in Hj. injection Hj as ->. by rewrite xgt_above in Hgt. }
    destruct (IH (S i) bi) as (k & w & -> & Hk & Hw); [eauto|].
    exists (S k), w. split; [lia|]. done.
Qed.

Lemma argmax_above (l : list xfloat) :
  (∀ v, v ∈ l → v = NegInf ∨ above v) →
  (∃ j v, l !! j = Some v ∧ above v) →
  ∃ v, l !! argmax l = Some v ∧ above v.
Proof.
  intros Hall Hex. destruct l as [|v l]; [by destruct Hex as (j & u & Hj & _)|].
  cbn [argmax]. destruct (Hall v) as [->|Hv]; [by left| |].
  - destruct Hex as ([|j] & u & Hj & Hu); [cbn in Hj; by injection Hj as <-|].
    destruct (argmax_from_NegInf l 1 0) as (k & w & -> & Hk & Hw); [eauto|]. eauto.
  - destruct (argmax_from_spec l 1 0 v) as [->|(k & w & -> & Hk & Hw)]; eauto.
Qed.

Lemma fill_spec (row : list Q) (idx : list nat) : ∀ q_values,
  length q_values = length row →
  (∀ i, i ∈ idx → (i < length row)%nat) →
  ∃ q', learning_game.fill row idx q_values = Ok q'
    ∧ length q' = length row
    ∧ ∀ i, q' !! i = if decide (i ∈ idx) then Fin <$> row !! i else q_values !! i.
Proof.
  induction idx as [|i idx IH]; intros q Hlen Hidx.
  { exists q. split; [done|]. split; [done|]. intros i. rewrite decide_False; [done|].
    apply not_elem_of_nil. }
  cbn [learning_game.fill].
  destruct (lookup_lt_is_Some_2 row i) as [v Hv]; [apply Hidx; by left|].
  unfold getitem, setitem. rewrite Hv. cbn [mbind result_bind].
  rewrite decide_True by (rewrite Hlen; apply Hidx; by left). cbn [mbind result_bind].
  destruct (IH (<[i:=Fin v]> q)) as (q' & -> & Hlen' & Hq').
  { by rewrite length_insert. }
  { intros j Hj. apply Hidx. by right. }
  exists q'. split; [done|]. split; [done|]. intros j. rewrite Hq'.
  destruct (decide (j ∈ idx)) as [Hin|Hnin].
  - rewrite decide_True by (by right). done.
  - destruct (decide (j = i)) as [->|Hne].
    + rewrite decide_True by (by left). rewrite list_lookup_insert_eq by (by rewrite Hlen; apply Hidx; left).
      by rewrite Hv.
    + rewrite decide_False by (intros Hj; apply elem_of_cons in Hj as [?|?]; done).
      by rewrite list_lookup_insert_ne.
Qed.

Lemma elem_of_actions (name : Direction) :
  ∃ k, learning.actions !! k = Some name.
Proof.
  destruct name; [by exists 2%nat|by exists 3%nat|by exists 0%nat|by exists 1%nat].
Qed.

Lemma learning_get_action_spec (rnd : learning_game.Draw) (a : learning.QLearningAgent)
    (g : Game) (state : learning.State) (hx hy : Z) :
  Snake.consistent (snake g) →
  Snake.segment (snake g) 0 = Some (hx, hy) →
  (∀ k row, learning.q_table a !! k = Some row → length row = learning.n_actions) →
  ∃ valid act a',
    learning_game.get_valid_actions g = Ok valid
    ∧ learning_game.get_action rnd a g state = Ok (act, a')
    ∧ act ∈ valid
    ∧ (∀ k row, learning.q_table a' !! k = Some row → length row = learning.n_actions)
    ∧ learning.epsilon a' = learning.epsilon a
    ∧ (∀ k, k ≠ state → learning.q_table a' !! k = learning.q_table a !! k)
    ∧ (valid = seq 0 learning.n_actions
         ∧ (∀ name, name ≠ opposite (Snake.direction (snake g)) →
              learning_game._is_potential_move_colliding g
                (step (hx, hy) name).1 (step (hx, hy) name).2 true ≠ Ok false)
       ∨ ∀ k, k ∈ valid ↔
           ∃ name, learning.actions !! k = Some name
             ∧ name ≠ opposite (Snake.direction (snake g))
             ∧ learning_game._is_potential_move_colliding g
                 (step (hx, hy) name).1 (step (hx, hy) name).2 true = Ok false).
Proof.
  intros Hc Hh Hwf.
  destruct (learning_valid_actions_spec g hx hy Hc Hh) as (st & valid0 & _ & _ & Hv & Hmem).
  set (valid := match valid0 with [] => seq 0 learning.n_actions | _ => valid0 end) in *.
  assert (Hne : valid ≠ []) by (unfold valid; by destruct valid0).
  assert (Hlt : ∀ k, k ∈ valid → (k < learning.n_actions)%nat).
  { intros k Hk. unfold valid in Hk. destruct valid0 as [|v0 vs].
    - apply list_elem_of_In, in_seq in Hk. lia.
    - apply Hmem in Hk as (name & Hk & _). apply lookup_lt_Some in Hk. done. }
  assert (Hcase : valid = seq 0 learning.n_actions
         ∧ (∀ name, name ≠ opposite (Snake.direction (snake g)) →
              learning_game._is_potential_move_colliding g
                (step (hx, hy) name).1 (step (hx, hy) name).2 true ≠ Ok false)
       ∨ ∀ k, k ∈ valid ↔
           ∃ name, learning.actions !! k = Some name
             ∧ name ≠ opposite (Snake.direction (snake g))
             ∧ learning_game._is_potential_move_colliding g
                 (step (hx, hy) name).1 (step (hx, hy) name).2 true = Ok false).
  { unfold valid. destruct valid0 as [|v0 vs]; [left|by right]. split; [done|].
    intros name Hname Hsafe. destruct (elem_of_actions name) as [k Hk].
    assert (Hin : k ∈ @nil nat) by (apply Hmem; eauto). by apply elem_of_nil in Hin. }
  exists valid. unfold learning_game.get_action. rewrite Hv. cbn [mbind result_bind].
  destruct (Qltb (learning_game.random rnd) (learning.epsilon a)).
  - destruct valid as [|v vs] eqn:Ev; [done|]. rewrite <- Ev in *.
    destruct (lookup_lt_is_Some_2 valid (learning_game.choice rnd mod length valid)%nat)
      as [act Hact].
    { apply Nat.mod_upper_bound. rewrite Ev. done. }
    unfold getitem. rewrite Hact. cbn [mbind result_bind].
    exists act, a. split; [done|]. split; [done|].
    split; [by eapply list_elem_of_lookup_2|]. done.
  - destruct (ensure_row_self (learning.q_table a) state) as (row & Hrow & _).
    unfold learning.row_of. rewrite Hrow. cbn [mbind result_bind].
    assert (Hrowlen : length row = learning.n_actions).
    { by apply (ensure_row_wf _ state Hwf state). }
    destruct (fill_spec row valid (replicate learning.n_actions NegInf))
      as (q' & -> & Hlen' & Hq').
    { by rewrite length_replicate. }
    { intros i Hi. rewrite Hrowlen. by apply Hlt. }
    cbn [mbind result_bind].
    destruct (argmax_above q') as (v & Hv' & Habove).
    { intros v Hv'. apply list_elem_of_lookup in Hv' as [i Hi]. rewrite Hq' in Hi.
      destruct (decide (i ∈ valid)).
      - destruct (row !! i); [|done]. injection Hi as <-. by right.
      - apply lookup_replicate in Hi as [-> _]. by left. }
    { destruct valid as [|k ks] eqn:Ev; [done|]. rewrite <- Ev in *.
      assert (Hk : k ∈ valid) by (rewrite Ev; by left).
      destruct (lookup_lt_is_Some_2 row k) as [u Hu]; [rewrite Hrowlen; by apply Hlt|].
      exists k, (Fin u). rewrite Hq', decide_True by done. by rewrite Hu. }
    eexists _, _. split; [done|]. split; [reflexivity|].
    cbn [learning.q_table learning.set_q_table learning.epsilon].
    split.
    { rewrite Hq' in Hv'. destruct (decide (argmax q' ∈ valid)); [done|].
      apply lookup_replicate in Hv' as [-> _]. done. }
    split; [by apply ensure_row_wf|]. split; [done|]. split; [|done].
    intros k Hk. unfold learning.ensure_row.
    destruct (learning.q_table a !! state); [done|]. by rewrite lookup_insert_ne.
Qed.

(** X25. [get_action] returns and always picks one of the actions
    [get_valid_actions] lists, when it explores as when it exploits: the
    values of the other actions are masked by [-inf] before [argmax].  It
    keeps the table well formed and changes it at most by creating the row of
    the state it is asked about. *)
Theorem get_action_chooses_valid (rnd : learning_game.Draw) (a : learning.QLearningAgent)
    (g : Game) (state : learning.State) (hx hy : Z) :
  Snake.consistent (snake g) →
  Snake.segment (snake g) 0 = Some (hx, hy) →
  (∀ k row, learning.q_table a !! k = Some row → length row = learning.n_actions) →
  ∃ valid act a',
    learning_game.get_valid_actions g = Ok valid
    ∧ learning_game.get_action rnd a g state = Ok (act, a')
    ∧ act ∈ valid
    ∧ (act < learning.n_actions)%nat
    ∧ (∀ k row, learning.q_table a' !! k = Some row → length row = learning.n_actions)
    ∧ learning.epsilon a' = learning.epsilon a
    ∧ (∀ k, k ≠ state → learning.q_table a' !! k = learning.q_table a !! k).
Proof.
  intros Hc Hh Hwf.
  destruct (learning_get_action_spec rnd a g state hx hy Hc Hh Hwf)
    as (valid & act & a' & Hv & Hact & Hin & Hwf' & He & Hframe & Hcase).
  exists valid, act, a'. do 3 (split; [done|]). split; [|done].
  destruct Hcase as [[-> _]|Hmem].
  - apply list_elem_of_In, in_seq in Hin. lia.
  - apply Hmem in Hin as (name & Hk & _). by apply lookup_lt_Some in Hk.
Qed.

Lemma get_action_chooses_valid_witness :
  let g := mkGame (Snake.mk right 3 [120; 80; 40] [40; 40; 40]) 320 560 display in
  let rnd := learning_game.mkDraw (1 # 2) 1 0 in
  ∃ valid act a',
    learning_game.get_valid_actions g = Ok valid
    ∧ learning_game.get_action rnd learning.init g (1, 1, (0, 0, 1, 0), 3) = Ok (act, a')
    ∧ act ∈ valid
    ∧ (act < learning.n_actions)%nat
    ∧ (∀ k row, learning.q_table a' !! k = Some row → length row = learning.n_actions)
    ∧ learning.epsilon a' = learning.epsilon learning.init
    ∧ (∀ k, k ≠ (1, 1, (0, 0, 1, 0), 3) →
         learning.q_table a' !! k = learning.q_table learning.init !! k).
Proof.
  intros g rnd.
  apply (get_action_chooses_valid rnd learning.init g (1, 1, (0, 0, 1, 0), 3) 120 40).
  - split; reflexivity.
  - reflexivity.
  - intros k row Hk. simpl in Hk. done.
Defined.

Lemma learning_referee_clear (s : Snake.t) (nx ny : Z) :
  Snake.consistent s →
  body_hit s nx ny (range 1 (Snake.length s - 1)) = false →
  learning_game.self_collision s nx ny = Ok false.
Proof.
  intros Hc Hclear. unfold learning_game.self_collision.
  rewrite hits_body_pure by (done || (intros i Hi; apply range_lt in Hi; lia)).
  rewrite Hclear. cbn [mbind result_bind].
  destruct (decide (1 < Snake.length s)%nat) as [Hl|]; [|done].
  destruct (segment_lookup s (Snake.length s - 1) Hc) as (xt & yt & Hxt & Hyt & _); [lia|].
  unfold getitem. rewrite Hxt, Hyt. done.
Qed.

Lemma learning_play_safe (w : learning_game.World) (hx hy : Z) :
  Snake.consistent (snake (learning_game.game w)) →
  Snake.segment (snake (learning_game.game w)) 0 = Some (hx, hy) →
  (learning_game.apple_count w < 30)%nat →
  let nxt := step (hx, hy) (Snake.direction (snake (learning_game.game w))) in
  learning_game._is_potential_move_colliding (learning_game.game w) nxt.1 nxt.2 true
  = Ok false →
  ∃ w', learning_game.play w = Ok (learning_game.Continues w')
      ∧ Snake.segment (snake (learning_game.game w')) 0 = Some nxt
      ∧ Snake.consistent (snake (learning_game.game w')).
Proof.
  intros Hc Hh Hcount nxt Hsafe. set (g := learning_game.game w) in *.
  assert (Hl : (1 ≤ Snake.length (snake g))%nat).
  { destruct Hc as [Hx _]. unfold Snake.segment in Hh.
    destruct (Snake.x (snake g) !! 0%nat) eqn:E; [|done].
    apply lookup_lt_Some in E. lia. }
  rewrite learning_predict_pure in Hsafe by done.
  assert (Hp : on_screen g nxt.1 nxt.2
               && negb (body_hit (snake g) nxt.1 nxt.2
                          (range 1 (Snake.length (snake g) - 1))) = true).
  { destruct (_ && _); [done|]. cbn in Hsafe. congruence. }
  clear Hsafe. apply andb_true_iff in Hp as [Hon Hbody]. apply negb_true_iff in Hbody.
  pose proof (proj1 (body_hit_false _ _ _ _) Hbody) as Hfree.
  destruct (walk_spec (snake g) Hc Hl)
    as (s1 & Hw & Hd & Hlen & Hc1 & Hseg & hx' & hy' & Hh0 & Hh1).
  rewrite Hh in Hh0. injection Hh0 as <- <-. fold nxt in Hh1.
  pose proof (head_segment _ _ _ Hh1) as [Hx1 Hy1].
  assert (Hold : ∀ i c, (1 ≤ i < Snake.length (snake g))%nat →
            Snake.segment s1 i = Some c → is_collision nxt.1 nxt.2 c.1 c.2 = false).
  { intros i c Hi Hs. rewrite Hseg in Hs by lia.
    destruct (decide (i = 1%nat)) as [->|Hne].
    - cbn in Hs. rewrite Hh in Hs. injection Hs as <-.
      apply (no_collision_neck (hx, hy)).
    - apply (Hfree (i - 1)%nat); [|done]. apply elem_of_range. lia. }
  assert (Hreferee : ∀ s2, (s2 = s1 ∨ s2 = Snake.increase_length s1) →
    Snake.consistent s2 ∧ Snake.segment s2 0 = Some nxt
    ∧ getitem (Snake.x s2) 0 = Ok nxt.1 ∧ getitem (Snake.y s2) 0 = Ok nxt.2
    ∧ learning_game.self_collision s2 nxt.1 nxt.2 = Ok false).
  { intros s2 [->| ->].
    - split; [done|]. split; [done|]. split; [exact Hx1|]. split; [exact Hy1|].
      apply learning_referee_clear; [done|]. apply body_hit_false.
      intros i c Hi Hs. apply range_lt in Hi. apply (Hold i); [lia|done].
    - assert (Hh2 : Snake.segment (Snake.increase_length s1) 0 = Some nxt).
      { rewrite segment_increase_length by (done || lia). done. }
      pose proof (head_segment _ _ _ Hh2) as [Hx2 Hy2].
      split; [by apply increase_length_consistent|]. split; [done|].
      split; [exact Hx2|]. split; [exact Hy2|].
      apply learning_referee_clear; [by apply increase_length_consistent|].
      apply body_hit_false. intros i c Hi Hs. apply range_lt in Hi.
      cbn [Snake.length Snake.increase_length] in Hi.
      rewrite segment_increase_length in Hs by (done || lia).
      apply (Hold i); [lia|done]. }
  assert (Hwall : ∀ g', surface g' = surface g →
            learning_game.check_wall_collision g' nxt.1 nxt.2 = false).
  { intros g' Hs. unfold learning_game.check_wall_collision. rewrite Hs.
    unfold on_screen in Hon. apply bool_decide_eq_true in Hon.
    rewrite !bool_decide_eq_false_2 by lia. done. }
  unfold learning_game.play. fold g. rewrite Hw. cbn [mbind result_bind].
  rewrite Hx1, Hy1. cbn [mbind result_bind].
  destruct (is_collision _ _ (apple_x g) (apple_y g)).
  - destruct (learning_game.training_mode w) eqn:Htm; cbn [negb].
    + cbn [mbind result_bind learning_game.game snake ai.set_snake].
      destruct (Hreferee (Snake.increase_length s1)) as (Hc2 & Hh2 & Hx2 & Hy2 & Hself);
        [by right|].
      eexists. split.
      { rewrite Hx2, Hy2. cbn [mbind result_bind]. rewrite Hself.
        cbn [mbind result_bind].
        rewrite Hwall by done. reflexivity. }
      split; [exact Hh2|exact Hc2].
    + destruct (apple_move_spec (Apple.mk (apple_x g) (apple_y g)
                  (learning_game.apple_count w))) as (a' & -> & _); [done|].
      cbn [mbind result_bind learning_game.game snake].
      destruct (Hreferee (Snake.increase_length s1)) as (Hc2 & Hh2 & Hx2 & Hy2 & Hself);
        [by right|].
      eexists. split.
      { rewrite Hx2, Hy2. cbn [mbind result_bind]. rewrite Hself.
        cbn [mbind result_bind].
        rewrite Hwall by done. reflexivity. }
      split; [exact Hh2|exact Hc2].
  - cbn [mbind result_bind learning_game.game snake ai.set_snake].
    destruct (Hreferee s1) as (Hc2 & Hh2 & Hx2 & Hy2 & Hself); [by left|].
    eexists. split.
    { rewrite Hx2, Hy2. cbn [mbind result_bind]. rewrite Hself.
      cbn [mbind result_bind].
      rewrite Hwall by done. reflexivity. }
    split; [exact Hh2|exact Hc2].
Qed.

Lemma hits_body_ext (s s' : Snake.t) (px py : Z) (idx : list nat) :
  Snake.x s = Snake.x s' → Snake.y s = Snake.y s' →
  hits_body s px py idx = hits_body s' px py idx.
Proof.
  intros Hx Hy. induction idx as [|i idx IH]; [done|].
  cbn [hits_body]. by rewrite Hx, Hy, IH.
Qed.

(** X26. the danger prediction of learning.py is sound for its referee.
    When [_is_potential_move_colliding(..., exclude_tail=True)] reports the
    cell ahead of the head as free, [play] returns without raising, in
    training mode or not, with the head on that cell. *)
Theorem learning_safe_move_survives (w : learning_game.World) (hx hy : Z) :
  Snake.consistent (snake (learning_game.game w)) →
  Snake.segment (snake (learning_game.game w)) 0 = Some (hx, hy) →
  (learning_game.apple_count w < 30)%nat →
  let nxt := step (hx, hy) (Snake.direction (snake (learning_game.game w))) in
  learning_game._is_potential_move_colliding (learning_game.game w) nxt.1 nxt.2 true
  = Ok false →
  ∃ w', learning_game.play w = Ok (learning_game.Continues w')
      ∧ Snake.segment (snake (learning_game.game w')) 0 = Some nxt
      ∧ Snake.consistent (snake (learning_game.game w')).
Proof. apply learning_play_safe. Qed.

Lemma learning_safe_move_survives_witness :
  let w := learning_game.mkWorld
             (mkGame (Snake.mk right 3 [120; 80; 40] [40; 40; 40]) 160 40 display)
             0 (30 # 100) false in
  ∃ w', learning_game.play w = Ok (learning_game.Continues w')
      ∧ Snake.segment (snake (learning_game.game w')) 0 = Some (step (120, 40) right)
      ∧ Snake.consistent (snake (learning_game.game w')).
Proof.
  intros w. apply (learning_safe_move_survives w 120 40).
  - split; reflexivity.
  - reflexivity.
  - simpl. lia.
  - reflexivity.
Defined.

(** X27. one step of the learning agent is safe whenever a safe move
    exists.  If some direction other than the reverse of the heading has its
    cell predicted free, then whatever the random draws and the Q-table,
    [get_action] returns an action, [execute_action] turns the snake to it,
    and the [play] that follows returns without raising. *)
Theorem learning_agent_step_survives (rnd : learning_game.Draw)
    (a : learning.QLearningAgent) (w : learning_game.World) (state : learning.State)
    (hx hy : Z) (d0 : Direction) :
  let g := learning_game.game w in
  Snake.consistent (snake g) →
  Snake.segment (snake g) 0 = Some (hx, hy) →
  (learning_game.apple_count w < 30)%nat →
  (∀ k row, learning.q_table a !! k = Some row → length row = learning.n_actions) →
  d0 ≠ opposite (Snake.direction (snake g)) →
  learning_game._is_potential_move_colliding g (step (hx, hy) d0).1 (step (hx, hy) d0).2
    true = Ok false →
  ∃ act a' g1 w',
    learning_game.get_action rnd a g state = Ok (act, a')
    ∧ learning_game.execute_action g act = Ok g1
    ∧ learning_game.play
        (learning_game.mkWorld g1 (learning_game.apple_count w)
           (learning_game.game_speed w) (learning_game.training_mode w))
      = Ok (learning_game.Continues w').
Proof.
  intros g Hc Hh Hcount Hwf Hd0 Hsafe0.
  destruct (learning_get_action_spec rnd a g state hx hy Hc Hh Hwf)
    as (valid & act & a' & _ & Hact & Hin & _ & _ & _ & Hcase).
  destruct Hcase as [[_ Hnone]|Hmem]; [by destruct (Hnone d0 Hd0)|].
  apply Hmem in Hin as (name & Hname & Hrev & Hsafe).
  set (g1 := ai.set_snake g (turn name (snake g))).
  assert (Hturn : snake g1 = Snake.mk name (Snake.length (snake g)) (Snake.x (snake g))
                               (Snake.y (snake g))).
  { unfold g1. cbn [snake ai.set_snake]. destruct (snake g) as [dir len xs ys].
    cbn [Snake.direction] in Hrev. cbn [Snake.length Snake.x Snake.y].
    destruct name, dir; cbn; done. }
  destruct (learning_play_safe
              (learning_game.mkWorld g1 (learning_game.apple_count w)
                 (learning_game.game_speed w) (learning_game.training_mode w)) hx hy)
    as (w' & Hplay & _).
  - cbn [learning_game.game]. rewrite Hturn. exact Hc.
  - cbn [learning_game.game]. rewrite Hturn. exact Hh.
  - done.
  - cbn [learning_game.game]. rewrite Hturn. cbn [Snake.direction].
    unfold learning_game._is_potential_move_colliding in *.
    rewrite (hits_body_ext (snake g1) (snake g)) by (by rewrite Hturn).
    rewrite Hturn. exact Hsafe.
  - exists act, a', g1, w'. split; [done|]. split; [|done].
    unfold learning_game.execute_action, getitem. rewrite Hname. done.
Qed.

Lemma learning_agent_step_survives_witness :
  let w := learning_game.mkWorld
             (mkGame (Snake.mk right 3 [120; 80; 40] [40; 40; 40]) 320 560 display)
             0 (30 # 100) true in
  let rnd := learning_game.mkDraw (1 # 2) 1 0 in
  let state : learning.State := (1, 1, (0, 0, 1, 0), 3) in
  ∃ act a' g1 w',
    learning_game.get_action rnd learning.init (learning_game.game w) state = Ok (act, a')
    ∧ learning_game.execute_action (learning_game.game w) act = Ok g1
    ∧ learning_game.play
        (learning_game.mkWorld g1 (learning_game.apple_count w)
           (learning_game.game_speed w) (learning_game.training_mode w))
      = Ok (learning_game.Continues w').
Proof.
  intros w rnd state.
  apply (learning_agent_step_survives rnd learning.init w state 120 40 down).
  - split; reflexivity.
  - reflexivity.
  - simpl. lia.
  - intros k row Hk. simpl in Hk. done.
  - discriminate.
  - reflexivity.
Defined.

(** ** allagents.py: the simple agent *)

Section simple_agent_proofs.

Variable g : Game.
Variable hx hy : Z.
Hypothesis snake_consistent : Snake.consistent (snake g).
Hypothesis head_at : Snake.segment (snake g) 0 = Some (hx, hy).

Lemma colliding_at_head (d : Direction) :
  ('(next_x, next_y) ← _get_potential_head g d;
   _is_potential_move_colliding g next_x next_y)
  = Ok (negb (passable 1 g (step (hx, hy) d))).
Proof.
  pose proof (head_segment _ _ _ head_at) as [Hx Hy].
  rewrite (potential_head_ok g hx hy d Hx Hy). cbn [mbind result_bind].
  by rewrite potential_move_passable_xy.
Qed.

Lemma safe_loop_spec (ds : list Direction) :
  ∃ safe, SimpleAgent.safe_loop g ds = Ok safe
    ∧ ∀ d, d ∈ safe ↔ d ∈ ds ∧ passable 1 g (step (hx, hy) d) = true.
Proof.
  pose proof (head_segment _ _ _ head_at) as [Hx Hy].
  induction ds as [|d ds (safe & IH & Hmem)]; cbn [SimpleAgent.safe_loop].
  { exists []. split; [done|]. intros d. rewrite !elem_of_nil. tauto. }
  rewrite (potential_head_ok g hx hy d Hx Hy). cbn [mbind result_bind].
  rewrite potential_move_passable_xy by done. cbn [mbind result_bind].
  rewrite IH. cbn [mbind result_bind].
  change (hx + (direction_moves d).1, hy + (direction_moves d).2) with (step (hx, hy) d).
  destruct (passable 1 g (step (hx, hy) d)) eqn:Hp; cbn [negb].
  - exists (d :: safe). split; [done|]. intros d'. rewrite !elem_of_cons, Hmem.
    split; [intros [->|[? ?]]; auto|intros [[->|?] ?]; auto].
  - exists safe. split; [done|]. intros d'. rewrite elem_of_cons, Hmem.
    split; [intros [? ?]; auto|intros [[->|?] ?]; [congruence|auto]].
Qed.

Lemma best_loop_spec (safe : list Direction) : ∀ best score,
  (1 ≤ Snake.length (snake g))%nat →
  ∃ d, SimpleAgent.best_loop g safe best score = Ok d ∧ (d = best ∨ d ∈ safe).
Proof.
  pose proof (head_segment _ _ _ head_at) as [Hx Hy].
  induction safe as [|d safe IH]; intros best score Hl; cbn [SimpleAgent.best_loop].
  { exists best. split; [done|by left]. }
  rewrite (potential_head_ok g hx hy d Hx Hy). cbn [mbind result_bind].
  unfold allagents.UtilityBasedAgent.count_escape_routes.
  destruct (escape_routes_total g [left; right; up; down] snake_consistent Hl 0)
    as (e & -> & _).
  cbn [mbind result_bind].
  match goal with |- context [if ?c then _ else _] => destruct c end;
    match goal with
    | |- context [SimpleAgent.best_loop g safe ?b ?s] =>
        destruct (IH b s Hl) as (r & -> & [->|Hr])
    end; eexists; (split; [reflexivity|]); auto; right; first [by left|by right].
Qed.

End simple_agent_proofs.

(** X28. [SimpleAgent.make_move] returns on every consistent snake with a
    head.  It only ever turns the snake to a direction that does not reverse
    the heading and whose cell is collision-free, and it does so whenever
    such a direction exists; otherwise it leaves the game as it is. *)
Theorem simple_agent_moves_safely (g : Game) (hx hy : Z) :
  Snake.consistent (snake g) →
  Snake.segment (snake g) 0 = Some (hx, hy) →
  ∃ g', SimpleAgent.make_move g = Ok g'
    ∧ (g' = g
       ∧ (∀ d, d ≠ opposite (Snake.direction (snake g)) →
               passable 1 g (step (hx, hy) d) = false)
       ∨ ∃ d, g' = ai.set_snake g (turn d (snake g))
            ∧ d ≠ opposite (Snake.direction (snake g))
            ∧ passable 1 g (step (hx, hy) d) = true
            ∧ Snake.direction (snake g') = d).
Proof.
  intros Hc Hh. pose proof (head_segment _ _ _ Hh) as [Hx Hy].
  assert (Hl : (1 ≤ Snake.length (snake g))%nat).
  { destruct Hc as [Hlx _]. unfold Snake.segment in Hh.
    destruct (Snake.x (snake g) !! 0%nat) eqn:E; [|done].
    apply lookup_lt_Some in E. lia. }
  unfold SimpleAgent.make_move. rewrite Hx, Hy. cbn [mbind result_bind].
  destruct (safe_loop_spec g hx hy Hc Hh (allagents.candidates (Snake.direction (snake g))))
    as (safe & -> & Hmem).
  cbn [mbind result_bind]. destruct safe as [|first safe].
  - exists g. split; [done|]. left. split; [done|]. intros d Hd.
    destruct (passable 1 g (step (hx, hy) d)) eqn:Hp; [|done].
    assert (Hin : d ∈ @nil Direction); [|by apply elem_of_nil in Hin].
    apply Hmem. split; [by apply elem_of_candidates|done].
  - destruct (best_loop_spec g hx hy Hc Hh (first :: safe) first None Hl)
      as (d & -> & Hd).
    cbn [mbind result_bind]. eexists. split; [reflexivity|]. right. exists d.
    assert (Hin : d ∈ first :: safe) by (destruct Hd as [->|?]; [by left|done]).
    apply Hmem in Hin as [Hcand Hp]. apply elem_of_candidates in Hcand.
    split; [done|]. split; [done|]. split; [done|]. by apply turn_sets_direction.
Qed.

Lemma simple_agent_moves_safely_witness :
  let g := mkGame (Snake.mk down 3 [160; 160; 160] [120; 80; 40]) 320 560 display in
  ∃ g', SimpleAgent.make_move g = Ok g'
    ∧ (g' = g
       ∧ (∀ d, d ≠ opposite (Snake.direction (snake g)) →
               passable 1 g (step (160, 120) d) = false)
       ∨ ∃ d, g' = ai.set_snake g (turn d (snake g))
            ∧ d ≠ opposite (Snake.direction (snake g))
            ∧ passable 1 g (step (160, 120) d) = true
            ∧ Snake.direction (snake g') = d).
Proof.
  intros g. apply (simple_agent_moves_safely g 160 120).
  - split; reflexivity.
  - reflexivity.
Defined.

(** ** simplereflex.py: the vertical agent *)

(** X29. [vertical_agent] returns on every consistent snake with a head, and
    every turn it requests is towards a collision-free cell: the game is left
    as it is, or one request is made for a direction whose cell ahead of the
    head is on the screen and off the body. *)
Theorem vertical_agent_requests_free_cells (g : Game) (hx hy : Z) :
  Snake.consistent (snake g) →
  Snake.segment (snake g) 0 = Some (hx, hy) →
  ∃ g', vertical.vertical_agent g = Ok g'
    ∧ (g' = g
       ∨ ∃ d, g' = ai.set_snake g (turn d (snake g))
            ∧ passable 1 g (step (hx, hy) d) = true).
Proof.
  intros Hc Hh. pose proof (head_segment _ _ _ Hh) as [Hx Hy].
  assert (Hcol : ∀ d, vertical.colliding_towards g d
                      = Ok (negb (passable 1 g (step (hx, hy) d)))).
  { intros d. unfold vertical.colliding_towards. by apply colliding_at_head. }
  assert (Hcol' : ∀ d, _is_potential_move_colliding g (hx + (direction_moves d).1)
                         (hy + (direction_moves d).2)
                       = Ok (negb (passable 1 g (step (hx, hy) d)))).
  { intros d. by rewrite potential_move_passable_xy. }
  assert (H1 : ∀ first, ∃ g', vertical.first_or_right g first = Ok g'
            ∧ (g' = g ∨ ∃ d, g' = ai.set_snake g (turn d (snake g))
                 ∧ passable 1 g (step (hx, hy) d) = true)).
  { intros first. unfold vertical.first_or_right. rewrite !Hcol. cbn [mbind result_bind].
    destruct (passable 1 g (step (hx, hy) first)) eqn:Hp; cbn [negb].
    { eexists. split; [reflexivity|]. right. by exists first. }
    cbn [mbind result_bind].
    destruct (passable 1 g (step (hx, hy) right)) eqn:Hr; cbn [negb].
    - eexists. split; [reflexivity|]. right. by exists right.
    - eexists. split; [reflexivity|]. by left. }
  assert (H2 : ∀ first, ∃ g', vertical.first_or_vertical g first = Ok g'
            ∧ (g' = g ∨ ∃ d, g' = ai.set_snake g (turn d (snake g))
                 ∧ passable 1 g (step (hx, hy) d) = true)).
  { intros first. unfold vertical.first_or_vertical. rewrite Hcol.
    cbn [mbind result_bind].
    destruct (passable 1 g (step (hx, hy) first)) eqn:Hp; cbn [negb].
    { eexists. split; [reflexivity|]. right. by exists first. }
    rewrite !(potential_head_ok g hx hy _ Hx Hy). cbn [mbind result_bind].
    rewrite (Hcol' up). cbn [mbind result_bind].
    destruct (passable 1 g (step (hx, hy) up)) eqn:Hu; cbn [negb].
    { eexists. split; [reflexivity|]. right. by exists up. }
    rewrite (Hcol' down). cbn [mbind result_bind].
    destruct (passable 1 g (step (hx, hy) down)) eqn:Hd; cbn [negb].
    - eexists. split; [reflexivity|]. right. by exists down.
    - eexists. split; [reflexivity|]. by left. }
  unfold vertical.vertical_agent. rewrite Hy. cbn [mbind result_bind].
  destruct (decide (hy < apple_y g)); [apply H1|].
  destruct (decide (hy > apple_y g)); [apply H1|].
  rewrite Hx. cbn [mbind result_bind].
  destruct (decide (hx < apple_x g)); [apply H2|].
  destruct (decide (hx > apple_x g)); [apply H2|].
  exists g. split; [done|by left].
Qed.

Lemma vertical_agent_requests_free_cells_witness :
  let g := mkGame (Snake.mk right 3 [120; 80; 40] [40; 40; 40]) 320 560 display in
  ∃ g', vertical.vertical_agent g = Ok g'
    ∧ (g' = g
       ∨ ∃ d, g' = ai.set_snake g (turn d (snake g))
            ∧ passable 1 g (step (120, 40) d) = true).
Proof.
  intros g. apply (vertical_agent_requests_free_cells g 120 40).
  - split; reflexivity.
  - reflexivity.
Defined.

(** ** allagents.py: the first move of the learning agent *)

Lemma first_safe_spec (g : Game) (hx hy : Z) (ds : list Direction) :
  Snake.consistent (snake g) →
  Snake.segment (snake g) 0 = Some (hx, hy) →
  ∃ g', allagents.LearningAgent.first_safe g ds = Ok g'
    ∧ (g' = g
       ∨ ∃ d, g' = ai.set_snake g (turn d (snake g))
            ∧ passable 1 g (step (hx, hy) d) = true).
Proof.
  intros Hc Hh. pose proof (head_segment _ _ _ Hh) as [Hx Hy].
  induction ds as [|d ds (g' & IH & Hg')]; cbn [allagents.LearningAgent.first_safe].
  { exists g. split; [done|by left]. }
  rewrite (potential_head_ok g hx hy d Hx Hy). cbn [mbind result_bind].
  rewrite potential_move_passable_xy by done. cbn [mbind result_bind].
  change (hx + (direction_moves d).1, hy + (direction_moves d).2) with (step (hx, hy) d).
  destruct (passable 1 g (step (hx, hy) d)) eqn:Hp; cbn [negb].
  - eexists. split; [reflexivity|]. right. by exists d.
  - exists g'. done.
Qed.

(** X30. the first move of an episode of the learning agent of allagents.py
    (no previous state stored) returns.  It stores the state and the action
    for the next update, leaves the Q-table untouched and decays the
    exploration rate without letting it drop below [min_epsilon].  The snake
    keeps its body, and its heading either stays or becomes a direction that
    does not reverse it and whose cell is collision-free. *)
Theorem learning_agent_first_move (outer : gmap string allagents.LearningAgent.value)
    (rnd : allagents.LearningAgent.Draw) (a : allagents.LearningAgent.t) (g : Game)
    (hx hy : Z) :
  Snake.consistent (snake g) →
  Snake.segment (snake g) 0 = Some (hx, hy) →
  allagents.LearningAgent.last a = None →
  ∃ st a' g',
    allagents.LearningAgent.get_state g = Ok st
    ∧ allagents.LearningAgent.make_move outer rnd a g = Ok (a', g')
    ∧ allagents.LearningAgent.last a'
      = Some (st, allagents.LearningAgent.choose_action rnd a g st)
    ∧ allagents.LearningAgent.q_table a' = allagents.LearningAgent.q_table a
    ∧ (allagents.LearningAgent.min_epsilon a <= allagents.LearningAgent.epsilon a')%Q
    ∧ Snake.x (snake g') = Snake.x (snake g)
    ∧ Snake.y (snake g') = Snake.y (snake g)
    ∧ Snake.length (snake g') = Snake.length (snake g)
    ∧ (Snake.direction (snake g') = Snake.direction (snake g)
       ∨ Snake.direction (snake g') ≠ opposite (Snake.direction (snake g))
         ∧ passable 1 g (step (hx, hy) (Snake.direction (snake g'))) = true).
Proof.
  intros Hc Hh Hlast. pose proof (head_segment _ _ _ Hh) as [Hx Hy].
  assert (Hl : (1 ≤ Snake.length (snake g))%nat).
  { destruct Hc as [Hlx _]. unfold Snake.segment in Hh.
    destruct (Snake.x (snake g) !! 0%nat) eqn:E; [|done].
    apply lookup_lt_Some in E. lia. }
  destruct (get_state_total g Hc Hl) as [st Hst].
  pose proof (choose_action_lt rnd a g st) as Hact.
  destruct (lookup_lt_is_Some_2 [left; right; up; down]
              (allagents.LearningAgent.choose_action rnd a g st)) as [d Hd];
    [simpl; lia|].
  assert (Hturned : ∀ d', passable 1 g (step (hx, hy) d') = true →
    let g' := ai.set_snake g (turn d' (snake g)) in
    Snake.x (snake g') = Snake.x (snake g)
    ∧ Snake.y (snake g') = Snake.y (snake g)
    ∧ Snake.length (snake g') = Snake.length (snake g)
    ∧ (Snake.direction (snake g') = Snake.direction (snake g)
       ∨ Snake.direction (snake g') ≠ opposite (Snake.direction (snake g))
         ∧ passable 1 g (step (hx, hy) (Snake.direction (snake g'))) = true)).
  { intros d' Hp. cbn. destruct (turn_body d' (snake g)) as (-> & -> & ->).
    do 3 (split; [done|]). rewrite turn_direction.
    destruct (decide (d' = opposite (Snake.direction (snake g)))); [by left|by right]. }
  exists st. unfold allagents.LearningAgent.make_move. rewrite Hst.
  cbn [mbind result_bind]. rewrite Hlast. cbn [mbind result_bind].
  unfold getitem at 1. rewrite Hd. cbn [mbind result_bind].
  rewrite (potential_head_ok g hx hy d Hx Hy). cbn [mbind result_bind].
  rewrite potential_move_passable_xy by done. cbn [mbind result_bind].
  change (hx + (direction_moves d).1, hy + (direction_moves d).2) with (step (hx, hy) d).
  destruct (passable 1 g (step (hx, hy) d)) eqn:Hp; cbn [negb].
  - cbn [mbind result_bind]. eexists _, _. split; [done|]. split; [reflexivity|].
    cbn [allagents.LearningAgent.finish_move allagents.LearningAgent.last
         allagents.LearningAgent.q_table allagents.LearningAgent.epsilon
         allagents.LearningAgent.min_epsilon].
    do 2 (split; [done|]). split; [apply pymax_floor|]. by apply Hturned.
  - rewrite Hlast. cbn [mbind result_bind].
    destruct (first_safe_spec g hx hy [left; right; up; down] Hc Hh) as (g' & -> & Hg').
    cbn [mbind result_bind]. eexists _, _. split; [done|]. split; [reflexivity|].
    cbn [allagents.LearningAgent.finish_move allagents.LearningAgent.last
         allagents.LearningAgent.q_table allagents.LearningAgent.epsilon
         allagents.LearningAgent.min_epsilon].
    do 2 (split; [done|]). split; [apply pymax_floor|].
    destruct Hg' as [->|(d' & -> & Hp')]; [|by apply Hturned].
    do 3 (split; [done|]). by left.
Qed.

Lemma learning_agent_first_move_witness :
  let outer : gmap string allagents.LearningAgent.value := ∅ in
  let rnd := allagents.LearningAgent.mkDraw (1 # 2) 0 in
  let a := allagents.LearningAgent.init in
  let g := mkGame Snake.init 120 120 display in
  ∃ st a' g',
    allagents.LearningAgent.get_state g = Ok st
    ∧ allagents.LearningAgent.make_move outer rnd a g = Ok (a', g')
    ∧ allagents.LearningAgent.last a'
      = Some (st, allagents.LearningAgent.choose_action rnd a g st)
    ∧ allagents.LearningAgent.q_table a' = allagents.LearningAgent.q_table a
    ∧ (allagents.LearningAgent.min_epsilon a <= allagents.LearningAgent.epsilon a')%Q
    ∧ Snake.x (snake g') = Snake.x (snake g)
    ∧ Snake.y (snake g') = Snake.y (snake g)
    ∧ Snake.length (snake g') = Snake.length (snake g)
    ∧ (Snake.direction (snake g') = Snake.direction (snake g)
       ∨ Snake.direction (snake g') ≠ opposite (Snake.direction (snake g))
         ∧ passable 1 g (step (40, 40) (Snake.direction (snake g'))) = true).
Proof.
  intros outer rnd a g. apply (learning_agent_first_move outer rnd a g 40 40).
  - split; reflexivity.
  - reflexivity.
  - reflexivity.
Defined.
